(** * Grisu2 (Drachennest, [src/grisu2.h]): a shallow embedding and its properties

    The C++ header is translated function by function.  Unsigned 64-bit and
    32-bit integers are integers of [Z] with the wrap-around written out
    ([wrap64], [wrap32]); [int] values are plain [Z] (signed overflow is
    undefined behaviour in C++ and does not occur on the ranges used here).
    A [char*] into the caller's buffer is the list of bytes that starts at the
    pointer.  Every [assert] of the source is kept: a failing one makes the
    function return [Fail (AssertionFailed "...")] carrying the asserted
    expression.  Unbounded loops take a fuel argument. *)

From Stdlib Require Import ZArith Lia String Ascii List Bool Reals Lra.
Import ListNotations.

Local Open Scope Z_scope.

(** ** Results of fallible code *)

Inductive failure : Type :=
| AssertionFailed (expr : string)
| OutOfBounds
| OutOfFuel.

Inductive result (A : Type) : Type :=
| Ok (a : A)
| Fail (why : failure).

Arguments Ok {A} a.
Arguments Fail {A} why.

Definition bind {A B : Type} (c : result A) (k : A -> result B) : result B :=
  match c with
  | Ok a => k a
  | Fail why => Fail why
  end.

Notation "x <- c ;; k" := (bind c (fun x => k))
  (at level 61, c at next level, right associativity).
Notation "' pat <- c ;; k" := (bind c (fun x => match x with pat => k end))
  (at level 61, pat pattern, c at next level, right associativity).

Definition assert (cond : bool) (expr : string) : result unit :=
  if cond then Ok tt else Fail (AssertionFailed expr).

Notation "'check' c 'as' s ;; k" := (bind (assert c s) (fun _ => k))
  (at level 61, c at next level, s at next level, right associativity).

(** ** Machine integers *)

Definition wrap64 (z : Z) : Z := z mod 2 ^ 64.
Definition wrap32 (z : Z) : Z := z mod 2 ^ 32.
Definition UINT64_MAX : Z := 2 ^ 64 - 1.

(** ** DiyFp *)

(** [struct DiyFp { uint64_t f; int e; }], the number [f * 2^e]. *)
Record DiyFp : Type := mkDiyFp { f : Z; e : Z }.

Definition kPrecision : Z := 64.

(** [Subtract(x, y)], lines 96-102. *)
Definition Subtract (x y : DiyFp) : result DiyFp :=
  check (x.(e) =? y.(e)) as "x.e == y.e" ;;
  check (x.(f) >=? y.(f)) as "x.f >= y.f" ;;
  Ok (mkDiyFp (wrap64 (x.(f) - y.(f))) x.(e)).

(** [_umul128(a, b, &h)]: the low half is returned, the high half stored. *)
Definition umul128 (a b : Z) : Z * Z :=
  (wrap64 (a * b), wrap64 (Z.shiftr (a * b) 64)).

(** [Multiply], first branch ([_MSC_VER && _M_X64]), lines 114-118. *)
Definition Multiply_umul128 (x y : DiyFp) : DiyFp :=
  let '(l, h) := umul128 x.(f) y.(f) in
  let h := wrap64 (h + Z.shiftr l 63) in
  mkDiyFp h (x.(e) + y.(e) + 64).

(** [Multiply], second branch ([__GNUC__ && __SIZEOF_INT128__]), lines 122-130. *)
Definition Multiply_uint128 (x y : DiyFp) : DiyFp :=
  let p := (x.(f) * y.(f)) mod 2 ^ 128 in
  let h := wrap64 (Z.shiftr p 64) in
  let l := wrap64 p in
  let h := wrap64 (h + Z.shiftr l 63) in
  mkDiyFp h (x.(e) + y.(e) + 64).

(** [Multiply], portable branch (four 32x32 products), lines 157-188. *)
Definition Multiply_portable (x y : DiyFp) : DiyFp :=
  let u_lo := wrap32 x.(f) in
  let u_hi := wrap32 (Z.shiftr x.(f) 32) in
  let v_lo := wrap32 y.(f) in
  let v_hi := wrap32 (Z.shiftr y.(f) 32) in
  let p0 := wrap64 (u_lo * v_lo) in
  let p1 := wrap64 (u_lo * v_hi) in
  let p2 := wrap64 (u_hi * v_lo) in
  let p3 := wrap64 (u_hi * v_hi) in
  let p0_hi := Z.shiftr p0 32 in
  let p1_lo := Z.land p1 0xFFFFFFFF in
  let p1_hi := Z.shiftr p1 32 in
  let p2_lo := Z.land p2 0xFFFFFFFF in
  let p2_hi := Z.shiftr p2 32 in
  let Q := wrap64 (wrap64 (p0_hi + p1_lo) + p2_lo) in
  let Q := wrap64 (Q + wrap64 (Z.shiftl 1 (63 - 32))) in
  let h := wrap64 (wrap64 (wrap64 (p3 + p2_hi) + p1_hi) + Z.shiftr Q 32) in
  mkDiyFp h (x.(e) + y.(e) + 64).

(** The branch compiled by GCC and Clang on 64-bit targets is the one the rest
    of the development uses; [Multiply_strategies] shows the choice is
    immaterial. *)
Definition Multiply : DiyFp -> DiyFp -> DiyFp := Multiply_uint128.

(** The function [Multiply] is specified to compute: the 128-bit product
    rounded to its upper 64 bits, ties up. *)
Definition Multiply_spec (x y : DiyFp) : DiyFp :=
  mkDiyFp ((x.(f) * y.(f) + 2 ^ 63) / 2 ^ 64) (x.(e) + y.(e) + 64).

(** [__builtin_clzll] on a nonzero 64-bit value. *)
Definition clzll (x : Z) : Z := 63 - Z.log2 x.

(** [Normalize], [__GNUC__] branch, lines 195-215. *)
Definition Normalize (x : DiyFp) : result DiyFp :=
  check (negb (x.(f) =? 0)) as "x.f != 0" ;;
  let lz := clzll x.(f) in
  Ok (mkDiyFp (wrap64 (Z.shiftl x.(f) lz)) (x.(e) - lz)).

(** [Normalize], fallback branch (lines 219-223): one shift per iteration. *)
Fixpoint Normalize_loop (fuel : nat) (x : DiyFp) : result DiyFp :=
  match fuel with
  | O => Fail OutOfFuel
  | S fuel' =>
      if Z.shiftr x.(f) 63 =? 0
      then Normalize_loop fuel' (mkDiyFp (wrap64 (Z.shiftl x.(f) 1)) (x.(e) - 1))
      else Ok x
  end.

(** [NormalizeTo], lines 230-238. *)
Definition NormalizeTo (x : DiyFp) (e' : Z) : result DiyFp :=
  let delta := x.(e) - e' in
  check (delta >=? 0) as "delta >= 0" ;;
  check (Z.shiftr (wrap64 (Z.shiftl x.(f) delta)) delta =? x.(f))
    as "((x.f << delta) >> delta) == x.f" ;;
  Ok (mkDiyFp (wrap64 (Z.shiftl x.(f) delta)) e').

(** ** IEEE-754 values

    A value of the template parameter [Fp] is its bit pattern
    ([ReinterpretBits] is the identity on it); the format gives
    [std::numeric_limits<Fp>]. *)

Record FpFormat : Type := mkFormat {
  digits : Z;          (* p, includes the hidden bit *)
  max_exponent : Z;
  max_digits10 : Z;
  bits_width : Z
}.

Definition binary32 : FpFormat := mkFormat 24 128 9 32.
Definition binary64 : FpFormat := mkFormat 53 1024 17 64.

Definition is_iec559_single_or_double (fmt : FpFormat) : Prop :=
  fmt = binary32 \/ fmt = binary64.

Section Classification.
Variable fmt : FpFormat.

Definition exponent_field (bits : Z) : Z :=
  Z.shiftr bits (digits fmt - 1) mod 2 ^ (bits_width fmt - digits fmt).
Definition fraction_field (bits : Z) : Z :=
  bits mod 2 ^ (digits fmt - 1).
Definition exponent_all_ones : Z := 2 ^ (bits_width fmt - digits fmt) - 1.

(** [std::signbit], [std::isnan], [std::isinf], [std::isfinite]. *)
Definition signbit (bits : Z) : bool := Z.testbit bits (bits_width fmt - 1).
Definition isnan (bits : Z) : bool :=
  (exponent_field bits =? exponent_all_ones) && negb (fraction_field bits =? 0).
Definition isinf (bits : Z) : bool :=
  (exponent_field bits =? exponent_all_ones) && (fraction_field bits =? 0).
Definition isfinite (bits : Z) : bool :=
  negb (exponent_field bits =? exponent_all_ones).

(** Unary minus flips the sign bit. *)
Definition Fp_neg (bits : Z) : Z := Z.lxor bits (2 ^ (bits_width fmt - 1)).

(** [value == 0] and [value > 0]. *)
Definition Fp_is_zero (bits : Z) : bool := bits mod 2 ^ (bits_width fmt - 1) =? 0.
Definition Fp_is_positive (bits : Z) : bool :=
  negb (signbit bits) && negb (isnan bits) && negb (Fp_is_zero bits).

(** Bit patterns of the format. *)
Definition is_bits (bits : Z) : Prop := 0 <= bits < 2 ^ bits_width fmt.

(** The inputs of [ComputeBoundaries], [Grisu2] and [DtoaPositive]. *)
Definition finite_positive (bits : Z) : Prop :=
  is_bits bits /\ isfinite bits = true /\ Fp_is_positive bits = true.
End Classification.

(** ** Boundaries *)

Record Boundaries : Type := mkBoundaries {
  v : DiyFp;
  m_minus : DiyFp;
  m_plus : DiyFp
}.

Section ComputeBoundaries.
Variable fmt : FpFormat.

Definition kBias : Z := max_exponent fmt - 1 + (digits fmt - 1).
Definition kHiddenBit : Z := wrap64 (Z.shiftl 1 (digits fmt - 1)).

(** The decoded [v], lines 273-281. *)
Definition decode (bits : Z) : DiyFp :=
  let E := Z.shiftr bits (digits fmt - 1) in
  let F := Z.land bits (kHiddenBit - 1) in
  let is_denormal := E =? 0 in
  if is_denormal
  then mkDiyFp F (1 - kBias)
  else mkDiyFp (wrap64 (F + kHiddenBit)) (E - kBias).

Definition lower_boundary_is_closer (bits : Z) : bool :=
  let E := Z.shiftr bits (digits fmt - 1) in
  let F := Z.land bits (kHiddenBit - 1) in
  (F =? 0) && (E >? 1).

(** [ComputeBoundaries], lines 250-323. *)
Definition ComputeBoundaries (value : Z) : result Boundaries :=
  check (isfinite fmt value) as "std::isfinite(value)" ;;
  check (Fp_is_positive fmt value) as "value > 0" ;;
  let v := decode value in
  let m_plus := mkDiyFp (wrap64 (2 * v.(f) + 1)) (v.(e) - 1) in
  let m_minus :=
    if lower_boundary_is_closer value
    then mkDiyFp (wrap64 (4 * v.(f) - 1)) (v.(e) - 2)
    else mkDiyFp (wrap64 (2 * v.(f) - 1)) (v.(e) - 1) in
  w <- Normalize v ;;
  w_plus <- NormalizeTo m_plus w.(e) ;;
  w_minus <- NormalizeTo m_minus w_plus.(e) ;;
  Ok (mkBoundaries w w_minus w_plus).
End ComputeBoundaries.

(** ** Cached powers of ten *)

Definition kAlpha : Z := -60.
Definition kGamma : Z := -32.

(** [struct CachedPower { uint64_t f; int e; int k; }], [c = f * 2^e ~= 10^k]. *)
Module CachedPower.
Record t : Type := mk { f : Z; e : Z; k : Z }.
End CachedPower.

Definition kCachedPowersSize : Z := 79.
Definition kCachedPowersMinDecExp : Z := -300.
Definition kCachedPowersMaxDecExp : Z := 324.
Definition kCachedPowersDecExpStep : Z := 8.

Definition kCachedPowers : list CachedPower.t := [
    CachedPower.mk 0xAB70FE17C79AC6CA (-1060) (-300);
    CachedPower.mk 0xFF77B1FCBEBCDC4F (-1034) (-292);
    CachedPower.mk 0xBE5691EF416BD60C (-1007) (-284);
    CachedPower.mk 0x8DD01FAD907FFC3C (-980) (-276);
    CachedPower.mk 0xD3515C2831559A83 (-954) (-268);
    CachedPower.mk 0x9D71AC8FADA6C9B5 (-927) (-260);
    CachedPower.mk 0xEA9C227723EE8BCB (-901) (-252);
    CachedPower.mk 0xAECC49914078536D (-874) (-244);
    CachedPower.mk 0x823C12795DB6CE57 (-847) (-236);
    CachedPower.mk 0xC21094364DFB5637 (-821) (-228);
    CachedPower.mk 0x9096EA6F3848984F (-794) (-220);
    CachedPower.mk 0xD77485CB25823AC7 (-768) (-212);
    CachedPower.mk 0xA086CFCD97BF97F4 (-741) (-204);
    CachedPower.mk 0xEF340A98172AACE5 (-715) (-196);
    CachedPower.mk 0xB23867FB2A35B28E (-688) (-188);
    CachedPower.mk 0x84C8D4DFD2C63F3B (-661) (-180);
    CachedPower.mk 0xC5DD44271AD3CDBA (-635) (-172);
    CachedPower.mk 0x936B9FCEBB25C996 (-608) (-164);
    CachedPower.mk 0xDBAC6C247D62A584 (-582) (-156);
    CachedPower.mk 0xA3AB66580D5FDAF6 (-555) (-148);
    CachedPower.mk 0xF3E2F893DEC3F126 (-529) (-140);
    CachedPower.mk 0xB5B5ADA8AAFF80B8 (-502) (-132);
    CachedPower.mk 0x87625F056C7C4A8B (-475) (-124);
    CachedPower.mk 0xC9BCFF6034C13053 (-449) (-116);
    CachedPower.mk 0x964E858C91BA2655 (-422) (-108);
    CachedPower.mk 0xDFF9772470297EBD (-396) (-100);
    CachedPower.mk 0xA6DFBD9FB8E5B88F (-369) (-92);
    CachedPower.mk 0xF8A95FCF88747D94 (-343) (-84);
    CachedPower.mk 0xB94470938FA89BCF (-316) (-76);
    CachedPower.mk 0x8A08F0F8BF0F156B (-289) (-68);
    CachedPower.mk 0xCDB02555653131B6 (-263) (-60);
    CachedPower.mk 0x993FE2C6D07B7FAC (-236) (-52);
    CachedPower.mk 0xE45C10C42A2B3B06 (-210) (-44);
    CachedPower.mk 0xAA242499697392D3 (-183) (-36);
    CachedPower.mk 0xFD87B5F28300CA0E (-157) (-28);
    CachedPower.mk 0xBCE5086492111AEB (-130) (-20);
    CachedPower.mk 0x8CBCCC096F5088CC (-103) (-12);
    CachedPower.mk 0xD1B71758E219652C (-77) (-4);
    CachedPower.mk 0x9C40000000000000 (-50) 4;
    CachedPower.mk 0xE8D4A51000000000 (-24) 12;
    CachedPower.mk 0xAD78EBC5AC620000 3 20;
    CachedPower.mk 0x813F3978F8940984 30 28;
    CachedPower.mk 0xC097CE7BC90715B3 56 36;
    CachedPower.mk 0x8F7E32CE7BEA5C70 83 44;
    CachedPower.mk 0xD5D238A4ABE98068 109 52;
    CachedPower.mk 0x9F4F2726179A2245 136 60;
    CachedPower.mk 0xED63A231D4C4FB27 162 68;
    CachedPower.mk 0xB0DE65388CC8ADA8 189 76;
    CachedPower.mk 0x83C7088E1AAB65DB 216 84;
    CachedPower.mk 0xC45D1DF942711D9A 242 92;
    CachedPower.mk 0x924D692CA61BE758 269 100;
    CachedPower.mk 0xDA01EE641A708DEA 295 108;
    CachedPower.mk 0xA26DA3999AEF774A 322 116;
    CachedPower.mk 0xF209787BB47D6B85 348 124;
    CachedPower.mk 0xB454E4A179DD1877 375 132;
    CachedPower.mk 0x865B86925B9BC5C2 402 140;
    CachedPower.mk 0xC83553C5C8965D3D 428 148;
    CachedPower.mk 0x952AB45CFA97A0B3 455 156;
    CachedPower.mk 0xDE469FBD99A05FE3 481 164;
    CachedPower.mk 0xA59BC234DB398C25 508 172;
    CachedPower.mk 0xF6C69A72A3989F5C 534 180;
    CachedPower.mk 0xB7DCBF5354E9BECE 561 188;
    CachedPower.mk 0x88FCF317F22241E2 588 196;
    CachedPower.mk 0xCC20CE9BD35C78A5 614 204;
    CachedPower.mk 0x98165AF37B2153DF 641 212;
    CachedPower.mk 0xE2A0B5DC971F303A 667 220;
    CachedPower.mk 0xA8D9D1535CE3B396 694 228;
    CachedPower.mk 0xFB9B7CD9A4A7443C 720 236;
    CachedPower.mk 0xBB764C4CA7A44410 747 244;
    CachedPower.mk 0x8BAB8EEFB6409C1A 774 252;
    CachedPower.mk 0xD01FEF10A657842C 800 260;
    CachedPower.mk 0x9B10A4E5E9913129 827 268;
    CachedPower.mk 0xE7109BFBA19C0C9D 853 276;
    CachedPower.mk 0xAC2820D9623BF429 880 284;
    CachedPower.mk 0x80444B5E7AA7CF85 907 292;
    CachedPower.mk 0xBF21E44003ACDD2D 933 300;
    CachedPower.mk 0x8E679C2F5E44FF8F 960 308;
    CachedPower.mk 0xD433179D9C8CB841 986 316;
    CachedPower.mk 0x9E19DB92B4E31BA9 1013 324
  ].

(** [GetCachedPower], lines 441-536. *)
Definition GetCachedPower (index : Z) : result CachedPower.t :=
  check (index >=? 0) as "index >= 0" ;;
  check (index <? kCachedPowersSize) as "index < kCachedPowersSize" ;;
  match nth_error kCachedPowers (Z.to_nat index) with
  | Some c => Ok c
  | None => Fail OutOfBounds
  end.

(** The decimal exponent [k] and the table index of lines 555-558.  The
    division of two [int]s truncates toward zero ([Z.quot]); [(f > 0)] is the
    [bool] promoted to [int]. *)
Definition cached_power_k (e : Z) : Z :=
  let f := kAlpha - e - 1 in
  Z.quot (f * 78913) (Z.shiftl 1 18) + (if f >? 0 then 1 else 0).

Definition cached_power_index (e : Z) : Z :=
  let k := cached_power_k e in
  Z.quot (- kCachedPowersMinDecExp + k + (kCachedPowersDecExpStep - 1))
         kCachedPowersDecExpStep.

(** [GetCachedPowerForBinaryExponent], lines 544-568. *)
Definition GetCachedPowerForBinaryExponent (e : Z) : result CachedPower.t :=
  check (e >=? -1500) as "e >= -1500" ;;
  check (e <=? 1500) as "e <= 1500" ;;
  let index := cached_power_index e in
  check (index >=? 0) as "index >= 0" ;;
  check (index <? kCachedPowersSize) as "index < kCachedPowersSize" ;;
  cached <- GetCachedPower index ;;
  check (kAlpha <=? CachedPower.e cached + e + 64) as "kAlpha <= cached.e + e + 64" ;;
  check (kGamma >=? CachedPower.e cached + e + 64) as "kGamma >= cached.e + e + 64" ;;
  Ok cached.

(** ** The character buffer *)

Definition char_of_Z (z : Z) : ascii := ascii_of_N (Z.to_N (z mod 256)).
Definition Z_of_char (c : ascii) : Z := Z.of_N (N_of_ascii c).

Definition buf_len (buffer : list ascii) : Z := Z.of_nat (length buffer).

(** [n] bytes starting at [buffer + i]. *)
Definition buf_load (buffer : list ascii) (i n : Z) : result (list ascii) :=
  if (0 <=? i) && (0 <=? n) && (i + n <=? buf_len buffer)
  then Ok (firstn (Z.to_nat n) (skipn (Z.to_nat i) buffer))
  else Fail OutOfBounds.

(** Overwrite the bytes starting at [buffer + i] by [cs]. *)
Definition buf_store (buffer : list ascii) (i : Z) (cs : list ascii)
  : result (list ascii) :=
  if (0 <=? i) && (i + buf_len cs <=? buf_len buffer)
  then Ok (firstn (Z.to_nat i) buffer ++ cs
           ++ skipn (Z.to_nat i + length cs) buffer)
  else Fail OutOfBounds.

(** [buffer[i]] read and written. *)
Definition buf_read (buffer : list ascii) (i : Z) : result ascii :=
  cs <- buf_load buffer i 1 ;;
  match cs with
  | c :: _ => Ok c
  | [] => Fail OutOfBounds
  end.

Definition buf_write (buffer : list ascii) (i : Z) (c : ascii)
  : result (list ascii) :=
  buf_store buffer i [c].

(** [std::memset(buffer + i, c, n)] and
    [std::memmove(buffer + dst, buffer + src, n)]. *)
Definition buf_memset (buffer : list ascii) (i : Z) (c : ascii) (n : Z)
  : result (list ascii) :=
  buf_store buffer i (repeat c (Z.to_nat n)).

Definition buf_memmove (buffer : list ascii) (dst src n : Z)
  : result (list ascii) :=
  cs <- buf_load buffer src n ;;
  buf_store buffer dst cs.

(** ** Digit emission *)

Definition kDigits100 : list ascii := list_ascii_of_string (
    "00010203040506070809" ++
    "10111213141516171819" ++
    "20212223242526272829" ++
    "30313233343536373839" ++
    "40414243444546474849" ++
    "50515253545556575859" ++
    "60616263646566676869" ++
    "70717273747576777879" ++
    "80818283848586878889" ++
    "90919293949596979899")%string.

(** [Utoa100(buf, digits)], lines 64-81; [pos] is [buf - buffer], the result
    carries [buf + 2]. *)
Definition Utoa100 (buffer : list ascii) (pos : Z) (digits : Z)
  : result (list ascii * Z) :=
  check (digits <? 100) as "digits < 100" ;;
  pair <- buf_load kDigits100 (2 * digits) 2 ;;
  buffer <- buf_store buffer pos pair ;;
  Ok (buffer, pos + 2).

(** [GenerateIntegralDigits], lines 570-626.  Each label of the source is a
    function; falling through a label is a call of the next one. *)
Definition L_1_digit (buffer : list ascii) (pos n : Z) : result (list ascii * Z) :=
  buffer <- buf_write buffer pos (char_of_Z (48 + n)) ;;
  Ok (buffer, pos + 1).

Definition L_3_digits (buffer : list ascii) (pos n : Z) : result (list ascii * Z) :=
  let q := Z.quot n 10 in
  let n := Z.rem n 10 in
  '(buffer, pos) <- Utoa100 buffer pos q ;;
  L_1_digit buffer pos n.

Definition L_5_digits (buffer : list ascii) (pos n : Z) : result (list ascii * Z) :=
  let q := Z.quot n 1000 in
  let n := Z.rem n 1000 in
  '(buffer, pos) <- Utoa100 buffer pos q ;;
  L_3_digits buffer pos n.

Definition L_7_digits (buffer : list ascii) (pos n : Z) : result (list ascii * Z) :=
  let q := Z.quot n 100000 in
  let n := Z.rem n 100000 in
  '(buffer, pos) <- Utoa100 buffer pos q ;;
  L_5_digits buffer pos n.

Definition L_9_digits (buffer : list ascii) (pos n : Z) : result (list ascii * Z) :=
  let q := Z.quot n 10000000 in
  let n := Z.rem n 10000000 in
  '(buffer, pos) <- Utoa100 buffer pos q ;;
  L_7_digits buffer pos n.

Definition L_2_digits (buffer : list ascii) (pos n : Z) : result (list ascii * Z) :=
  Utoa100 buffer pos n.

Definition L_4_digits (buffer : list ascii) (pos n : Z) : result (list ascii * Z) :=
  let q := Z.quot n 100 in
  let n := Z.rem n 100 in
  '(buffer, pos) <- Utoa100 buffer pos q ;;
  L_2_digits buffer pos n.

Definition L_6_digits (buffer : list ascii) (pos n : Z) : result (list ascii * Z) :=
  let q := Z.quot n 10000 in
  let n := Z.rem n 10000 in
  '(buffer, pos) <- Utoa100 buffer pos q ;;
  L_4_digits buffer pos n.

Definition L_8_digits (buffer : list ascii) (pos n : Z) : result (list ascii * Z) :=
  let q := Z.quot n 1000000 in
  let n := Z.rem n 1000000 in
  '(buffer, pos) <- Utoa100 buffer pos q ;;
  L_6_digits buffer pos n.

Definition GenerateIntegralDigits (buffer : list ascii) (n : Z)
  : result (list ascii * Z) :=
  check (n <=? 798336123) as "n <= 798336123" ;;
  if n >=? 100000000 then L_9_digits buffer 0 n
  else if n >=? 10000000 then L_8_digits buffer 0 n
  else if n >=? 1000000 then L_7_digits buffer 0 n
  else if n >=? 100000 then L_6_digits buffer 0 n
  else if n >=? 10000 then L_5_digits buffer 0 n
  else if n >=? 1000 then L_4_digits buffer 0 n
  else if n >=? 100 then L_3_digits buffer 0 n
  else if n >=? 10 then L_2_digits buffer 0 n
  else L_1_digit buffer 0 n.

(** ** Rounding the last digit *)

(** The loop of [Grisu2Round], lines 677-684, on the locals it changes. *)
Definition Grisu2Round_cond (distance delta ten_kappa rest : Z) : bool :=
  (rest <? distance)
  && (wrap64 (delta - rest) >=? ten_kappa)
  && ((wrap64 (rest + ten_kappa) <=? distance)
      || (wrap64 (wrap64 (rest + ten_kappa) - distance) <? wrap64 (distance - rest))).

Fixpoint Grisu2Round_loop (fuel : nat) (distance delta ten_kappa : Z)
    (digit rest : Z) : result (Z * Z) :=
  if Grisu2Round_cond distance delta ten_kappa rest
  then
    match fuel with
    | O => Fail OutOfFuel
    | S fuel' =>
        check (negb (digit =? 0)) as "digit != 0" ;;
        Grisu2Round_loop fuel' distance delta ten_kappa
          (digit - 1) (wrap64 (rest + ten_kappa))
    end
  else Ok (digit, rest).

(** [Grisu2Round], lines 636-687. *)
Definition Grisu2Round (fuel : nat) (buffer : list ascii) (length : Z)
    (distance delta rest ten_kappa : Z) : result (list ascii) :=
  check (length >=? 1) as "length >= 1" ;;
  check (distance <=? delta) as "distance <= delta" ;;
  check (rest <=? delta) as "rest <= delta" ;;
  check (ten_kappa >? 0) as "ten_kappa > 0" ;;
  c <- buf_read buffer (length - 1) ;;
  let digit := Z_of_char c - 48 in
  '(digit, _) <- Grisu2Round_loop fuel distance delta ten_kappa digit rest ;;
  buf_write buffer (length - 1) (char_of_Z (48 + digit)).

(** ** Digit generation *)

(** The locals of [Grisu2DigitGen] that are live at the call of
    [Grisu2Round] (line 916). *)
Record DigitGenLocals : Type := mkLocals {
  dg_buffer : list ascii;
  dg_length : Z;
  dg_exponent : Z;
  dg_distance : Z;
  dg_delta : Z;
  dg_rest : Z;
  dg_ten_kappa : Z
}.

(** The loop over the fractional digits, lines 801-858. *)
Fixpoint DigitGen_fraction_loop (fuel : nat) (one : DiyFp) (buffer : list ascii)
    (length m p2 delta distance : Z) : result DigitGenLocals :=
  match fuel with
  | O => Fail OutOfFuel
  | S fuel' =>
      check (length <? 17) as "length < 17" ;;
      check (p2 <=? UINT64_MAX / 10) as "p2 <= UINT64_MAX / 10" ;;
      let p2 := wrap64 (p2 * 10) in
      let d := Z.shiftr p2 (- one.(e)) in
      let r := Z.land p2 (wrap64 (one.(f) - 1)) in
      check (d <=? 9) as "d <= 9" ;;
      buffer <- buf_write buffer length (char_of_Z (wrap64 (48 + d))) ;;
      let length := length + 1 in
      let p2 := r in
      let m := m + 1 in
      let delta := wrap64 (delta * 10) in
      let distance := wrap64 (distance * 10) in
      if p2 <=? delta
      then Ok (mkLocals buffer length (- m) distance delta p2 one.(f))
      else DigitGen_fraction_loop fuel' one buffer length m p2 delta distance
  end.

(** The loop that drops integral digits, lines 892-910. *)
Fixpoint DigitGen_integral_loop (fuel : nat) (buffer : list ascii)
    (k n distance delta rest ten_kappa : Z) : result DigitGenLocals :=
  match fuel with
  | O => Fail OutOfFuel
  | S fuel' =>
      check (n <=? k - 1) as "n <= k - 1" ;;
      check (rest <=? delta) as "rest <= delta" ;;
      c <- buf_read buffer (k - 1 - n) ;;
      let dn := wrap32 (Z_of_char c - 48) in
      let rn := wrap64 (wrap64 (dn * ten_kappa) + rest) in
      if rn >? delta
      then Ok (mkLocals buffer (k - n) n distance delta rest ten_kappa)
      else DigitGen_integral_loop fuel' buffer k (n + 1) distance delta rn
             (wrap64 (ten_kappa * 10))
  end.

(** [Grisu2DigitGen] up to, and without, the call of [Grisu2Round]:
    lines 691-911. *)
Definition Grisu2DigitGen_digits (fuel : nat) (buffer : list ascii)
    (L w H : DiyFp) : result DigitGenLocals :=
  check (w.(e) >=? kAlpha) as "w.e >= kAlpha" ;;
  check (w.(e) <=? kGamma) as "w.e <= kGamma" ;;
  check (w.(e) =? L.(e)) as "w.e == L.e" ;;
  check (w.(e) =? H.(e)) as "w.e == H.e" ;;
  dw <- Subtract H w ;;
  let distance := dw.(f) in
  dl <- Subtract H L ;;
  let delta := dl.(f) in
  let one := mkDiyFp (wrap64 (Z.shiftl 1 (- H.(e)))) H.(e) in
  let p1 := wrap32 (Z.shiftr H.(f) (- one.(e))) in
  let p2 := Z.land H.(f) (wrap64 (one.(f) - 1)) in
  check (p1 >=? 4) as "p1 >= 4" ;;
  check (p1 <=? 798336123) as "p1 <= 798336123" ;;
  '(buffer, endp) <- GenerateIntegralDigits buffer p1 ;;
  let length := endp - 0 in
  if p2 >? delta
  then DigitGen_fraction_loop fuel one buffer length 0 p2 delta distance
  else
    check (wrap64 (wrap64 (Z.shiftl p1 (- one.(e))) + p2) >? delta)
      as "(uint64_t{p1} << -one.e) + p2 > delta" ;;
    let k := length in
    check (k >=? 0) as "k >= 0" ;;
    check (k <=? 9) as "k <= 9" ;;
    DigitGen_integral_loop fuel buffer k 0 distance delta p2 one.(f).

(** [Grisu2DigitGen], lines 691-917; [length] and [exponent] are returned. *)
Definition Grisu2DigitGen (fuel : nat) (buffer : list ascii) (L w H : DiyFp)
  : result (list ascii * Z * Z) :=
  s <- Grisu2DigitGen_digits fuel buffer L w H ;;
  buffer <- Grisu2Round fuel s.(dg_buffer) s.(dg_length) s.(dg_distance)
              s.(dg_delta) s.(dg_rest) s.(dg_ten_kappa) ;;
  Ok (buffer, s.(dg_length), s.(dg_exponent)).

(** [Grisu2(buffer, length, exponent, m_minus, v, m_plus)], lines 922-985. *)
Definition Grisu2 (fuel : nat) (buffer : list ascii) (m_minus v m_plus : DiyFp)
  : result (list ascii * Z * Z) :=
  check (v.(e) =? m_minus.(e)) as "v.e == m_minus.e" ;;
  check (v.(e) =? m_plus.(e)) as "v.e == m_plus.e" ;;
  cached <- GetCachedPowerForBinaryExponent v.(e) ;;
  let c_minus_k := mkDiyFp (CachedPower.f cached) (CachedPower.e cached) in
  let w := Multiply v c_minus_k in
  let w_minus := Multiply m_minus c_minus_k in
  let w_plus := Multiply m_plus c_minus_k in
  check (w.(e) >=? kAlpha) as "w.e >= kAlpha" ;;
  check (w.(e) <=? kGamma) as "w.e <= kGamma" ;;
  check (w_plus.(f) >=? Z.shiftl 1 (64 - 2)) as "w_plus.f >= (uint64_t{1} << (64 - 2))" ;;
  let L := mkDiyFp (wrap64 (w_minus.(f) + 1)) w_minus.(e) in
  let H := mkDiyFp (wrap64 (w_plus.(f) - 1)) w_plus.(e) in
  '(buffer, length, exponent) <- Grisu2DigitGen fuel buffer L w H ;;
  Ok (buffer, length, exponent + - CachedPower.k cached).

(** [Grisu2(buffer, length, exponent, value)], lines 990-1014. *)
Definition Grisu2_Fp (fuel : nat) (fmt : FpFormat) (buffer : list ascii)
    (value : Z) : result (list ascii * Z * Z) :=
  check (isfinite fmt value) as "std::isfinite(value)" ;;
  check (Fp_is_positive fmt value) as "value > 0" ;;
  boundaries <- ComputeBoundaries fmt value ;;
  Grisu2 fuel buffer boundaries.(m_minus) boundaries.(v) boundaries.(m_plus).

(** ** Formatting *)

Definition kDtoaPositiveMaxLength : Z := 24.

(** [Itoa1000], lines 1026-1059; [pos] is the offset of [buffer]. *)
Definition Itoa1000 (buffer : list ascii) (pos : Z) (value : Z)
  : result (list ascii * Z) :=
  check (value >? -1000) as "value > -1000" ;;
  check (value <? 1000) as "value < 1000" ;;
  '(buffer, pos, value) <-
    (if value <? 0
     then buffer <- buf_write buffer pos "-"%char ;; Ok (buffer, pos + 1, - value)
     else buffer <- buf_write buffer pos "+"%char ;; Ok (buffer, pos + 1, value)) ;;
  let k := wrap32 value in
  if k <? 10 then
    buffer <- buf_write buffer pos (char_of_Z (48 + k)) ;;
    Ok (buffer, pos + 1)
  else if k <? 100 then
    Utoa100 buffer pos k
  else
    let q := k / 100 in
    let r := k mod 100 in
    buffer <- buf_write buffer pos (char_of_Z (48 + q)) ;;
    Utoa100 buffer (pos + 1) r.

(** [FormatFixed], lines 1061-1100.  The result carries the returned pointer
    as an offset from [buffer]. *)
Definition FormatFixed (buffer : list ascii) (length decimal_point : Z)
    (force_trailing_dot_zero : bool) : result (list ascii * Z) :=
  check (length >=? 1) as "length >= 1" ;;
  if length <=? decimal_point then
    buffer <- buf_memset buffer length "0"%char (decimal_point - length) ;;
    let pos := decimal_point in
    if force_trailing_dot_zero then
      buffer <- buf_write buffer pos "."%char ;;
      buffer <- buf_write buffer (pos + 1) "0"%char ;;
      Ok (buffer, pos + 2)
    else Ok (buffer, pos)
  else if 0 <? decimal_point then
    buffer <- buf_memmove buffer (decimal_point + 1) decimal_point
                (length - decimal_point) ;;
    buffer <- buf_write buffer decimal_point "."%char ;;
    Ok (buffer, length + 1)
  else
    buffer <- buf_memmove buffer (2 + - decimal_point) 0 length ;;
    buffer <- buf_write buffer 0 "0"%char ;;
    buffer <- buf_write buffer 1 "."%char ;;
    buffer <- buf_memset buffer 2 "0"%char (- decimal_point) ;;
    Ok (buffer, 2 + (- decimal_point) + length).

(** [FormatExponential], lines 1102-1128. *)
Definition FormatExponential (buffer : list ascii) (length decimal_point : Z)
  : result (list ascii * Z) :=
  check (length >=? 1) as "length >= 1" ;;
  '(buffer, pos) <-
    (if length =? 1 then Ok (buffer, 1)
     else
       buffer <- buf_memmove buffer 2 1 (length - 1) ;;
       buffer <- buf_write buffer 1 "."%char ;;
       Ok (buffer, 1 + length)) ;;
  buffer <- buf_write buffer pos "e"%char ;;
  let exponent := decimal_point - 1 in
  Itoa1000 buffer (pos + 1) exponent.

(** [StrCopy(next, last, source)], lines 1130-1142; [next] is an offset into
    [buffer] and [last] its end. *)
Definition StrCopy (buffer : list ascii) (next : Z) (source : string)
  : result (list ascii * Z) :=
  let len := Z.of_nat (String.length source) in
  check (next <=? buf_len buffer) as "next <= last" ;;
  check (buf_len buffer - next >=? len) as "static_cast<size_t>(last - next) >= len" ;;
  buffer <- buf_store buffer next (list_ascii_of_string source) ;;
  Ok (buffer, next + len).

Section Dtoa.
Variable fmt : FpFormat.

(** [static_cast<Fp>(uint64_t{1} << digits)]: the bit pattern of [2^p]. *)
Definition kMaxVal : Z :=
  Z.shiftl (digits fmt + (max_exponent fmt - 1)) (digits fmt - 1).
Definition kMinExp : Z := -6.

(** [a <= b] on two finite values that are not negative: the decoded
    significands are compared at the smaller of the two exponents. *)
Definition Fp_le (a b : Z) : bool :=
  let x := decode fmt a in
  let y := decode fmt b in
  let m := Z.min x.(e) y.(e) in
  x.(f) * 2 ^ (x.(e) - m) <=? y.(f) * 2 ^ (y.(e) - m).

(** [DtoaPositive(next, last, value, force_trailing_dot_zero)],
    lines 1150-1201; [buffer] is the range [[next, last)], the result carries
    it with [end - next]. *)
Definition DtoaPositive (fuel : nat) (buffer : list ascii) (value : Z)
    (force_trailing_dot_zero : bool) : result (list ascii * Z) :=
  check (buf_len buffer >=? kDtoaPositiveMaxLength)
    as "last - next >= kDtoaPositiveMaxLength" ;;
  check (isfinite fmt value) as "std::isfinite(value)" ;;
  check (Fp_is_positive fmt value) as "value > 0" ;;
  '(buffer, length, exponent) <- Grisu2_Fp fuel fmt buffer value ;;
  check (length <=? max_digits10 fmt)
    as "length <= std::numeric_limits<Fp>::max_digits10" ;;
  let decimal_point := length + exponent in
  let use_fixed := (kMinExp <? decimal_point) && Fp_le value kMaxVal in
  '(buffer, endp) <-
    (if use_fixed
     then FormatFixed buffer length decimal_point force_trailing_dot_zero
     else FormatExponential buffer length decimal_point) ;;
  check (endp <=? kDtoaPositiveMaxLength)
    as "end - next <= kDtoaPositiveMaxLength" ;;
  Ok (buffer, endp).

(** [Dtoa(next, last, value, force_trailing_dot_zero, nan_string,
    inf_string)], lines 1210-1244; [buffer] is the range [[next, last)],
    the result carries it with the returned pointer as an offset. *)
Definition Dtoa (fuel : nat) (buffer : list ascii) (value : Z)
    (force_trailing_dot_zero : bool) (nan_string inf_string : string)
  : result (list ascii * Z) :=
  if isnan fmt value then StrCopy buffer 0 nan_string
  else
    '(buffer, next, value) <-
      (if signbit fmt value
       then buffer <- buf_write buffer 0 "-"%char ;;
            Ok (buffer, 1, Fp_neg fmt value)
       else Ok (buffer, 0, value)) ;;
    if isinf fmt value then StrCopy buffer next inf_string
    else if Fp_is_zero fmt value then
      buffer <- buf_write buffer next "0"%char ;;
      let next := next + 1 in
      if force_trailing_dot_zero then
        buffer <- buf_write buffer next "."%char ;;
        buffer <- buf_write buffer (next + 1) "0"%char ;;
        Ok (buffer, next + 2)
      else Ok (buffer, next)
    else
      '(tail, endp) <- DtoaPositive fuel (skipn (Z.to_nat next) buffer) value
                         force_trailing_dot_zero ;;
      Ok (firstn (Z.to_nat next) buffer ++ tail, next + endp).

(** The bytes written by a call: the range from [next] to the returned
    pointer. *)
Definition output (r : result (list ascii * Z)) : result string :=
  '(buffer, endp) <- r ;;
  Ok (string_of_list_ascii (firstn (Z.to_nat endp) buffer)).
End Dtoa.

(** Default arguments of [Dtoa]. *)
Definition Dtoa_default (fmt : FpFormat) (fuel : nat) (buffer : list ascii)
    (value : Z) : result (list ascii * Z) :=
  Dtoa fmt fuel buffer value false "NaN" "Infinity".

Definition blank (n : nat) : list ascii := repeat " "%char n.


(** * Specifications *)

(** ** Real values *)

(** The real number a [DiyFp] stands for. *)
Definition DiyFp_value (x : DiyFp) : R := (IZR x.(f) * powerRZ 2 x.(e))%R.

(** The value of a finite IEEE-754 bit pattern that is not negative:
    [0.F * 2^(1 - bias)] for a subnormal, [1.F * 2^(E - bias)] otherwise,
    with [bias = max_exponent - 1]. *)
Definition Fp_value (fmt : FpFormat) (bits : Z) : R :=
  let E := exponent_field fmt bits in
  let F := fraction_field fmt bits in
  let p := digits fmt in
  if E =? 0
  then (IZR F * powerRZ 2 (1 - (max_exponent fmt - 1) - (p - 1)))%R
  else (IZR (2 ^ (p - 1) + F) * powerRZ 2 (E - (max_exponent fmt - 1) - (p - 1)))%R.

(** ** The index formula as the specification words it *)

(** [k := floor (f * 78913 / 2^18) + (1 if f > 0 else 0)] with a floor. *)
Definition cached_power_k_floor (e : Z) : Z :=
  let f := kAlpha - e - 1 in
  (f * 78913) / 2 ^ 18 + (if f >? 0 then 1 else 0).

(** The ceiling of [a / b] for a positive [b]. *)
Definition Zceil_div (a b : Z) : Z := - ((- a) / b).

(** ** Finite ranges of integers, for exhaustive checks *)

Definition Z_range (lo : Z) (n : nat) : list Z :=
  map (fun i => lo + Z.of_nat i) (seq 0 n).

Definition CachedPower_eqb (c c' : CachedPower.t) : bool :=
  (CachedPower.f c =? CachedPower.f c')
  && (CachedPower.e c =? CachedPower.e c')
  && (CachedPower.k c =? CachedPower.k c').

(** What [GetCachedPowerForBinaryExponent] has to deliver at [e]. *)
Definition cached_power_ok (e : Z) : bool :=
  match GetCachedPowerForBinaryExponent e,
        nth_error kCachedPowers (Z.to_nat (cached_power_index e)) with
  | Ok c, Some c' =>
      CachedPower_eqb c c'
      && (0 <=? cached_power_index e)
      && (cached_power_index e <? kCachedPowersSize)
      && (kAlpha <=? CachedPower.e c + e + 64)
      && (CachedPower.e c + e + 64 <=? kGamma)
      && (cached_power_k e =? Zceil_div ((kAlpha - e - 1) * 78913) (2 ^ 18))
  | _, _ => false
  end.

Definition bits_bound (fmt : FpFormat) : Z :=
  exponent_all_ones fmt * 2 ^ (digits fmt - 1).

(** What [ComputeBoundaries] returns, in closed form. *)
Definition boundaries_of (fmt : FpFormat) (bits : Z) : Boundaries :=
  let v := decode fmt bits in
  let lz := clzll v.(f) in
  let w := v.(f) * 2 ^ lz in
  let below := if lower_boundary_is_closer fmt bits then 2 ^ (lz - 2) else 2 ^ (lz - 1) in
  mkBoundaries (mkDiyFp w (v.(e) - lz))
               (mkDiyFp (w - below) (v.(e) - lz))
               (mkDiyFp (w + 2 ^ (lz - 1)) (v.(e) - lz)).

Definition digit_char (d : Z) : ascii := char_of_Z (48 + d).
Definition digit_of (c : ascii) : Z := Z_of_char c - 48.
Definition is_digit (c : ascii) : bool := (0 <=? digit_of c) && (digit_of c <=? 9).

(** The number written in decimal by a list of digit characters. *)
Definition digits_value (cs : list ascii) : Z :=
  fold_left (fun acc c => acc * 10 + digit_of c) cs 0.

Definition all_digits (cs : list ascii) : Prop := Forall (fun c => is_digit c = true) cs.

(** [F] writes the [k] decimal digits of its argument (below [bound]) at
    its position and returns the position after them. *)
Definition emits (F : list ascii -> Z -> Z -> result (list ascii * Z))
    (k : nat) (bound : Z) : Prop :=
  forall pre old post n,
    length old = k -> 0 <= n < bound ->
    exists ds,
      F (pre ++ old ++ post) (buf_len pre) n
      = Ok (pre ++ ds ++ post, buf_len pre + Z.of_nat k)
      /\ length ds = k /\ all_digits ds /\ digits_value ds = n.

(** The entry of [kDigits100] for [q] holds the two digits of [q]. *)
Definition kDigits100_ok (q : Z) : bool :=
  match buf_load kDigits100 (2 * q) 2 with
  | Ok [a; b] => Ascii.eqb a (digit_char (q / 10)) && Ascii.eqb b (digit_char (q mod 10))
  | _ => false
  end.

(** The number of decimal digits of [n], as [GenerateIntegralDigits]
    selects it. *)
Definition decimal_length (n : Z) : nat :=
  if n >=? 100000000 then 9
  else if n >=? 10000000 then 8
  else if n >=? 1000000 then 7
  else if n >=? 100000 then 6
  else if n >=? 10000 then 5
  else if n >=? 1000 then 4
  else if n >=? 100 then 3
  else if n >=? 10 then 2
  else 1.

(** What holds of the locals of [Grisu2DigitGen] at the call of
    [Grisu2Round], for the upper bound [Hf] (with [2^s] the significand of
    one), the widths [delta0 = H.f - L.f] and [distance0 = H.f - w.f] and a
    buffer of [len0] bytes.  [U] is the power of ten the widths were scaled
    by, [d] the last digit. *)
Definition DigitGen_post (s Hf delta0 distance0 : Z) (len0 : nat)
    (st : DigitGenLocals) : Prop :=
  exists (U : Z) (ds tail : list ascii) (d : Z),
    dg_buffer st = ds ++ [digit_char d] ++ tail
    /\ length (dg_buffer st) = len0
    /\ dg_length st = buf_len ds + 1
    /\ dg_length st <= 17
    /\ all_digits ds
    /\ 1 <= d <= 9
    /\ 1 <= U
    /\ dg_delta st = delta0 * U
    /\ dg_distance st = distance0 * U
    /\ Hf * U = (digits_value ds * 10 + d) * dg_ten_kappa st + dg_rest st
    /\ 0 <= dg_rest st <= dg_delta st
    /\ dg_delta st < 2 ^ 64
    /\ d * dg_ten_kappa st + dg_rest st > dg_delta st
    /\ 0 < dg_ten_kappa st
    /\ IZR (dg_ten_kappa st)
       = (IZR (2 ^ s) * IZR U * powerRZ 10 (dg_exponent st))%R
    /\ 10 ^ buf_len ds <= digits_value ds * 10 + d
    /\ -17 <= dg_exponent st <= 8.

(** The interval is wide enough for [N] digits: [H.f <= delta0 * 10^(N-1)]. *)
Definition wide_enough (Hf delta0 N : Z) : Prop :=
  1 <= N /\ Hf <= delta0 * 10 ^ (N - 1).

(** The outcomes of the loop over the fractional digits, entered with
    [len] digits in a buffer of [room] bytes: it stops with [post], or else
    the interval is too narrow for 17 digits, for the buffer or for the
    fuel. *)
Definition fraction_loop_outcome (fuel : nat) (len room Hf delta0 : Z)
    (post : DigitGenLocals -> Prop) (r : result DigitGenLocals) : Prop :=
  match r with
  | Ok st =>
      post st /\ dg_exponent st < 0
      /\ forall N, wide_enough Hf delta0 N -> dg_length st <= N
  | Fail (AssertionFailed msg) =>
      msg = "length < 17"%string /\ forall N, wide_enough Hf delta0 N -> 17 < N
  | Fail OutOfBounds => forall N, wide_enough Hf delta0 N -> room < N
  | Fail OutOfFuel => forall N, wide_enough Hf delta0 N -> Z.of_nat fuel < N - len
  end.

(** The outcomes of the loop that drops integral digits, entered with [len]
    digits kept: it stops with [post], or the fuel is short. *)
Definition integral_loop_outcome (fuel : nat) (len : Z)
    (post : DigitGenLocals -> Prop) (r : result DigitGenLocals) : Prop :=
  match r with
  | Ok st => post st /\ 0 <= dg_exponent st /\ dg_length st <= len
  | Fail OutOfFuel => Z.of_nat fuel < len
  | Fail _ => False
  end.

(** The loop of [Grisu2Round] reaches its head with the locals
    [(digit, rest)], from the entry [(digit0, rest0)]. *)
Inductive Grisu2Round_visits (distance delta ten_kappa digit0 rest0 : Z)
  : Z -> Z -> Prop :=
| visits_entry :
    Grisu2Round_visits distance delta ten_kappa digit0 rest0 digit0 rest0
| visits_body digit rest :
    Grisu2Round_visits distance delta ten_kappa digit0 rest0 digit rest ->
    Grisu2Round_cond distance delta ten_kappa rest = true ->
    Grisu2Round_visits distance delta ten_kappa digit0 rest0
      (digit - 1) (wrap64 (rest + ten_kappa)).

(** An unsigned 64-bit operation whose exact result is [z] does not wrap. *)
Definition no_wrap (z : Z) : Prop := 0 <= z < 2 ^ 64.

(** The three tests of the loop condition, in their order and as far as
    [&&] and [||] evaluate them, compute without wrap-around. *)
Definition Grisu2Round_cond_no_wrap (distance delta ten_kappa rest : Z) : Prop :=
  (rest <? distance) = true ->
  no_wrap (delta - rest)
  /\ ((delta - rest >=? ten_kappa) = true ->
      no_wrap (rest + ten_kappa)
      /\ ((rest + ten_kappa <=? distance) = false ->
          no_wrap (rest + ten_kappa - distance) /\ no_wrap (distance - rest))).

(** The preconditions of [DigitGen] that make it return: exponents in the
    window, [1 <= L.f <= w.f <= H.f], the bounds of [p1], an interval wide
    enough for [N <= 17] digits and fuel for them. *)
Definition DigitGen_pre (L w H : DiyFp) (N : Z) (fuel : nat) : Prop :=
  kAlpha <= w.(e) <= kGamma /\ w.(e) = L.(e) /\ w.(e) = H.(e)
  /\ 1 <= L.(f) /\ L.(f) <= w.(f) /\ w.(f) <= H.(f)
  /\ 2 ^ 62 <= H.(f)
  /\ H.(f) / 2 ^ (- H.(e)) <= 798336123
  /\ wide_enough H.(f) (H.(f) - L.(f)) N
  /\ 9 <= N <= 17
  /\ (17 <= fuel)%nat.

(** What [Grisu2DigitGen] returns: [length] digits without a leading zero
    at the start of a buffer of unchanged size, at most [N] of them, that read
    with the exponent as a number of the interval [[L, H]]. *)
Definition DigitGen_result (L H : DiyFp) (N : Z) (len0 : nat)
    (r : list ascii * Z * Z) : Prop :=
  let '(buffer, length, exponent) := r in
  exists ds tail,
    buffer = ds ++ tail
    /\ List.length buffer = len0
    /\ buf_len ds = length
    /\ 1 <= length <= N
    /\ all_digits ds
    /\ 10 ^ (length - 1) <= digits_value ds
    /\ -17 <= exponent <= 8
    /\ (DiyFp_value L <= IZR (digits_value ds) * powerRZ 10 exponent
        <= DiyFp_value H)%R.

(** Sample arguments of [Grisu2DigitGen] (fifteen digits, fourteen of them
    fractional). *)
Definition sample_L : DiyFp := mkDiyFp (2 ^ 62 + 2 ^ 61 - 3000 + 12345) (-60).
Definition sample_w : DiyFp := mkDiyFp (2 ^ 62 + 2 ^ 61 - 2100 + 12345) (-60).
Definition sample_H : DiyFp := mkDiyFp (2 ^ 62 + 2 ^ 61 + 12345) (-60).

Definition p2_assertion : failure := AssertionFailed "p2 <= UINT64_MAX / 10".

(** The rounded upper half of a product, as [Multiply] computes it. *)
Definition mulhi_round (a c : Z) : Z := (a * c + 2 ^ 63) / 2 ^ 64.

(** [|f * 2^e - 10^k| <= 2^(e-1)], with the negative exponents cleared. *)
Definition cached_accurate (c : CachedPower.t) : bool :=
  let fc := CachedPower.f c in
  let ec := CachedPower.e c in
  let ck := CachedPower.k c in
  let unit := 2 ^ Z.max ec 0 * 10 ^ Z.max (- ck) 0 in
  2 * Z.abs (fc * unit - 10 ^ Z.max ck 0 * 2 ^ Z.max (- ec) 0) <=? unit.

(** What [Grisu2] needs of the cached power selected for the exponent [e]. *)
Definition cached_power_grisu_ok (e : Z) : bool :=
  match GetCachedPowerForBinaryExponent e with
  | Ok c =>
      let fc := CachedPower.f c in
      let s := - (CachedPower.e c + e + 64) in
      (2 ^ 63 <? fc) && (fc <? 2 ^ 64)
      && (32 <=? s) && (s <=? 60)
      && ((fc - 1) / 2 ^ s <=? 798336123)
      && cached_accurate c
      && (-300 <=? CachedPower.k c) && (CachedPower.k c <=? 324)
  | Fail _ => false
  end.

(** What [Grisu2] returns for the boundaries [m_minus < m_plus]: at most
    [N] digits without a leading zero that read, with the exponent, as a
    number strictly between the boundaries. *)
Definition Grisu2_result (m_minus m_plus : DiyFp) (N : Z) (len0 : nat)
    (r : list ascii * Z * Z) : Prop :=
  let '(buffer, length, exponent) := r in
  exists ds tail,
    buffer = ds ++ tail
    /\ List.length buffer = len0
    /\ buf_len ds = length
    /\ 1 <= length <= N
    /\ all_digits ds
    /\ 10 ^ (length - 1) <= digits_value ds
    /\ -341 <= exponent <= 308
    /\ (DiyFp_value m_minus < IZR (digits_value ds) * powerRZ 10 exponent
        < DiyFp_value m_plus)%R.

(** ** Reading a decimal numeral

    The reader is the C library's [strtod] or [strtof], not code of the
    header.  Of the numerals it accepts, the ones the formatters write are
    described here: digits, an optional point followed by digits, an optional
    exponent part ([e] or [E], an optional sign, digits).  The numeral
    [m * 10^x] is read as [(m, x)]; nothing may follow it. *)

(** The digits at the head of [cs], appended to [acc]; their count is added
    to [count] and the rest of [cs] returned. *)
Fixpoint strtod_digits (cs : list ascii) (acc count : Z) : Z * Z * list ascii :=
  match cs with
  | c :: cs' =>
      if is_digit c then strtod_digits cs' (acc * 10 + digit_of c) (count + 1)
      else (acc, count, cs)
  | [] => (acc, count, [])
  end.

(** The exponent part after its [e]: an optional sign and at least one
    digit. *)
Definition strtod_exponent (cs : list ascii) : option Z :=
  let '(sign, cs) :=
    match cs with
    | c :: cs' =>
        if Ascii.eqb c "-" then (-1, cs')
        else if Ascii.eqb c "+" then (1, cs')
        else (1, cs)
    | [] => (1, cs)
    end in
  let '(x, n, rest) := strtod_digits cs 0 0 in
  match rest with
  | [] => if 0 <? n then Some (sign * x) else None
  | _ :: _ => None
  end.

(** A whole numeral, with at least one digit before or after the point. *)
Definition strtod_decimal (cs : list ascii) : option (Z * Z) :=
  let '(m1, n1, rest) := strtod_digits cs 0 0 in
  let '(m, n2, rest) :=
    match rest with
    | c :: rest' => if Ascii.eqb c "." then strtod_digits rest' m1 0 else (m1, 0, rest)
    | [] => (m1, 0, rest)
    end in
  if 0 <? n1 + n2 then
    match rest with
    | [] => Some (m, - n2)
    | c :: rest' =>
        if Ascii.eqb c "e" || Ascii.eqb c "E" then
          match strtod_exponent rest' with
          | Some x => Some (m, x - n2)
          | None => None
          end
        else None
    end
  else None.

(** The real number a numeral [(m, x)] denotes. *)
Definition decimal_value (mx : Z * Z) : R := (IZR (fst mx) * powerRZ 10 (snd mx))%R.

(** ** The strings the formatters write *)

Definition zeros (n : Z) : list ascii := repeat "0"%char (Z.to_nat n).

(** [FormatFixed] on the digits [ds] with the decimal point at [dp]. *)
Definition fixed_string (ds : list ascii) (dp : Z) (force_trailing_dot_zero : bool)
  : list ascii :=
  if buf_len ds <=? dp then
    ds ++ zeros (dp - buf_len ds)
    ++ (if force_trailing_dot_zero then ["."; "0"]%char else [])
  else if 0 <? dp then
    firstn (Z.to_nat dp) ds ++ "."%char :: skipn (Z.to_nat dp) ds
  else "0"%char :: "."%char :: zeros (- dp) ++ ds.

(** One to three digits, without leading zeros. *)
Definition exponent_digits (k : Z) : list ascii :=
  if k <? 10 then [digit_char k]
  else if k <? 100 then [digit_char (k / 10); digit_char (k mod 10)]
  else [digit_char (k / 100); digit_char (k mod 100 / 10);
        digit_char (k mod 100 mod 10)].

(** The exponent as [Itoa1000] writes it. *)
Definition exponent_string (x : Z) : list ascii :=
  (if x <? 0 then "-"%char else "+"%char) :: exponent_digits (Z.abs x).

(** [FormatExponential] on the digits [ds] with the decimal point at [dp]. *)
Definition exponential_string (ds : list ascii) (dp : Z) : list ascii :=
  match ds with
  | [] => []
  | [d] => d :: "e"%char :: exponent_string (dp - 1)
  | d :: ds' => d :: "."%char :: ds' ++ "e"%char :: exponent_string (dp - 1)
  end.

(** [cs] does not go on with a digit. *)
Definition not_digit_first (cs : list ascii) : Prop :=
  match cs with
  | [] => True
  | c :: _ => is_digit c = false
  end.

(** What [DtoaPositive] writes for the digits [ds] and the exponent that
    [Grisu2] returned. *)
Definition positive_string (fmt : FpFormat) (bits : Z) (ds : list ascii)
    (exponent : Z) (force_trailing_dot_zero : bool) : list ascii :=
  let decimal_point := buf_len ds + exponent in
  if (kMinExp <? decimal_point) && Fp_le fmt bits (kMaxVal fmt)
  then fixed_string ds decimal_point force_trailing_dot_zero
  else exponential_string ds decimal_point.

(** ** Rounding to nearest

    What a correctly rounding reader returns for the real number [q] it has
    read. *)

(** The real number a finite bit pattern stands for, with its sign. *)
Definition Fp_real (fmt : FpFormat) (bits : Z) : R :=
  if signbit fmt bits then (- Fp_value fmt bits)%R else Fp_value fmt bits.

(** [y] is a finite value of the format and no finite value is nearer to
    [q]. *)
Definition nearest_finite (fmt : FpFormat) (q : R) (y : Z) : Prop :=
  is_bits fmt y /\ isfinite fmt y = true
  /\ forall z, is_bits fmt z -> isfinite fmt z = true ->
       (Rabs (q - Fp_real fmt y) <= Rabs (q - Fp_real fmt z))%R.

(** Half an ulp above the largest finite value, [2^emax * (2 - 2^-p)]:
    from there on rounding to nearest overflows. *)
Definition overflow_threshold (fmt : FpFormat) : R :=
  (IZR (2 ^ (digits fmt + 1) - 1)
   * powerRZ 2 (max_exponent fmt - digits fmt - 1))%R.

(** [y] is a result of rounding [q] to nearest, whatever the rule for
    ties: a nearest finite value below the overflow threshold, an infinity
    from there on. *)
Definition correctly_rounded (fmt : FpFormat) (q : R) (y : Z) : Prop :=
  is_bits fmt y
  /\ ((Rabs q < overflow_threshold fmt)%R -> nearest_finite fmt q y)
  /\ ((overflow_threshold fmt <= Rabs q)%R -> isinf fmt y = true).

(** [strtod] or [strtof] with correct rounding reads the numeral [cs] as
    [y]. *)
Definition strtod_correctly_rounded (fmt : FpFormat) (cs : list ascii) (y : Z)
  : Prop :=
  exists mx, strtod_decimal cs = Some mx
             /\ correctly_rounded fmt (decimal_value mx) y.

(** The canonical significand and exponent of a finite value above zero:
    subnormal at the least exponent, or normal. *)
Definition canonical (p emin fx ex : Z) : Prop :=
  (ex = emin /\ 0 < fx < 2 ^ (p - 1)) \/ (emin <= ex /\ 2 ^ (p - 1) <= fx < 2 ^ p).

(** ** Runs on two buffers *)

(** Two buffers that agree on their first [n] bytes, the second one at least
    as long as the first. *)
Definition same_prefix (n : Z) (b b' : list ascii) : Prop :=
  (length b <= length b')%nat /\ firstn (Z.to_nat n) b = firstn (Z.to_nat n) b'.

(** [F] writes from its position on, the same bytes whatever the buffer
    held there. *)
Definition prefix_stable (F : list ascii -> Z -> Z -> result (list ascii * Z))
  : Prop :=
  forall b b' pos n b1 pos1,
    same_prefix pos b b' -> 0 <= pos ->
    F b pos n = Ok (b1, pos1) ->
    exists b1', F b' pos n = Ok (b1', pos1) /\ same_prefix pos1 b1 b1' /\ 0 <= pos1.

(** The locals of two runs of the digit generation agree, the buffers on
    the digits. *)
Definition same_locals (s s' : DigitGenLocals) : Prop :=
  same_prefix s.(dg_length) s.(dg_buffer) s'.(dg_buffer)
  /\ s'.(dg_length) = s.(dg_length)
  /\ s'.(dg_exponent) = s.(dg_exponent)
  /\ s'.(dg_distance) = s.(dg_distance)
  /\ s'.(dg_delta) = s.(dg_delta)
  /\ s'.(dg_rest) = s.(dg_rest)
  /\ s'.(dg_ten_kappa) = s.(dg_ten_kappa).

(** ** What [Dtoa] writes *)

(** The bytes [s] were written at the start of the buffer and the position
    after them returned. *)
Definition writes (r : result (list ascii * Z)) (s : list ascii) : Prop :=
  exists tail, r = Ok (s ++ tail, buf_len s).

(** The bytes of a zero. *)
Definition zero_string (force_trailing_dot_zero : bool) : list ascii :=
  if force_trailing_dot_zero then ["0"; "."; "0"]%char else ["0"%char].

(** ** Definitions for the further properties *)

(** [Normalize] as compiled without a count-leading-zeros intrinsic: the
    assertion, then the loop of lines 219-223. *)
Definition Normalize_fallback (fuel : nat) (x : DiyFp) : result DiyFp :=
  check (negb (x.(f) =? 0)) as "x.f != 0" ;;
  Normalize_loop fuel x.

(** What the entry at [index] of the table [kCachedPowers] has to be: the
    power for [k = -300 + 8 * index], with a 64-bit significand whose top bit
    is set, within half a unit of its last place of [10^k]. *)
Definition cached_power_entry_ok (index : Z) : bool :=
  match GetCachedPower index with
  | Ok c =>
      (CachedPower.k c =? kCachedPowersMinDecExp + kCachedPowersDecExpStep * index)
      && (2 ^ 63 <=? CachedPower.f c) && (CachedPower.f c <? 2 ^ 64)
      && cached_accurate c
  | Fail _ => false
  end.

(** [strtod] or [strtof] with correct rounding on a numeral that may begin
    with a minus sign: the value of the rest, negated. *)
Definition strtod_signed_correctly_rounded (fmt : FpFormat) (cs : list ascii)
    (y : Z) : Prop :=
  match cs with
  | c :: cs' =>
      if Ascii.eqb c "-"
      then exists y', strtod_correctly_rounded fmt cs' y' /\ y = Fp_neg fmt y'
      else strtod_correctly_rounded fmt cs y
  | [] => strtod_correctly_rounded fmt cs y
  end.

(** [GetCachedPowerForBinaryExponent e] returns exactly on [[-1137, 964]],
    and otherwise stops at an assertion. *)
Definition cached_power_domain_ok (e : Z) : bool :=
  match GetCachedPowerForBinaryExponent e with
  | Ok _ => (-1137 <=? e) && (e <=? 964)
  | Fail (AssertionFailed _) => (e <? -1137) || (964 <? e)
  | Fail _ => false
  end.

(** The bytes [DtoaPositive] may write. *)
Definition numeral_char (c : ascii) : Prop :=
  is_digit c = true \/ In c ["."; "e"; "+"; "-"]%char.
(** * Properties *)

(** ** Machine arithmetic *)

Lemma wrap64_small z : 0 <= z < 2 ^ 64 -> wrap64 z = z.
Proof. intros Hz. unfold wrap64. now apply Z.mod_small. Qed.

Lemma wrap32_small z : 0 <= z < 2 ^ 32 -> wrap32 z = z.
Proof. intros Hz. unfold wrap32. now apply Z.mod_small. Qed.

Lemma wrap64_range z : 0 <= wrap64 z < 2 ^ 64.
Proof. unfold wrap64. apply Z.mod_pos_bound. lia. Qed.

Lemma wrap32_range z : 0 <= wrap32 z < 2 ^ 32.
Proof. unfold wrap32. apply Z.mod_pos_bound. lia. Qed.

Lemma land_ones_mod a n : 0 <= n -> Z.land a (2 ^ n - 1) = a mod 2 ^ n.
Proof.
  intros Hn. rewrite <- Z.land_ones by exact Hn.
  f_equal. rewrite Z.ones_equiv. lia.
Qed.

(** The upper half of [p + 2^63] from the two halves of [p]. *)
Lemma round_upper_half p :
  0 <= p ->
  (p + 2 ^ 63) / 2 ^ 64 = p / 2 ^ 64 + (p mod 2 ^ 64) / 2 ^ 63.
Proof.
  intros Hp.
  pose proof (Z.div_mod p (2 ^ 64) ltac:(lia)) as Hdm.
  pose proof (Z.mod_pos_bound p (2 ^ 64) ltac:(lia)) as Hl.
  set (h := p / 2 ^ 64) in *. set (l := p mod 2 ^ 64) in *.
  assert (Hcases : l < 2 ^ 63 \/ 2 ^ 63 <= l) by lia.
  destruct Hcases as [Hlo | Hhi].
  - rewrite (Z.div_small l) by lia.
    symmetry. apply (Z.div_unique _ _ _ (l + 2 ^ 63)); lia.
  - assert (Hq : l / 2 ^ 63 = 1).
    { symmetry. apply (Z.div_unique _ _ _ (l - 2 ^ 63)); lia. }
    rewrite Hq. symmetry. apply (Z.div_unique _ _ _ (l - 2 ^ 63)); lia.
Qed.

Lemma product_upper_half_bound a b :
  0 <= a < 2 ^ 64 -> 0 <= b < 2 ^ 64 ->
  0 <= (a * b + 2 ^ 63) / 2 ^ 64 < 2 ^ 64 - 1.
Proof.
  intros Ha Hb. split.
  - apply Z.div_pos; nia.
  - apply Z.div_lt_upper_bound; nia.
Qed.

Section Multiply.
Variables x y : DiyFp.
Hypothesis Hx : 0 <= x.(f) < 2 ^ 64.
Hypothesis Hy : 0 <= y.(f) < 2 ^ 64.

Lemma Multiply_umul128_spec : Multiply_umul128 x y = Multiply_spec x y.
Proof.
  unfold Multiply_umul128, Multiply_spec, umul128.
  f_equal.
  assert (Hp : 0 <= x.(f) * y.(f) < 2 ^ 128) by nia.
  pose proof (product_upper_half_bound _ _ Hx Hy) as Hb.
  rewrite round_upper_half in * by lia.
  rewrite !Z.shiftr_div_pow2 by lia.
  assert (Hh : 0 <= x.(f) * y.(f) / 2 ^ 64 < 2 ^ 64).
  { split; [apply Z.div_pos; lia | apply Z.div_lt_upper_bound; lia]. }
  rewrite (wrap64_small (_ / 2 ^ 64)) by exact Hh.
  unfold wrap64 at 2.
  apply wrap64_small.
  assert (0 <= (x.(f) * y.(f)) mod 2 ^ 64 / 2 ^ 63)
    by (apply Z.div_pos; [apply Z.mod_pos_bound|]; lia).
  lia.
Qed.

Lemma Multiply_uint128_spec : Multiply_uint128 x y = Multiply_spec x y.
Proof.
  rewrite <- Multiply_umul128_spec.
  unfold Multiply_uint128, Multiply_umul128, umul128.
  assert (Hp : 0 <= x.(f) * y.(f) < 2 ^ 128) by nia.
  rewrite (Z.mod_small _ (2 ^ 128)) by exact Hp.
  reflexivity.
Qed.

Lemma Multiply_portable_spec : Multiply_portable x y = Multiply_spec x y.
Proof.
  unfold Multiply_portable, Multiply_spec. f_equal.
  rewrite !Z.shiftr_div_pow2 by lia.
  change 0xFFFFFFFF with (2 ^ 32 - 1).
  rewrite !land_ones_mod by lia.
  change (Z.shiftl 1 (63 - 32)) with (2 ^ 31).
  unfold wrap32.
  pose proof (Z.div_mod x.(f) (2 ^ 32) ltac:(lia)) as Hxdm.
  pose proof (Z.div_mod y.(f) (2 ^ 32) ltac:(lia)) as Hydm.
  pose proof (Z.mod_pos_bound x.(f) (2 ^ 32) ltac:(lia)) as Hxl.
  pose proof (Z.mod_pos_bound y.(f) (2 ^ 32) ltac:(lia)) as Hyl.
  assert (Hxh : 0 <= x.(f) / 2 ^ 32 < 2 ^ 32).
  { split; [apply Z.div_pos; lia | apply Z.div_lt_upper_bound; lia]. }
  assert (Hyh : 0 <= y.(f) / 2 ^ 32 < 2 ^ 32).
  { split; [apply Z.div_pos; lia | apply Z.div_lt_upper_bound; lia]. }
  rewrite (Z.mod_small (x.(f) / 2 ^ 32)) by exact Hxh.
  rewrite (Z.mod_small (y.(f) / 2 ^ 32)) by exact Hyh.
  set (ul := x.(f) mod 2 ^ 32) in *. set (uh := x.(f) / 2 ^ 32) in *.
  set (vl := y.(f) mod 2 ^ 32) in *. set (vh := y.(f) / 2 ^ 32) in *.
  assert (H0 : 0 <= ul * vl < 2 ^ 64) by nia.
  assert (H1 : 0 <= ul * vh < 2 ^ 64) by nia.
  assert (H2 : 0 <= uh * vl < 2 ^ 64) by nia.
  assert (H3 : 0 <= uh * vh <= (2 ^ 32 - 1) * (2 ^ 32 - 1)) by nia.
  rewrite (wrap64_small (ul * vl)), (wrap64_small (ul * vh)),
    (wrap64_small (uh * vl)), (wrap64_small (uh * vh)) by lia.
  pose proof (Z.div_mod (ul * vl) (2 ^ 32) ltac:(lia)) as D0.
  pose proof (Z.mod_pos_bound (ul * vl) (2 ^ 32) ltac:(lia)) as B0.
  pose proof (Z.div_mod (ul * vh) (2 ^ 32) ltac:(lia)) as D1.
  pose proof (Z.mod_pos_bound (ul * vh) (2 ^ 32) ltac:(lia)) as B1.
  pose proof (Z.div_mod (uh * vl) (2 ^ 32) ltac:(lia)) as D2.
  pose proof (Z.mod_pos_bound (uh * vl) (2 ^ 32) ltac:(lia)) as B2.
  set (p0h := ul * vl / 2 ^ 32) in *. set (p0l := (ul * vl) mod 2 ^ 32) in *.
  set (p1h := ul * vh / 2 ^ 32) in *. set (p1l := (ul * vh) mod 2 ^ 32) in *.
  set (p2h := uh * vl / 2 ^ 32) in *. set (p2l := (uh * vl) mod 2 ^ 32) in *.
  assert (Hp0h : 0 <= p0h < 2 ^ 32) by lia.
  assert (Hp1h : 0 <= p1h < 2 ^ 32) by lia.
  assert (Hp2h : 0 <= p2h < 2 ^ 32) by lia.
  rewrite (wrap64_small (p0h + p1l)) by lia.
  rewrite (wrap64_small (p0h + p1l + p2l)) by lia.
  rewrite (wrap64_small (2 ^ 31)) by lia.
  rewrite (wrap64_small (p0h + p1l + p2l + 2 ^ 31)) by lia.
  pose proof (Z.div_mod (p0h + p1l + p2l + 2 ^ 31) (2 ^ 32) ltac:(lia)) as DQ.
  pose proof (Z.mod_pos_bound (p0h + p1l + p2l + 2 ^ 31) (2 ^ 32) ltac:(lia)) as BQ.
  set (Qh := (p0h + p1l + p2l + 2 ^ 31) / 2 ^ 32) in *.
  set (Ql := (p0h + p1l + p2l + 2 ^ 31) mod 2 ^ 32) in *.
  assert (HQh : 0 <= Qh < 4) by lia.
  assert (Hprod : x.(f) * y.(f) + 2 ^ 63
                  = (uh * vh + p2h + p1h + Qh) * 2 ^ 64 + (p0l + 2 ^ 32 * Ql)).
  { rewrite Hxdm, Hydm.
    replace ((2 ^ 32 * uh + ul) * (2 ^ 32 * vh + vl))
      with (2 ^ 64 * (uh * vh) + 2 ^ 32 * (uh * vl) + 2 ^ 32 * (ul * vh) + ul * vl)
      by ring.
    rewrite D0, D1, D2. lia. }
  assert (Hres : (x.(f) * y.(f) + 2 ^ 63) / 2 ^ 64 = uh * vh + p2h + p1h + Qh).
  { symmetry. apply (Z.div_unique _ _ _ (p0l + 2 ^ 32 * Ql)); lia. }
  pose proof (product_upper_half_bound _ _ Hx Hy) as Hb.
  rewrite Hres in *.
  rewrite (wrap64_small (uh * vh + p2h)) by lia.
  rewrite (wrap64_small (uh * vh + p2h + p1h)) by lia.
  apply wrap64_small. lia.
Qed.
End Multiply.

(** C2: for DiyFp values [x] and [y] (64-bit significands), [Multiply]
    returns the significand [floor ((x.f * y.f + 2^63) / 2^64)] and the
    exponent [x.e + y.e + 64], and the three implementation strategies (the
    128-bit intrinsic, the widening multiplication and the four 32x32
    products with the rounding bit added to the cross term Q before its shift
    by 32) compute this same function. *)
Theorem Multiply_strategies (x y : DiyFp) :
  0 <= x.(f) < 2 ^ 64 -> 0 <= y.(f) < 2 ^ 64 ->
  (Multiply x y).(f) = (x.(f) * y.(f) + 2 ^ 63) / 2 ^ 64
  /\ (Multiply x y).(e) = x.(e) + y.(e) + 64
  /\ Multiply_umul128 x y = Multiply x y
  /\ Multiply_uint128 x y = Multiply x y
  /\ Multiply_portable x y = Multiply x y.
Proof.
  intros Hx Hy. unfold Multiply.
  rewrite Multiply_umul128_spec, Multiply_portable_spec,
    Multiply_uint128_spec by assumption.
  repeat split.
Qed.

Lemma Multiply_strategies_witness :
  let x := mkDiyFp (2 ^ 63 + 1) (-63) in
  let y := mkDiyFp 0xAB70FE17C79AC6CA (-1060) in
  (0 <= x.(f) < 2 ^ 64) /\ (0 <= y.(f) < 2 ^ 64)
  /\ (Multiply x y).(f) = (x.(f) * y.(f) + 2 ^ 63) / 2 ^ 64.
Proof.
  intros x y.
  assert (Hx : 0 <= x.(f) < 2 ^ 64) by (simpl; lia).
  assert (Hy : 0 <= y.(f) < 2 ^ 64) by (simpl; lia).
  split; [exact Hx | split; [exact Hy |]].
  exact (proj1 (Multiply_strategies x y Hx Hy)).
Defined.

(** ** Cached powers *)

Lemma Z_range_forallb (P : Z -> bool) lo n :
  forallb P (Z_range lo n) = true ->
  forall z, lo <= z < lo + Z.of_nat n -> P z = true.
Proof.
  intros Hall z Hz. unfold Z_range in Hall.
  rewrite forallb_forall in Hall. apply Hall.
  apply in_map_iff. exists (Z.to_nat (z - lo)). split.
  - lia.
  - apply in_seq. lia.
Qed.

Lemma CachedPower_eqb_eq c c' : CachedPower_eqb c c' = true -> c = c'.
Proof.
  unfold CachedPower_eqb. intros Heq.
  apply andb_prop in Heq. destruct Heq as [Heq Hk].
  apply andb_prop in Heq. destruct Heq as [Hf He].
  apply Z.eqb_eq in Hf, He, Hk.
  destruct c, c'. simpl in *. congruence.
Qed.

Lemma cached_power_ok_all :
  forall e, -1137 <= e <= 960 -> cached_power_ok e = true.
Proof.
  intros e He.
  apply (Z_range_forallb cached_power_ok (-1137) 2098).
  - vm_compute. reflexivity.
  - lia.
Qed.

(** C3, as amended: for every binary exponent [e] in [[-1137, 960]] (the
    exponents of the normalized DiyFp of a finite positive single or double),
    [GetCachedPowerForBinaryExponent e] computes [k] as the quotient of
    [f * 78913] by [2^18] truncated toward zero, plus one when [f > 0], for
    [f = alpha - e - 1]; this is the ceiling of [f * 78913 / 2^18]; the table
    index lies in [[0, 79)], and the returned power [c] satisfies
    [alpha <= c.e + e + 64 <= gamma]. *)
Theorem GetCachedPowerForBinaryExponent_in_window (e : Z) :
  -1137 <= e <= 960 ->
  let f := kAlpha - e - 1 in
  cached_power_k e = Z.quot (f * 78913) (2 ^ 18) + (if f >? 0 then 1 else 0)
  /\ cached_power_k e = Zceil_div (f * 78913) (2 ^ 18)
  /\ 0 <= cached_power_index e < 79
  /\ exists c,
       GetCachedPowerForBinaryExponent e = Ok c
       /\ nth_error kCachedPowers (Z.to_nat (cached_power_index e)) = Some c
       /\ kAlpha <= CachedPower.e c + e + 64 <= kGamma.
Proof.
  intros He f0.
  pose proof (cached_power_ok_all e He) as Hok.
  unfold cached_power_ok in Hok.
  destruct (GetCachedPowerForBinaryExponent e) as [c | ] eqn:Hget; [| discriminate].
  destruct (nth_error kCachedPowers _) as [c' | ] eqn:Hnth; [| discriminate].
  do 5 (apply andb_prop in Hok; destruct Hok as [Hok ?]).
  apply CachedPower_eqb_eq in Hok. subst c'.
  unfold kCachedPowersSize in *.
  split; [reflexivity |].
  split; [apply Z.eqb_eq; assumption |].
  split; [lia |].
  exists c. repeat split; try assumption; lia.
Qed.

Lemma GetCachedPowerForBinaryExponent_in_window_witness :
  -1137 <= 0 <= 960
  /\ cached_power_k 0 = -18
  /\ 0 <= cached_power_index 0 < 79.
Proof.
  assert (He : -1137 <= 0 <= 960) by lia.
  pose proof (GetCachedPowerForBinaryExponent_in_window 0 He) as [Hk [_ [Hidx _]]].
  split; [exact He | split; [exact Hk | exact Hidx]].
Defined.

(** C3 as stated fails: at [e = -51], [f = -10] and [f * 78913 / 2^18] is
    about [-3.01]; the code truncates toward zero and gets [k = -3], the
    floor of the claim is [-4]. *)
Lemma cached_power_k_is_not_floor :
  cached_power_k (-51) = -3
  /\ cached_power_k_floor (-51) = -4
  /\ cached_power_k (-51) <> cached_power_k_floor (-51).
Proof. vm_compute. repeat split; discriminate. Qed.

Lemma testbit_false_lt a n :
  0 <= n -> 0 <= a < 2 ^ (n + 1) -> Z.testbit a n = false -> a < 2 ^ n.
Proof.
  intros Hn Ha Hbit.
  destruct (Z.lt_ge_cases a (2 ^ n)) as [Hlt | Hge]; [exact Hlt | exfalso].
  assert (Htrue : Z.testbit a n = true).
  { apply Z.testbit_true; [exact Hn |].
    assert (Hq : a / 2 ^ n = 1).
    { symmetry. apply (Z.div_unique _ _ _ (a - 2 ^ n)).
      - rewrite Z.pow_add_r in Ha by lia. lia.
      - lia. }
    rewrite Hq. reflexivity. }
  congruence.
Qed.

Lemma finite_positive_range fmt bits :
  is_iec559_single_or_double fmt ->
  finite_positive fmt bits -> 0 < bits < bits_bound fmt.
Proof.
  intros Hfmt (Hbits & Hfin & Hpos).
  unfold bits_bound, finite_positive, is_bits, isfinite, Fp_is_positive, signbit, isnan,
    Fp_is_zero, exponent_field, fraction_field, exponent_all_ones in *.
  apply andb_prop in Hpos. destruct Hpos as [Hpos Hnz].
  apply andb_prop in Hpos. destruct Hpos as [Hsign _].
  apply negb_true_iff in Hsign, Hnz, Hfin.
  apply Z.eqb_neq in Hnz, Hfin.
  destruct Hfmt as [-> | ->]; cbv [binary32 binary64 digits bits_width max_exponent] in *.
  - change (32 - 1) with 31 in *. change (32 - 24) with 8 in *. change (24 - 1) with 23 in *.
    apply testbit_false_lt in Hsign; [| lia | change (31 + 1) with 32; lia].
    rewrite Z.mod_small in Hnz by lia.
    rewrite Z.shiftr_div_pow2 in Hfin by lia.
    assert (bits / 2 ^ 23 < 2 ^ 8) by (apply Z.div_lt_upper_bound; lia).
    assert (0 <= bits / 2 ^ 23) by (apply Z.div_pos; lia).
    rewrite Z.mod_small in Hfin by lia.
    pose proof (Z.div_mod bits (2 ^ 23) ltac:(lia)).
    pose proof (Z.mod_pos_bound bits (2 ^ 23) ltac:(lia)).
    lia.
  - change (64 - 1) with 63 in *. change (64 - 53) with 11 in *. change (53 - 1) with 52 in *.
    apply testbit_false_lt in Hsign; [| lia | change (63 + 1) with 64; lia].
    rewrite Z.mod_small in Hnz by lia.
    rewrite Z.shiftr_div_pow2 in Hfin by lia.
    assert (bits / 2 ^ 52 < 2 ^ 11) by (apply Z.div_lt_upper_bound; lia).
    assert (0 <= bits / 2 ^ 52) by (apply Z.div_pos; lia).
    rewrite Z.mod_small in Hfin by lia.
    pose proof (Z.div_mod bits (2 ^ 52) ltac:(lia)).
    pose proof (Z.mod_pos_bound bits (2 ^ 52) ltac:(lia)).
    lia.
Qed.

Lemma decode_fields fmt bits :
  is_iec559_single_or_double fmt ->
  0 < bits < bits_bound fmt ->
  let p := digits fmt in
  let E := bits / 2 ^ (p - 1) in
  let F := bits mod 2 ^ (p - 1) in
  exponent_field fmt bits = E
  /\ fraction_field fmt bits = F
  /\ 0 <= E <= exponent_all_ones fmt - 1
  /\ 0 <= F < 2 ^ (p - 1)
  /\ decode fmt bits
     = (if E =? 0 then mkDiyFp F (1 - kBias fmt)
        else mkDiyFp (2 ^ (p - 1) + F) (E - kBias fmt))
  /\ lower_boundary_is_closer fmt bits = (F =? 0) && (E >? 1)
  /\ (E = 0 -> 0 < F).
Proof.
  intros Hfmt Hbits p E F. subst p E F.
  unfold decode, lower_boundary_is_closer, kHiddenBit, exponent_field,
    fraction_field.
  unfold bits_bound, exponent_all_ones in *.
  destruct Hfmt as [-> | ->]; cbv [binary32 binary64 digits bits_width max_exponent] in *.
  - change (32 - 24) with 8 in *. change (24 - 1) with 23 in *.
    rewrite !Z.shiftr_div_pow2 by lia.
    change (wrap64 (Z.shiftl 1 23)) with (2 ^ 23).
    rewrite land_ones_mod by lia.
    pose proof (Z.div_mod bits (2 ^ 23) ltac:(lia)) as Hdm.
    pose proof (Z.mod_pos_bound bits (2 ^ 23) ltac:(lia)) as Hm.
    assert (HE : 0 <= bits / 2 ^ 23 < 2 ^ 8 - 1).
    { split; [apply Z.div_pos; lia | apply Z.div_lt_upper_bound; lia]. }
    rewrite (Z.mod_small (bits / 2 ^ 23)) by lia.
    rewrite (wrap64_small (bits mod 2 ^ 23 + 2 ^ 23)) by lia.
    rewrite (Z.add_comm (bits mod 2 ^ 23) (2 ^ 23)).
    repeat split; try lia.
  - change (64 - 53) with 11 in *. change (53 - 1) with 52 in *.
    rewrite !Z.shiftr_div_pow2 by lia.
    change (wrap64 (Z.shiftl 1 52)) with (2 ^ 52).
    rewrite land_ones_mod by lia.
    pose proof (Z.div_mod bits (2 ^ 52) ltac:(lia)) as Hdm.
    pose proof (Z.mod_pos_bound bits (2 ^ 52) ltac:(lia)) as Hm.
    assert (HE : 0 <= bits / 2 ^ 52 < 2 ^ 11 - 1).
    { split; [apply Z.div_pos; lia | apply Z.div_lt_upper_bound; lia]. }
    rewrite (Z.mod_small (bits / 2 ^ 52)) by lia.
    rewrite (wrap64_small (bits mod 2 ^ 52 + 2 ^ 52)) by lia.
    rewrite (Z.add_comm (bits mod 2 ^ 52) (2 ^ 52)).
    repeat split; try lia.
Qed.

Lemma decode_range fmt bits :
  is_iec559_single_or_double fmt ->
  0 < bits < bits_bound fmt ->
  0 < (decode fmt bits).(f) < 2 ^ digits fmt.
Proof.
  intros Hfmt Hbits.
  destruct (decode_fields fmt bits Hfmt Hbits) as (_ & _ & HE & HF & Hdec & _ & Hnz).
  rewrite Hdec.
  assert (Hp : 2 ^ digits fmt = 2 * 2 ^ (digits fmt - 1)).
  { destruct Hfmt as [-> | ->]; reflexivity. }
  destruct (Z.eqb_spec (bits / 2 ^ (digits fmt - 1)) 0) as [H0 | H0]; simpl; lia.
Qed.

(** [clzll] and the normalized significand. *)
Lemma clzll_spec a :
  0 < a < 2 ^ 64 ->
  0 <= clzll a <= 63 /\ 2 ^ 63 <= a * 2 ^ clzll a
  /\ (a + 1) * 2 ^ clzll a <= 2 ^ 64.
Proof.
  intros Ha. unfold clzll.
  pose proof (Z.log2_spec a ltac:(lia)) as Hlog.
  pose proof (Z.log2_nonneg a) as Hnn.
  assert (Hlt : Z.log2 a < 64) by (apply Z.log2_lt_pow2; lia).
  split; [lia |].
  replace (2 ^ 63) with (2 ^ Z.log2 a * 2 ^ (63 - Z.log2 a))
    by (rewrite <- Z.pow_add_r by lia; f_equal; lia).
  replace (2 ^ 64) with (2 ^ Z.succ (Z.log2 a) * 2 ^ (63 - Z.log2 a))
    by (rewrite <- Z.pow_add_r by lia; f_equal; lia).
  assert (0 < 2 ^ (63 - Z.log2 a)) by (apply Z.pow_pos_nonneg; lia).
  nia.
Qed.

Lemma clzll_lower a p :
  0 < a < 2 ^ p -> 0 <= p <= 64 -> 64 - p <= clzll a.
Proof.
  intros Ha Hp. unfold clzll.
  assert (Z.log2 a < p) by (apply Z.log2_lt_pow2; lia). lia.
Qed.

Lemma NormalizeTo_exact x e' :
  0 <= x.(e) - e' ->
  0 <= x.(f) ->
  x.(f) * 2 ^ (x.(e) - e') < 2 ^ 64 ->
  NormalizeTo x e' = Ok (mkDiyFp (x.(f) * 2 ^ (x.(e) - e')) e').
Proof.
  intros Hd Hf Hlt. unfold NormalizeTo.
  assert (Hpow : 0 < 2 ^ (x.(e) - e')) by (apply Z.pow_pos_nonneg; lia).
  rewrite Z.shiftl_mul_pow2 by lia.
  rewrite wrap64_small by nia.
  rewrite Z.shiftr_div_pow2 by lia.
  rewrite Z.div_mul by lia.
  rewrite Z.eqb_refl.
  destruct (Z.geb_spec (x.(e) - e') 0) as [_ | Hneg]; [reflexivity | lia].
Qed.

Lemma pow2_pred n : 1 <= n -> 2 ^ n = 2 * 2 ^ (n - 1).
Proof.
  intros Hn. rewrite <- Z.pow_succ_r by lia. f_equal. lia.
Qed.

Lemma ComputeBoundaries_closed_form fmt bits :
  is_iec559_single_or_double fmt ->
  finite_positive fmt bits ->
  ComputeBoundaries fmt bits = Ok (boundaries_of fmt bits).
Proof.
  intros Hfmt Hfp.
  pose proof (finite_positive_range fmt bits Hfmt Hfp) as Hrange.
  pose proof (decode_range fmt bits Hfmt Hrange) as Hv.
  destruct Hfp as (_ & Hfin & Hpos).
  unfold ComputeBoundaries, boundaries_of. rewrite Hfin, Hpos. cbn [assert bind].
  assert (Hp : 2 ^ digits fmt <= 2 ^ 53).
  { destruct Hfmt as [-> | ->]; simpl; lia. }
  assert (Hp' : 0 <= digits fmt <= 53).
  { destruct Hfmt as [-> | ->]; simpl; lia. }
  destruct (decode fmt bits) as [vf ve]. cbn [e f] in *.
  assert (Hv64 : 0 < vf < 2 ^ 64) by lia.
  destruct (clzll_spec _ Hv64) as (Hlz & Hw & Hsucc).
  pose proof (clzll_lower _ _ Hv ltac:(lia)) as Hlz'.
  set (lz := clzll vf) in *.
  unfold Normalize. cbn [e f]. fold lz.
  destruct (Z.eqb_spec vf 0) as [H0 | _]; [lia |]. cbn [negb assert bind].
  rewrite Z.shiftl_mul_pow2 by lia.
  rewrite (wrap64_small (vf * 2 ^ lz)) by nia.
  cbn [e f].
  pose proof (pow2_pred lz ltac:(lia)) as Hpow1.
  pose proof (pow2_pred (lz - 1) ltac:(lia)) as Hpow2.
  replace (lz - 1 - 1) with (lz - 2) in Hpow2 by lia.
  assert (Hpos2 : 0 < 2 ^ (lz - 2)) by (apply Z.pow_pos_nonneg; lia).
  set (a := 2 ^ (lz - 2)) in *. set (b := 2 ^ (lz - 1)) in *.
  rewrite Hpow1, Hpow2 in *.
  assert (Hplus : (2 * vf + 1) * b = vf * (2 * (2 * a)) + b) by lia.
  assert (Hminus : (2 * vf - 1) * b = vf * (2 * (2 * a)) - b) by lia.
  assert (Hcloser : (4 * vf - 1) * a = vf * (2 * (2 * a)) - a) by lia.
  rewrite (wrap64_small (2 * vf + 1)) by lia.
  rewrite NormalizeTo_exact; cbn [e f];
    replace (ve - 1 - (ve - lz)) with (lz - 1) by lia; fold b; try (rewrite ?Hplus, ?Hminus; lia).
  cbn [bind e f].
  destruct (lower_boundary_is_closer fmt bits).
  - rewrite (wrap64_small (4 * vf - 1)) by lia.
    rewrite NormalizeTo_exact; cbn [e f];
      replace (ve - 2 - (ve - lz)) with (lz - 2) by lia; fold a; try (rewrite ?Hcloser; lia).
    cbn [bind]. rewrite Hplus, Hcloser. repeat (f_equal; try lia).
  - rewrite (wrap64_small (2 * vf - 1)) by lia.
    rewrite NormalizeTo_exact; cbn [e f];
      replace (ve - 1 - (ve - lz)) with (lz - 1) by lia; fold b; try (rewrite ?Hplus, ?Hminus; lia).
    cbn [bind]. rewrite Hplus, Hminus. repeat (f_equal; try lia).
Qed.

(** ** Real values of DiyFps *)

Lemma IZR_pow2 n : 0 <= n -> IZR (2 ^ n) = powerRZ 2 n.
Proof.
  intros Hn. rewrite <- (Z2Nat.id n) by exact Hn.
  rewrite <- pow_IZR. apply pow_powerRZ.
Qed.

Lemma powerRZ2_add a b : powerRZ 2 (a + b) = (powerRZ 2 a * powerRZ 2 b)%R.
Proof. apply powerRZ_add. lra. Qed.

Lemma powerRZ2_pos a : (0 < powerRZ 2 a)%R.
Proof. apply powerRZ_lt. lra. Qed.

Lemma DiyFp_value_scaled m n ex :
  0 <= n ->
  DiyFp_value (mkDiyFp (m * 2 ^ n) (ex - n)) = DiyFp_value (mkDiyFp m ex).
Proof.
  intros Hn. unfold DiyFp_value. cbn [e f].
  rewrite mult_IZR, IZR_pow2 by exact Hn.
  replace ex with (n + (ex - n)) at 2 by lia.
  rewrite powerRZ2_add. ring.
Qed.

Lemma DiyFp_value_plus a b ex :
  DiyFp_value (mkDiyFp (a + b) ex)
  = (DiyFp_value (mkDiyFp a ex) + DiyFp_value (mkDiyFp b ex))%R.
Proof. unfold DiyFp_value. cbn [e f]. rewrite plus_IZR. ring. Qed.

Lemma DiyFp_value_minus a b ex :
  DiyFp_value (mkDiyFp (a - b) ex)
  = (DiyFp_value (mkDiyFp a ex) - DiyFp_value (mkDiyFp b ex))%R.
Proof. unfold DiyFp_value. cbn [e f]. rewrite minus_IZR. ring. Qed.

Lemma DiyFp_value_pow2 n ex :
  0 <= n -> DiyFp_value (mkDiyFp (2 ^ n) ex) = powerRZ 2 (n + ex).
Proof.
  intros Hn. unfold DiyFp_value. cbn [e f].
  rewrite IZR_pow2 by exact Hn. symmetry. apply powerRZ2_add.
Qed.

Lemma decode_value fmt bits :
  is_iec559_single_or_double fmt ->
  0 < bits < bits_bound fmt ->
  DiyFp_value (decode fmt bits) = Fp_value fmt bits.
Proof.
  intros Hfmt Hbits.
  destruct (decode_fields fmt bits Hfmt Hbits) as (HE & HF & _ & _ & Hdec & _).
  unfold Fp_value. rewrite HE, HF, Hdec.
  unfold kBias.
  destruct (_ =? 0); unfold DiyFp_value; cbn [e f]; do 2 f_equal; lia.
Qed.

(** The pieces of [boundaries_of]. *)
Lemma boundaries_of_facts fmt bits :
  is_iec559_single_or_double fmt ->
  0 < bits < bits_bound fmt ->
  let b := boundaries_of fmt bits in
  let vd := decode fmt bits in
  let half := powerRZ 2 (vd.(e) - 1) in
  let quarter := powerRZ 2 (vd.(e) - 2) in
  b.(v).(e) = b.(m_plus).(e) /\ b.(m_minus).(e) = b.(m_plus).(e)
  /\ 2 ^ 63 <= b.(v).(f) < 2 ^ 64
  /\ 2 ^ 63 <= b.(m_plus).(f) < 2 ^ 64
  /\ 2 ^ 62 <= b.(m_minus).(f) < 2 ^ 64
  /\ (b.(m_minus).(f) < 2 ^ 63 <-> b.(v).(f) = 2 ^ 63)
  /\ DiyFp_value b.(v) = Fp_value fmt bits
  /\ DiyFp_value b.(m_plus) = (Fp_value fmt bits + half)%R
  /\ DiyFp_value b.(m_minus)
     = (Fp_value fmt bits
        - if lower_boundary_is_closer fmt bits then quarter else half)%R.
Proof.
  intros Hfmt Hbits b vd half quarter.
  pose proof (decode_range fmt bits Hfmt Hbits) as Hv.
  pose proof (decode_value fmt bits Hfmt Hbits) as Hval.
  assert (Hp' : 0 <= digits fmt <= 53).
  { destruct Hfmt as [-> | ->]; simpl; lia. }
  assert (Hp : 2 ^ digits fmt <= 2 ^ 53).
  { apply Z.pow_le_mono_r; lia. }
  subst b half quarter. unfold boundaries_of. fold vd in Hv, Hval |- *.
  destruct vd as [vf ve]. cbn [e f v m_minus m_plus] in *.
  assert (Hv64 : 0 < vf < 2 ^ 64) by lia.
  destruct (clzll_spec _ Hv64) as (Hlz & Hw & Hsucc).
  pose proof (clzll_lower _ _ Hv ltac:(lia)) as Hlz'.
  set (lz := clzll vf) in *.
  pose proof (pow2_pred lz ltac:(lia)) as Hpow1.
  pose proof (pow2_pred (lz - 1) ltac:(lia)) as Hpow2.
  replace (lz - 1 - 1) with (lz - 2) in Hpow2 by lia.
  assert (Hpos2 : 0 < 2 ^ (lz - 2)) by (apply Z.pow_pos_nonneg; lia).
  assert (Hbelow : 0 < (if lower_boundary_is_closer fmt bits
                        then 2 ^ (lz - 2) else 2 ^ (lz - 1)) <= 2 ^ (lz - 1)).
  { destruct (lower_boundary_is_closer fmt bits); lia. }
  assert (Hstep : vf * 2 ^ lz = 2 ^ 63 \/ 2 ^ 63 + 2 ^ lz <= vf * 2 ^ lz).
  { destruct (Z.eq_dec (vf * 2 ^ lz) (2 ^ 63)) as [Heq | Hne]; [left; exact Heq |].
    right.
    replace (2 ^ 63) with (2 ^ (63 - lz) * 2 ^ lz) in *
      by (rewrite <- Z.pow_add_r by lia; f_equal; lia).
    assert (0 < 2 ^ lz) by (apply Z.pow_pos_nonneg; lia).
    assert (2 ^ (63 - lz) < vf) by nia.
    nia. }
  repeat split; try lia.
  - rewrite DiyFp_value_scaled by lia. exact Hval.
  - rewrite DiyFp_value_plus, DiyFp_value_scaled, DiyFp_value_pow2 by lia.
    rewrite Hval. do 2 f_equal. lia.
  - rewrite DiyFp_value_minus, DiyFp_value_scaled by lia.
    rewrite Hval. f_equal.
    destruct (lower_boundary_is_closer fmt bits);
      rewrite DiyFp_value_pow2 by lia; f_equal; lia.
Qed.

(** C4, as amended: for a finite, strictly positive single or double,
    [ComputeBoundaries] returns [(w, w-, w+)] sharing one exponent; [w] and
    [w+] are normalized (significand at least [2^63]); [w-] has a significand
    of at least [2^62], below [2^63] exactly when the significand of [w] is
    [2^63] (the input significand is a power of two); [w] stands for the input
    value, [w+] for the value plus half a unit of the decoded [v], i.e.
    [(2 v.f + 1, v.e - 1)], and [w-] for [(4 v.f - 1, v.e - 2)] exactly when
    the fraction field is zero and the biased exponent exceeds 1, for
    [(2 v.f - 1, v.e - 1)] otherwise. *)
Theorem ComputeBoundaries_correct (fmt : FpFormat) (bits : Z) :
  is_iec559_single_or_double fmt ->
  finite_positive fmt bits ->
  exists b,
    ComputeBoundaries fmt bits = Ok b
    /\ b.(v).(e) = b.(m_plus).(e) /\ b.(m_minus).(e) = b.(m_plus).(e)
    /\ 2 ^ 63 <= b.(v).(f) < 2 ^ 64
    /\ 2 ^ 63 <= b.(m_plus).(f) < 2 ^ 64
    /\ 2 ^ 62 <= b.(m_minus).(f) < 2 ^ 64
    /\ (b.(m_minus).(f) < 2 ^ 63 <-> b.(v).(f) = 2 ^ 63)
    /\ DiyFp_value b.(v) = Fp_value fmt bits
    /\ (let vd := decode fmt bits in
        DiyFp_value b.(m_plus)
        = DiyFp_value (mkDiyFp (2 * vd.(f) + 1) (vd.(e) - 1))
        /\ DiyFp_value b.(m_plus)
           = (Fp_value fmt bits + powerRZ 2 (vd.(e) - 1))%R
        /\ DiyFp_value b.(m_minus)
           = if (fraction_field fmt bits =? 0) && (exponent_field fmt bits >? 1)
             then DiyFp_value (mkDiyFp (4 * vd.(f) - 1) (vd.(e) - 2))
             else DiyFp_value (mkDiyFp (2 * vd.(f) - 1) (vd.(e) - 1))).
Proof.
  intros Hfmt Hfp.
  pose proof (finite_positive_range fmt bits Hfmt Hfp) as Hrange.
  exists (boundaries_of fmt bits).
  split; [apply ComputeBoundaries_closed_form; assumption |].
  destruct (boundaries_of_facts fmt bits Hfmt Hrange)
    as (He1 & He2 & Hw & Hwp & Hwm & Hnorm & Hv & Hp & Hm).
  destruct (decode_fields fmt bits Hfmt Hrange) as (HE & HF & _ & _ & _ & Hcl & _).
  pose proof (decode_value fmt bits Hfmt Hrange) as Hdv.
  repeat (split; [assumption |]).
  cbv zeta. rewrite Hp, Hm, HE, HF, <- Hcl, <- Hdv.
  unfold DiyFp_value. cbn [e f].
  set (vd := decode fmt bits).
  assert (Hhalf : powerRZ 2 vd.(e) = (2 * powerRZ 2 (vd.(e) - 1))%R).
  { replace vd.(e) with (1 + (vd.(e) - 1)) at 1 by lia.
    rewrite powerRZ2_add. simpl. ring. }
  assert (Hquarter : powerRZ 2 vd.(e) = (4 * powerRZ 2 (vd.(e) - 2))%R).
  { replace vd.(e) with (2 + (vd.(e) - 2)) at 1 by lia.
    rewrite powerRZ2_add. simpl. ring. }
  split; [| split; [reflexivity |]].
  - rewrite plus_IZR, mult_IZR, Hhalf. ring.
  - destruct (lower_boundary_is_closer fmt bits).
    + rewrite minus_IZR, mult_IZR, Hquarter. ring.
    + rewrite minus_IZR, mult_IZR, Hhalf. ring.
Qed.

Lemma ComputeBoundaries_correct_witness :
  is_iec559_single_or_double binary64
  /\ finite_positive binary64 0x3FF8000000000000
  /\ exists b,
       ComputeBoundaries binary64 0x3FF8000000000000 = Ok b
       /\ 2 ^ 63 <= b.(v).(f) < 2 ^ 64.
Proof.
  assert (Hfmt : is_iec559_single_or_double binary64) by (right; reflexivity).
  assert (Hfp : finite_positive binary64 0x3FF8000000000000).
  { unfold finite_positive, is_bits. simpl. repeat split; lia. }
  split; [exact Hfmt | split; [exact Hfp |]].
  destruct (ComputeBoundaries_correct binary64 _ Hfmt Hfp)
    as (b & Hb & _ & _ & Hw & _).
  exists b. split; [exact Hb | exact Hw].
Defined.

(** C4 as stated fails at the double [1.0]: the lower boundary returned has
    the significand [2^63 - 2^9], which is not normalized. *)
Lemma ComputeBoundaries_lower_boundary_not_normalized :
  exists b,
    ComputeBoundaries binary64 0x3FF0000000000000 = Ok b
    /\ finite_positive binary64 0x3FF0000000000000
    /\ b.(m_minus).(f) = 2 ^ 63 - 2 ^ 9
    /\ ~ (2 ^ 63 <= b.(m_minus).(f)).
Proof.
  eexists. split; [vm_compute; reflexivity |].
  split; [unfold finite_positive, is_bits; simpl; repeat split; lia |].
  split; [reflexivity | simpl; lia].
Qed.

(** ** Decimal digits in the buffer *)

Lemma digit_of_digit_char d : 0 <= d <= 9 -> digit_of (digit_char d) = d.
Proof.
  intros Hd. unfold digit_of, digit_char, Z_of_char, char_of_Z.
  rewrite Z.mod_small by lia.
  rewrite N_ascii_embedding by lia. lia.
Qed.

Lemma is_digit_digit_char d : 0 <= d <= 9 -> is_digit (digit_char d) = true.
Proof.
  intros Hd. unfold is_digit. rewrite digit_of_digit_char by exact Hd.
  apply andb_true_intro. split; apply Z.leb_le; lia.
Qed.

Lemma digit_char_digit_of c : is_digit c = true -> digit_char (digit_of c) = c.
Proof.
  unfold is_digit, digit_char, digit_of, char_of_Z, Z_of_char. intros Hc.
  apply andb_prop in Hc. destruct Hc as [Hlo Hhi].
  apply Z.leb_le in Hlo, Hhi.
  replace (48 + (Z.of_N (N_of_ascii c) - 48)) with (Z.of_N (N_of_ascii c)) by lia.
  rewrite Z.mod_small by lia.
  rewrite N2Z.id. apply ascii_N_embedding.
Qed.

Lemma is_digit_range c : is_digit c = true -> 0 <= digit_of c <= 9.
Proof.
  unfold is_digit. intros Hc. apply andb_prop in Hc.
  destruct Hc as [Hlo Hhi]. apply Z.leb_le in Hlo, Hhi. lia.
Qed.

Lemma digits_value_fold cs acc :
  fold_left (fun a c => a * 10 + digit_of c) cs acc
  = acc * 10 ^ buf_len cs + digits_value cs.
Proof.
  unfold digits_value, buf_len. revert acc.
  induction cs as [| c cs IH]; intros acc.
  - cbn [fold_left length]. change (Z.of_nat 0) with 0. rewrite Z.pow_0_r. lia.
  - cbn [fold_left length]. rewrite IH, (IH (0 * 10 + digit_of c)).
    rewrite Nat2Z.inj_succ, Z.pow_succ_r by lia. ring.
Qed.

Lemma digits_value_app cs1 cs2 :
  digits_value (cs1 ++ cs2)
  = digits_value cs1 * 10 ^ buf_len cs2 + digits_value cs2.
Proof.
  unfold digits_value at 1. rewrite fold_left_app.
  rewrite digits_value_fold. reflexivity.
Qed.

Lemma digits_value_single c : digits_value [c] = digit_of c.
Proof. reflexivity. Qed.

Lemma digits_value_nil : digits_value [] = 0.
Proof. reflexivity. Qed.

Lemma all_digits_app cs1 cs2 :
  all_digits (cs1 ++ cs2) <-> all_digits cs1 /\ all_digits cs2.
Proof. apply Forall_app. Qed.

Lemma digits_value_bounds cs :
  all_digits cs -> 0 <= digits_value cs < 10 ^ buf_len cs.
Proof.
  induction cs as [| c cs IH] using rev_ind; intros Hall.
  - unfold buf_len. cbn [length]. rewrite digits_value_nil.
    change (Z.of_nat 0) with 0. rewrite Z.pow_0_r. lia.
  - apply all_digits_app in Hall. destruct Hall as [Hcs Hc].
    inversion Hc as [| ? ? Hd _]; subst.
    apply is_digit_range in Hd. specialize (IH Hcs).
    rewrite digits_value_app, digits_value_single.
    unfold buf_len in *. rewrite length_app. cbn [length].
    rewrite Nat2Z.inj_add. change (Z.of_nat 1) with 1.
    rewrite Z.pow_add_r by lia. change (10 ^ 1) with 10. lia.
Qed.

(** ** Buffer accesses *)

Lemma buf_len_app (a b : list ascii) : buf_len (a ++ b) = buf_len a + buf_len b.
Proof. unfold buf_len. rewrite length_app. lia. Qed.

Lemma buf_len_nonneg (a : list ascii) : 0 <= buf_len a.
Proof. unfold buf_len. lia. Qed.

Lemma buf_store_app pre old cs post :
  length old = length cs ->
  buf_store (pre ++ old ++ post) (buf_len pre) cs = Ok (pre ++ cs ++ post).
Proof.
  intros Hlen. unfold buf_store.
  rewrite !buf_len_app.
  assert (Hin : (0 <=? buf_len pre)
                && (buf_len pre + buf_len cs <=? buf_len pre + (buf_len old + buf_len post))
                = true).
  { apply andb_true_intro. unfold buf_len. rewrite Hlen.
    split; apply Z.leb_le; lia. }
  rewrite Hin. f_equal. unfold buf_len. rewrite Nat2Z.id.
  rewrite firstn_app, firstn_all, Nat.sub_diag. cbn [firstn]. rewrite app_nil_r.
  f_equal. f_equal.
  rewrite skipn_app.
  rewrite (skipn_all2 pre) by lia. cbn [app].
  replace (length pre + length cs - length pre)%nat with (length old) by lia.
  rewrite skipn_app, skipn_all, Nat.sub_diag. reflexivity.
Qed.

Lemma buf_load_app pre cs post :
  buf_load (pre ++ cs ++ post) (buf_len pre) (buf_len cs) = Ok cs.
Proof.
  unfold buf_load. rewrite !buf_len_app.
  assert (Hin : (0 <=? buf_len pre) && (0 <=? buf_len cs)
                && (buf_len pre + buf_len cs <=? buf_len pre + (buf_len cs + buf_len post))
                = true).
  { unfold buf_len. repeat (apply andb_true_intro; split); apply Z.leb_le; lia. }
  rewrite Hin. f_equal. unfold buf_len. rewrite !Nat2Z.id.
  rewrite skipn_app, skipn_all, Nat.sub_diag. cbn [skipn app].
  rewrite firstn_app, firstn_all, Nat.sub_diag. cbn [firstn]. apply app_nil_r.
Qed.

Lemma buf_write_app pre c0 c post :
  buf_write (pre ++ c0 :: post) (buf_len pre) c = Ok (pre ++ c :: post).
Proof. apply (buf_store_app pre [c0] [c] post). reflexivity. Qed.

Lemma buf_read_app pre c post :
  buf_read (pre ++ c :: post) (buf_len pre) = Ok c.
Proof.
  unfold buf_read.
  pose proof (buf_load_app pre [c] post) as Hload.
  change (buf_len [c]) with 1 in Hload. cbn [app] in Hload.
  rewrite Hload. reflexivity.
Qed.

(** A buffer cut into the bytes before [i], the [k] bytes at [i] and the
    rest. *)
Lemma buffer_split (buffer : list ascii) (i : Z) (k : nat) :
  0 <= i -> i + Z.of_nat k <= buf_len buffer ->
  exists pre old post,
    buffer = pre ++ old ++ post /\ buf_len pre = i /\ length old = k
    /\ pre = firstn (Z.to_nat i) buffer
    /\ post = skipn (Z.to_nat i + k) buffer.
Proof.
  intros Hi Hk. unfold buf_len in *.
  exists (firstn (Z.to_nat i) buffer),
         (firstn k (skipn (Z.to_nat i) buffer)),
         (skipn (Z.to_nat i + k) buffer).
  repeat split.
  - rewrite <- (firstn_skipn (Z.to_nat i) buffer) at 1. f_equal.
    rewrite <- (firstn_skipn k (skipn (Z.to_nat i) buffer)) at 1. f_equal.
    rewrite skipn_skipn. f_equal. lia.
  - rewrite length_firstn. lia.
  - rewrite length_firstn, length_skipn. lia.
Qed.

Lemma kDigits100_entry q :
  0 <= q < 100 ->
  buf_load kDigits100 (2 * q) 2 = Ok [digit_char (q / 10); digit_char (q mod 10)].
Proof.
  intros Hq.
  assert (Hok : kDigits100_ok q = true).
  { apply (Z_range_forallb kDigits100_ok 0 100); [vm_compute; reflexivity | lia]. }
  unfold kDigits100_ok in Hok.
  destruct (buf_load kDigits100 (2 * q) 2) as [[| a [| b [| ? ?]]] | ]; try discriminate.
  apply andb_prop in Hok. destruct Hok as [Ha Hb].
  apply Ascii.eqb_eq in Ha, Hb. subst. reflexivity.
Qed.

Lemma emits_Utoa100 : emits Utoa100 2 100.
Proof.
  intros pre old post n Hold Hn.
  exists [digit_char (n / 10); digit_char (n mod 10)].
  unfold Utoa100.
  destruct (Z.ltb_spec n 100) as [_ | Hge]; [| lia]. cbn [assert bind].
  rewrite kDigits100_entry by exact Hn. cbn [bind].
  rewrite buf_store_app by exact Hold. cbn [bind].
  pose proof (Z.div_mod n 10 ltac:(lia)) as Hdm.
  pose proof (Z.mod_pos_bound n 10 ltac:(lia)) as Hm.
  assert (Hq : 0 <= n / 10 <= 9).
  { split; [apply Z.div_pos; lia | ]. 
    assert (n / 10 < 10) by (apply Z.div_lt_upper_bound; lia). lia. }
  repeat split.
  - repeat constructor; apply is_digit_digit_char; lia.
  - unfold digits_value. cbn [fold_left].
    rewrite !digit_of_digit_char by lia. lia.
Qed.

Lemma emits_L_1_digit : emits L_1_digit 1 10.
Proof.
  intros pre old post n Hold Hn.
  destruct old as [| c0 [| ? ?]]; try discriminate.
  exists [digit_char n]. unfold L_1_digit. cbn [app].
  fold (digit_char n).
  rewrite buf_write_app. cbn [bind].
  repeat split.
  - repeat constructor. apply is_digit_digit_char. lia.
  - rewrite digits_value_single. apply digit_of_digit_char. lia.
Qed.

(** Two digits by [Utoa100], the remaining ones by [G]. *)
Lemma emits_step G k bound :
  0 < bound ->
  bound = 10 ^ Z.of_nat k ->
  emits G k bound ->
  emits (fun buffer pos n =>
           '(buffer, pos) <- Utoa100 buffer pos (Z.quot n bound) ;;
           G buffer pos (Z.rem n bound))
        (2 + k) (100 * bound).
Proof.
  intros Hbound Hpow HG pre old post n Hold Hn.
  rewrite Z.quot_div_nonneg, Z.rem_mod_nonneg by lia.
  pose proof (Z.div_mod n bound ltac:(lia)) as Hdm.
  pose proof (Z.mod_pos_bound n bound Hbound) as Hm.
  assert (Hq : 0 <= n / bound < 100).
  { split; [apply Z.div_pos; lia | apply Z.div_lt_upper_bound; lia]. }
  assert (Hsplit : old = firstn 2 old ++ skipn 2 old) by (symmetry; apply firstn_skipn).
  assert (Hl1 : length (firstn 2 old) = 2%nat) by (rewrite length_firstn; lia).
  assert (Hl2 : length (skipn 2 old) = k) by (rewrite length_skipn; lia).
  rewrite Hsplit, <- (app_assoc (firstn 2 old)).
  destruct (emits_Utoa100 pre (firstn 2 old) (skipn 2 old ++ post) (n / bound) Hl1 Hq)
    as (ds1 & Hrun1 & Hlen1 & Hall1 & Hval1).
  rewrite Hrun1. cbn [bind].
  rewrite (app_assoc pre ds1).
  replace (buf_len pre + Z.of_nat 2) with (buf_len (pre ++ ds1))
    by (rewrite buf_len_app; unfold buf_len; lia).
  destruct (HG (pre ++ ds1) (skipn 2 old) post (n mod bound) Hl2 Hm)
    as (ds2 & Hrun2 & Hlen2 & Hall2 & Hval2).
  exists (ds1 ++ ds2). rewrite Hrun2.
  repeat split.
  - f_equal. f_equal.
    + rewrite <- !app_assoc. reflexivity.
    + rewrite !buf_len_app. unfold buf_len. lia.
  - rewrite length_app. lia.
  - apply all_digits_app. split; assumption.
  - rewrite digits_value_app, Hval1, Hval2. unfold buf_len. rewrite Hlen2, <- Hpow. lia.
Qed.

Lemma emits_L_3_digits : emits L_3_digits 3 1000.
Proof. exact (emits_step L_1_digit 1 10 ltac:(lia) eq_refl emits_L_1_digit). Qed.

Lemma emits_L_5_digits : emits L_5_digits 5 100000.
Proof. exact (emits_step L_3_digits 3 1000 ltac:(lia) eq_refl emits_L_3_digits). Qed.

Lemma emits_L_7_digits : emits L_7_digits 7 10000000.
Proof. exact (emits_step L_5_digits 5 100000 ltac:(lia) eq_refl emits_L_5_digits). Qed.

Lemma emits_L_9_digits : emits L_9_digits 9 1000000000.
Proof. exact (emits_step L_7_digits 7 10000000 ltac:(lia) eq_refl emits_L_7_digits). Qed.

Lemma emits_L_2_digits : emits L_2_digits 2 100.
Proof. exact emits_Utoa100. Qed.

Lemma emits_L_4_digits : emits L_4_digits 4 10000.
Proof. exact (emits_step L_2_digits 2 100 ltac:(lia) eq_refl emits_L_2_digits). Qed.

Lemma emits_L_6_digits : emits L_6_digits 6 1000000.
Proof. exact (emits_step L_4_digits 4 10000 ltac:(lia) eq_refl emits_L_4_digits). Qed.

Lemma emits_L_8_digits : emits L_8_digits 8 100000000.
Proof. exact (emits_step L_6_digits 6 1000000 ltac:(lia) eq_refl emits_L_6_digits). Qed.

Lemma emits_at_start F k bound (buffer : list ascii) n :
  emits F k bound ->
  Z.of_nat k <= buf_len buffer -> 0 <= n < bound ->
  exists ds,
    F buffer 0 n = Ok (ds ++ skipn k buffer, Z.of_nat k)
    /\ length ds = k /\ all_digits ds /\ digits_value ds = n.
Proof.
  intros HF Hlen Hn.
  assert (Hold : length (firstn k buffer) = k).
  { rewrite length_firstn. unfold buf_len in Hlen. lia. }
  destruct (HF [] (firstn k buffer) (skipn k buffer) n Hold Hn)
    as (ds & Hrun & Hrest).
  cbn [app] in Hrun. rewrite firstn_skipn in Hrun.
  change (buf_len []) with 0 in Hrun. rewrite Z.add_0_l in Hrun.
  exists ds. split; [exact Hrun | exact Hrest].
Qed.

Lemma GenerateIntegralDigits_spec (buffer : list ascii) (n : Z) :
  0 <= n <= 798336123 ->
  9 <= buf_len buffer ->
  let k := decimal_length n in
  exists ds,
    GenerateIntegralDigits buffer n = Ok (ds ++ skipn k buffer, Z.of_nat k)
    /\ length ds = k /\ all_digits ds /\ digits_value ds = n
    /\ (1 <= k <= 9)%nat
    /\ n < 10 ^ Z.of_nat k
    /\ (1 <= n -> 10 ^ (Z.of_nat k - 1) <= n).
Proof.
  intros Hn Hlen k. subst k. unfold GenerateIntegralDigits, decimal_length.
  destruct (Z.leb_spec n 798336123) as [_ | Hgt]; [| lia]. cbn [assert bind].
  repeat match goal with
         | |- context [?a >=? ?b] => destruct (Z.geb_spec a b)
         end;
    match goal with
    | |- context [Ok (_ ++ skipn ?k buffer, _)] =>
        match goal with
        | |- context [?F buffer 0 n] =>
            let HE := fresh in
            assert (HE : exists bound, emits F k bound /\ n < bound /\ bound = 10 ^ Z.of_nat k)
              by (eexists; split;
                  [ first [ exact emits_L_9_digits | exact emits_L_8_digits
                          | exact emits_L_7_digits | exact emits_L_6_digits
                          | exact emits_L_5_digits | exact emits_L_4_digits
                          | exact emits_L_3_digits | exact emits_L_2_digits
                          | exact emits_L_1_digit ]
                  | split; [lia | reflexivity] ]);
            destruct HE as (bound & HF & Hb & Hpow);
            destruct (emits_at_start F k bound buffer n HF ltac:(lia) ltac:(lia))
              as (ds & Hrun & Hl & Hall & Hval);
            exists ds; rewrite Hrun;
            repeat split; try assumption; try lia
        end
    end.
Qed.

(** ** The loops of the digit generation *)

Lemma powerRZ10_neg_nat m :
  0 <= m -> (IZR (10 ^ m) * powerRZ 10 (- m) = 1)%R.
Proof.
  intros Hm.
  rewrite <- (Z2Nat.id m) by exact Hm.
  rewrite <- pow_IZR, pow_powerRZ.
  rewrite <- powerRZ_add by lra.
  replace (Z.of_nat (Z.to_nat m) + - Z.of_nat (Z.to_nat m)) with 0 by lia.
  reflexivity.
Qed.

Lemma IZR_pow10 n : 0 <= n -> IZR (10 ^ n) = powerRZ 10 n.
Proof.
  intros Hn. rewrite <- (Z2Nat.id n) by exact Hn.
  rewrite <- pow_IZR. apply pow_powerRZ.
Qed.

Lemma digit_store_char d : 0 <= d <= 9 -> char_of_Z (wrap64 (48 + d)) = digit_char d.
Proof. intros Hd. rewrite wrap64_small by lia. reflexivity. Qed.

Lemma pow10_pos n : 0 <= n -> 0 < 10 ^ n.
Proof. intros Hn. apply Z.pow_pos_nonneg; lia. Qed.

Lemma pow10_succ n : 0 <= n -> 10 ^ (n + 1) = 10 * 10 ^ n.
Proof. intros Hn. rewrite Z.pow_add_r by lia. lia. Qed.

Lemma pow2_range s : 32 <= s <= 60 -> 2 ^ 32 <= 2 ^ s <= 2 ^ 60.
Proof. intros Hs. split; apply Z.pow_le_mono_r; lia. Qed.

Lemma buf_write_end (ds : list ascii) c :
  buf_write ds (buf_len ds) c = Fail OutOfBounds.
Proof.
  unfold buf_write, buf_store.
  destruct (Z.leb_spec (buf_len ds + buf_len [c]) (buf_len ds)) as [Hle | _].
  - change (buf_len [c]) with 1 in Hle. lia.
  - rewrite andb_false_r. reflexivity.
Qed.

Section FractionLoop.
Variables s Hf delta0 distance0 : Z.
Hypothesis Hs : 32 <= s <= 60.
Hypothesis Hdist : 0 <= distance0 <= delta0.

Let one := mkDiyFp (2 ^ s) (- s).

(** With [len] digits written and the rest above [delta], the interval is
    too narrow for [len] digits. *)
Lemma fraction_digits_needed (ds : list ascii) (m p2 N : Z) :
  1 <= buf_len ds ->
  10 ^ (buf_len ds - 1) <= digits_value ds ->
  0 <= m ->
  0 <= p2 < 2 ^ s ->
  Hf * 10 ^ m = digits_value ds * 2 ^ s + p2 ->
  delta0 * 10 ^ m < p2 ->
  wide_enough Hf delta0 N ->
  buf_len ds < N.
Proof.
  intros Hlen Hlead Hm Hp2 Hinv Hgt [HN Hwidth].
  pose proof (pow2_range s Hs) as Hpow.
  destruct (Z.lt_ge_cases (buf_len ds) N) as [Hlt | Hge]; [exact Hlt | exfalso].
  pose proof (pow10_pos m Hm) as H10m.
  assert (Hmono : 10 ^ (N - 1) <= 10 ^ (buf_len ds - 1))
    by (apply Z.pow_le_mono_r; lia).
  pose proof (pow10_pos (N - 1) ltac:(lia)) as H10N.
  assert (Hf * 10 ^ m >= 10 ^ (N - 1) * 2 ^ s) by nia.
  assert (delta0 * 10 ^ (N - 1) * 10 ^ m < 10 ^ (N - 1) * 2 ^ s) by nia.
  nia.
Qed.

Lemma DigitGen_fraction_loop_spec (fuel : nat) :
  forall (ds tail : list ascii) (m p2 : Z),
    1 <= buf_len ds ->
    all_digits ds ->
    10 ^ (buf_len ds - 1) <= digits_value ds ->
    0 <= m < buf_len ds ->
    0 <= p2 < 2 ^ s ->
    Hf * 10 ^ m = digits_value ds * 2 ^ s + p2 ->
    delta0 * 10 ^ m < p2 ->
    fraction_loop_outcome fuel (buf_len ds) (buf_len (ds ++ tail)) Hf delta0
      (DigitGen_post s Hf delta0 distance0 (length (ds ++ tail)))
      (DigitGen_fraction_loop fuel one (ds ++ tail) (buf_len ds) m p2
         (delta0 * 10 ^ m) (distance0 * 10 ^ m)).
Proof.
  pose proof (pow2_range s Hs) as Hpow.
  induction fuel as [| fuel IH];
    intros ds tail m p2 Hlen Hall Hlead [Hm Hmlen] Hp2 Hinv Hgt;
    pose proof (fraction_digits_needed ds m p2) as Hneed;
    specialize (fun N => Hneed N Hlen Hlead Hm Hp2 Hinv Hgt).
  - (* no fuel *)
    cbn [DigitGen_fraction_loop fraction_loop_outcome].
    intros N HN. specialize (Hneed N HN). lia.
  - cbn [DigitGen_fraction_loop].
    destruct (Z.ltb_spec (buf_len ds) 17) as [Hlt17 | Hbad]; cbn [assert bind].
    2:{ cbn [fraction_loop_outcome]. split; [reflexivity |].
        intros N HN. specialize (Hneed N HN). lia. }
    change (UINT64_MAX / 10) with 1844674407370955161.
    destruct (Z.leb_spec p2 1844674407370955161) as [_ | Hbad]; [| lia].
    cbn [assert bind]. subst one. cbn [e f].
    rewrite Z.opp_involutive.
    rewrite (wrap64_small (p2 * 10)) by lia.
    rewrite (wrap64_small (2 ^ s - 1)) by lia.
    rewrite land_ones_mod by lia.
    rewrite Z.shiftr_div_pow2 by lia.
    pose proof (Z.div_mod (p2 * 10) (2 ^ s) ltac:(lia)) as Hdm.
    pose proof (Z.mod_pos_bound (p2 * 10) (2 ^ s) ltac:(lia)) as Hr.
    set (d := p2 * 10 / 2 ^ s) in *. set (r := (p2 * 10) mod 2 ^ s) in *.
    assert (Hd : 0 <= d <= 9).
    { split; [apply Z.div_pos; lia |].
      assert (d < 10) by (apply Z.div_lt_upper_bound; lia). lia. }
    destruct (Z.leb_spec d 9) as [_ | Hbad]; [| lia].
    cbn [assert bind].
    rewrite digit_store_char by exact Hd.
    destruct tail as [| c0 tail'].
    { rewrite app_nil_r. rewrite buf_write_end. cbn [bind fraction_loop_outcome].
      intros N HN. specialize (Hneed N HN). lia. }
    rewrite buf_write_app. cbn [bind].
    pose proof (pow10_pos m Hm) as H10m.
    assert (Hdelta : 0 <= delta0 * 10 ^ m < 2 ^ 60) by nia.
    rewrite (wrap64_small (delta0 * 10 ^ m * 10)) by lia.
    rewrite (wrap64_small (distance0 * 10 ^ m * 10)) by nia.
    replace (delta0 * 10 ^ m * 10) with (delta0 * 10 ^ (m + 1))
      by (rewrite pow10_succ by exact Hm; ring).
    replace (distance0 * 10 ^ m * 10) with (distance0 * 10 ^ (m + 1))
      by (rewrite pow10_succ by exact Hm; ring).
    assert (Hinv' : Hf * 10 ^ (m + 1) = (digits_value ds * 10 + d) * 2 ^ s + r).
    { rewrite pow10_succ by exact Hm. nia. }
    destruct (Z.leb_spec r (delta0 * 10 ^ (m + 1))) as [Hstop | Hmore].
    + (* enough digits *)
      cbn [fraction_loop_outcome dg_exponent dg_length].
      split; [| split; [lia |]].
      2:{ intros N HN. specialize (Hneed N HN). lia. }
      exists (10 ^ (m + 1)), ds, tail', d. cbn [dg_buffer dg_length dg_exponent dg_distance
        dg_delta dg_rest dg_ten_kappa].
      assert (Hd1 : 1 <= d).
      { destruct (Z.eq_dec d 0) as [Hd0 | Hd0]; [| lia].
        rewrite pow10_succ in Hstop by exact Hm. nia. }
      repeat split; try assumption; try lia.
      * rewrite !length_app. reflexivity.
      * rewrite pow10_succ by exact Hm. nia.
      * rewrite pow10_succ in * by exact Hm. nia.
      * rewrite Rmult_assoc. rewrite powerRZ10_neg_nat by lia. ring.
      * replace (buf_len ds) with (buf_len ds - 1 + 1) by lia.
        rewrite pow10_succ by lia. lia.
    + (* one more digit *)
      replace (ds ++ digit_char d :: tail') with ((ds ++ [digit_char d]) ++ tail')
        by (rewrite <- app_assoc; reflexivity).
      assert (Hlen' : buf_len (ds ++ [digit_char d]) = buf_len ds + 1)
        by (rewrite buf_len_app; reflexivity).
      rewrite <- Hlen'.
      assert (Hroom : buf_len ((ds ++ [digit_char d]) ++ tail')
                      = buf_len (ds ++ c0 :: tail')).
      { rewrite <- app_assoc. rewrite !buf_len_app. unfold buf_len. cbn [length app]. lia. }
      assert (Hroom' : length ((ds ++ [digit_char d]) ++ tail')
                       = length (ds ++ c0 :: tail')).
      { unfold buf_len in Hroom. lia. }
      specialize (IH (ds ++ [digit_char d]) tail' (m + 1) r).
      rewrite Hroom, Hroom' in IH.
      assert (Hout : fraction_loop_outcome fuel (buf_len (ds ++ [digit_char d]))
                       (buf_len (ds ++ c0 :: tail')) Hf delta0
                       (DigitGen_post s Hf delta0 distance0 (length (ds ++ c0 :: tail')))
                       (DigitGen_fraction_loop fuel (mkDiyFp (2 ^ s) (- s))
                          ((ds ++ [digit_char d]) ++ tail')
                          (buf_len (ds ++ [digit_char d])) (m + 1) r
                          (delta0 * 10 ^ (m + 1)) (distance0 * 10 ^ (m + 1)))).
      { apply IH.
        - lia.
        - apply all_digits_app. split; [exact Hall |].
          repeat constructor. apply is_digit_digit_char. exact Hd.
        - rewrite digits_value_app, digits_value_single, digit_of_digit_char by exact Hd.
          rewrite Hlen'. change (buf_len [digit_char d]) with 1.
          replace (buf_len ds + 1 - 1) with (buf_len ds - 1 + 1) by lia.
          rewrite pow10_succ by lia. change (10 ^ 1) with 10. lia.
        - lia.
        - lia.
        - rewrite digits_value_app, digits_value_single, digit_of_digit_char by exact Hd.
          change (buf_len [digit_char d]) with 1. change (10 ^ 1) with 10. exact Hinv'.
        - lia. }
      destruct (DigitGen_fraction_loop fuel _ _ _ _ _ _ _) as [st | [msg | |]];
        cbn [fraction_loop_outcome] in *.
      * exact Hout.
      * exact Hout.
      * exact Hout.
      * intros N HN. specialize (Hout N HN). lia.
Qed.
End FractionLoop.

Lemma all_digits_last ds c : all_digits (ds ++ [c]) -> all_digits ds /\ 0 <= digit_of c <= 9.
Proof.
  intros Hall. apply all_digits_app in Hall. destruct Hall as [Hds Hc].
  inversion Hc as [| ? ? Hd _]; subst. split; [exact Hds | apply is_digit_range; exact Hd].
Qed.

Lemma digits_value_snoc ds c : digits_value (ds ++ [c]) = digits_value ds * 10 + digit_of c.
Proof.
  rewrite digits_value_app, digits_value_single.
  change (buf_len [c]) with 1. change (10 ^ 1) with 10. reflexivity.
Qed.

Lemma buf_len_snoc (ds : list ascii) c : buf_len (ds ++ [c]) = buf_len ds + 1.
Proof. rewrite buf_len_app. reflexivity. Qed.

Section IntegralLoop.
Variables s Hf delta0 distance0 : Z.
Hypothesis Hs : 32 <= s <= 60.
Hypothesis Hdist : 0 <= distance0 <= delta0.
Hypothesis Hdelta : delta0 < Hf < 2 ^ 64.

Lemma DigitGen_integral_loop_spec (fuel : nat) :
  forall (ds dropped tail : list ascii) (rest : Z),
    let n := buf_len dropped in
    let tk := 10 ^ n * 2 ^ s in
    1 <= buf_len ds ->
    buf_len ds + n <= 9 ->
    all_digits ds ->
    10 ^ (buf_len ds - 1) <= digits_value ds ->
    Hf = digits_value ds * tk + rest ->
    0 <= rest <= delta0 ->
    integral_loop_outcome fuel (buf_len ds)
      (DigitGen_post s Hf delta0 distance0 (length (ds ++ dropped ++ tail)))
      (DigitGen_integral_loop fuel (ds ++ dropped ++ tail) (buf_len ds + n) n
         distance0 delta0 rest tk).
Proof.
  pose proof (pow2_range s Hs) as Hpow.
  induction fuel as [| fuel IH];
    intros ds dropped tail rest n tk Hlen Hk Hall Hlead Hinv Hrest.
  - cbn [DigitGen_integral_loop integral_loop_outcome]. lia.
  - cbn [DigitGen_integral_loop].
    assert (Hn : 0 <= n) by apply buf_len_nonneg.
    pose proof (pow10_pos n Hn) as H10n.
    assert (Htk : 0 < tk) by (subst tk; nia).
    destruct (Z.leb_spec n (buf_len ds + n - 1)) as [_ | Hbad]; [| lia].
    cbn [assert bind].
    destruct (Z.leb_spec rest delta0) as [_ | Hbad]; [| lia].
    cbn [assert bind].
    destruct (exists_last (l := ds)) as (ds' & c & Hds).
    { intros ->. change (buf_len []) with 0 in Hlen. lia. }
    subst ds. rewrite buf_len_snoc in *.
    apply all_digits_last in Hall. destruct Hall as [Hall Hc].
    rewrite digits_value_snoc in *.
    replace (buf_len ds' + 1 + n - 1 - n) with (buf_len ds') by lia.
    rewrite <- (app_assoc ds'). cbn [app].
    rewrite buf_read_app. cbn [bind].
    fold (digit_of c).
    rewrite (wrap32_small (digit_of c)) by lia.
    pose proof (digits_value_bounds ds' Hall) as [HV _].
    assert (HVtk : 0 <= digits_value ds' * tk) by (apply Z.mul_nonneg_nonneg; lia).
    assert (Hctk : 0 <= digit_of c * tk) by (apply Z.mul_nonneg_nonneg; lia).
    rewrite (wrap64_small (digit_of c * tk)) by lia.
    rewrite (wrap64_small (digit_of c * tk + rest)) by lia.
    destruct (Z.gtb_spec (digit_of c * tk + rest) delta0) as [Hstop | Hmore].
    + (* the digit [c] is significant *)
      cbn [integral_loop_outcome dg_exponent dg_length].
      split; [| lia].
      exists 1, ds', (dropped ++ tail), (digit_of c).
      cbn [dg_buffer dg_length dg_exponent dg_distance dg_delta dg_rest dg_ten_kappa].
      rewrite digit_char_digit_of
        by (unfold is_digit; apply andb_true_intro; split; apply Z.leb_le; lia).
      repeat split; try assumption; try lia.
      * subst tk. rewrite mult_IZR, IZR_pow10 by exact Hn. ring.
      * replace (buf_len ds' + 1 - 1) with (buf_len ds') in Hlead by lia. exact Hlead.
    + (* drop [c] *)
      assert (Hds' : 1 <= buf_len ds').
      { destruct ds' as [| c' ds'']; [| unfold buf_len; cbn [length]; lia].
        exfalso. rewrite digits_value_nil in *. lia. }
      assert (Hlead' : 10 ^ (buf_len ds' - 1) <= digits_value ds').
      { replace (buf_len ds' + 1 - 1) with (buf_len ds' - 1 + 1) in Hlead by lia.
        rewrite pow10_succ in Hlead by lia.
        pose proof (pow10_pos (buf_len ds' - 1) ltac:(lia)). lia. }
      assert (Htk' : 10 ^ buf_len (c :: dropped) * 2 ^ s = tk * 10).
      { subst tk n. unfold buf_len. cbn [length]. rewrite Nat2Z.inj_succ.
        rewrite Z.pow_succ_r by lia. ring. }
      assert (Hnowrap : 0 <= tk * 10 < 2 ^ 64).
      { assert (tk <= digits_value ds' * tk).
        { pose proof (pow10_pos (buf_len ds' - 1) ltac:(lia)).
          replace tk with (1 * tk) at 1 by lia.
          apply Z.mul_le_mono_nonneg_r; lia. }
        lia. }
      rewrite (wrap64_small (tk * 10)) by exact Hnowrap.
      specialize (IH ds' (c :: dropped) tail (digit_of c * tk + rest)).
      cbv zeta in IH. rewrite Htk' in IH.
      replace (buf_len ds' + buf_len (c :: dropped)) with (buf_len ds' + 1 + n) in IH
        by (subst n; unfold buf_len; cbn [length]; lia).
      replace (buf_len (c :: dropped)) with (n + 1) in IH
        by (subst n; unfold buf_len; cbn [length]; lia).
      assert (Hout := IH Hds' ltac:(lia) Hall Hlead' ltac:(lia) ltac:(lia)).
      cbn [app] in Hout.
      destruct (DigitGen_integral_loop fuel _ _ _ _ _ _ _) as [st | [msg | |]];
        cbn [integral_loop_outcome] in *; try exact Hout.
      * destruct Hout as (Hpost & Hexp & Hl). repeat split; [exact Hpost | lia | lia].
      * lia.
Qed.
End IntegralLoop.

(** ** Rounding *)

Section Round.
Variables distance delta ten_kappa : Z.
Hypothesis Hdelta : delta < 2 ^ 64.
Hypothesis Hdist : 0 <= distance <= delta.
Hypothesis Htk : 0 < ten_kappa.

Lemma Grisu2Round_cond_true rest :
  0 <= rest <= delta ->
  Grisu2Round_cond distance delta ten_kappa rest = true ->
  rest + ten_kappa <= delta.
Proof.
  intros Hrest Hcond. unfold Grisu2Round_cond in Hcond.
  apply andb_prop in Hcond. destruct Hcond as [Hcond _].
  apply andb_prop in Hcond. destruct Hcond as [_ Hge].
  rewrite wrap64_small in Hge by lia.
  apply Z.geb_le in Hge. lia.
Qed.

Lemma Grisu2Round_cond_exact rest :
  0 <= rest <= delta ->
  Grisu2Round_cond_no_wrap distance delta ten_kappa rest.
Proof.
  intros Hrest Hlt. apply Z.ltb_lt in Hlt. unfold no_wrap.
  split; [lia |]. intros Hge. apply Z.geb_le in Hge.
  split; [lia |]. intros Hle. apply Z.leb_gt in Hle. lia.
Qed.

Lemma Grisu2Round_loop_spec (fuel : nat) :
  forall digit rest,
    0 <= rest <= delta ->
    digit * ten_kappa + rest > delta ->
    (Z.to_nat digit <= fuel)%nat ->
    exists k,
      0 <= k < digit
      /\ Grisu2Round_loop fuel distance delta ten_kappa digit rest
         = Ok (digit - k, rest + k * ten_kappa)
      /\ rest + k * ten_kappa <= delta.
Proof.
  induction fuel as [| fuel IH]; intros digit rest Hrest Hlink Hfuel;
    assert (Hdigit : 1 <= digit) by nia;
    cbn [Grisu2Round_loop];
    destruct (Grisu2Round_cond distance delta ten_kappa rest) eqn:Hcond.
  - lia.
  - exists 0. rewrite Z.sub_0_r, Z.mul_0_l, Z.add_0_r.
    repeat split; try lia.
  - pose proof (Grisu2Round_cond_true rest Hrest Hcond) as Hnext.
    destruct (Z.eqb_spec digit 0) as [H0 | _]; [lia |]. cbn [negb assert bind].
    rewrite (wrap64_small (rest + ten_kappa)) by lia.
    destruct (IH (digit - 1) (rest + ten_kappa)) as (k & Hk & Hrun & Hle);
      [lia | lia | lia |].
    exists (k + 1). rewrite Hrun. repeat split; try lia.
    do 2 f_equal; lia.
  - exists 0. rewrite Z.sub_0_r, Z.mul_0_l, Z.add_0_r.
    repeat split; try lia.
Qed.

Lemma Grisu2Round_visits_invariant digit0 rest0 digit rest :
  0 <= rest0 <= delta ->
  digit0 * ten_kappa + rest0 > delta ->
  Grisu2Round_visits distance delta ten_kappa digit0 rest0 digit rest ->
  0 <= rest <= delta /\ digit * ten_kappa + rest > delta.
Proof.
  intros Hrest Hlink Hvisits.
  induction Hvisits as [| digit rest _ [IHrest IHlink] Hcond].
  - split; assumption.
  - pose proof (Grisu2Round_cond_true rest IHrest Hcond) as Hnext.
    rewrite (wrap64_small (rest + ten_kappa)) by lia.
    split; lia.
Qed.
End Round.

Lemma decimal_length_range n : (1 <= decimal_length n <= 9)%nat.
Proof.
  unfold decimal_length.
  repeat match goal with
         | |- context [?a >=? ?b] => destruct (a >=? b)
         end; lia.
Qed.

Lemma Grisu2DigitGen_digits_outcome (fuel : nat) (buffer : list ascii)
    (L w H : DiyFp) :
  0 <= L.(f) <= w.(f) -> H.(f) < 2 ^ 64 ->
  17 <= buf_len buffer ->
  match Grisu2DigitGen_digits fuel buffer L w H with
  | Ok st =>
      kAlpha <= H.(e) <= kGamma /\ w.(e) = H.(e) /\ L.(e) = H.(e)
      /\ w.(f) <= H.(f) /\ L.(f) <= H.(f)
      /\ DigitGen_post (- H.(e)) H.(f) (H.(f) - L.(f)) (H.(f) - w.(f))
           (length buffer) st
      /\ forall N, 9 <= N -> wide_enough H.(f) (H.(f) - L.(f)) N -> dg_length st <= N
  | Fail _ => forall N, ~ DigitGen_pre L w H N fuel
  end.
Proof.
  intros HL HH Hroom.
  unfold Grisu2DigitGen_digits.
  destruct (Z.geb_spec w.(e) kAlpha) as [Ha | Ha]; cbn [assert bind];
    [| intros N Hpre; unfold DigitGen_pre in Hpre; lia].
  destruct (Z.leb_spec w.(e) kGamma) as [Hg | Hg]; cbn [assert bind];
    [| intros N Hpre; unfold DigitGen_pre in Hpre; lia].
  destruct (Z.eqb_spec w.(e) L.(e)) as [HeL | HeL]; cbn [assert bind];
    [| intros N Hpre; unfold DigitGen_pre in Hpre; lia].
  destruct (Z.eqb_spec w.(e) H.(e)) as [HeH | HeH]; cbn [assert bind];
    [| intros N Hpre; unfold DigitGen_pre in Hpre; lia].
  unfold Subtract.
  rewrite <- HeH, Z.eqb_refl. cbn [assert bind].
  destruct (Z.geb_spec H.(f) w.(f)) as [Hwf | Hwf]; cbn [assert bind];
    [| intros N Hpre; unfold DigitGen_pre in Hpre; lia].
  rewrite <- HeL, Z.eqb_refl. cbn [assert bind].
  destruct (Z.geb_spec H.(f) L.(f)) as [HLf | HLf]; cbn [assert bind f e];
    [| intros N Hpre; unfold DigitGen_pre in Hpre; lia].
  unfold kAlpha, kGamma in *.
  set (s := - w.(e)) in *.
  assert (Hs : 32 <= s <= 60) by (subst s; lia).
  pose proof (pow2_range s Hs) as Hpow.
  rewrite Z.shiftl_mul_pow2, Z.mul_1_l by lia.
  rewrite (wrap64_small (2 ^ s)) by lia.
  rewrite (wrap64_small (2 ^ s - 1)) by lia.
  rewrite (wrap64_small (H.(f) - w.(f))) by lia.
  rewrite (wrap64_small (H.(f) - L.(f))) by lia.
  rewrite land_ones_mod by lia.
  rewrite Z.shiftr_div_pow2 by lia.
  pose proof (Z.div_mod H.(f) (2 ^ s) ltac:(lia)) as Hdm.
  pose proof (Z.mod_pos_bound H.(f) (2 ^ s) ltac:(lia)) as Hp2.
  assert (Hp1 : 0 <= H.(f) / 2 ^ s < 2 ^ 32).
  { split; [apply Z.div_pos; lia |].
    apply Z.div_lt_upper_bound; [lia |].
    apply Z.lt_le_trans with (2 ^ 64); [lia |].
    change (2 ^ 64) with (2 ^ 32 * 2 ^ 32). apply Z.mul_le_mono_nonneg_r; lia. }
  rewrite (wrap32_small (H.(f) / 2 ^ s)) by exact Hp1.
  set (p1 := H.(f) / 2 ^ s) in *. set (p2 := H.(f) mod 2 ^ s) in *.
  destruct (Z.geb_spec p1 4) as [Hp14 | Hp14]; cbn [assert bind].
  2:{ intros N Hpre. unfold DigitGen_pre in Hpre.
      assert (2 ^ 62 <= H.(f)) by lia.
      assert (4 * 2 ^ s <= 2 ^ 62).
      { change (2 ^ 62) with (4 * 2 ^ 60). lia. }
      nia. }
  destruct (Z.leb_spec p1 798336123) as [Hp1max | Hp1max]; cbn [assert bind].
  2:{ intros N Hpre. unfold DigitGen_pre in Hpre.
      replace (- H.(e)) with s in Hpre by (subst s; lia). fold p1 in Hpre. lia. }
  destruct (GenerateIntegralDigits_spec buffer p1 ltac:(lia) ltac:(lia))
    as (ds & Hgen & Hlen & Hall & Hval & Hk & Hlt & Hlead).
  specialize (Hlead ltac:(lia)).
  rewrite Hgen. cbn [bind]. rewrite Z.sub_0_r.
  set (tail := skipn (decimal_length p1) buffer) in *.
  assert (Hbuf : length (ds ++ tail) = length buffer).
  { subst tail. rewrite length_app, length_skipn. unfold buf_len in Hroom. lia. }
  assert (Hlenk : buf_len ds = Z.of_nat (decimal_length p1)).
  { unfold buf_len. rewrite Hlen. reflexivity. }
  rewrite <- Hlenk.
  assert (Hwe : - H.(e) = s) by (subst s; lia).
  destruct (Z.gtb_spec p2 (H.(f) - L.(f))) as [Hfrac | Hint].
  - (* fractional digits *)
    pose proof (DigitGen_fraction_loop_spec s H.(f) (H.(f) - L.(f)) (H.(f) - w.(f))
                  Hs ltac:(lia) fuel ds tail 0 p2) as Hout.
    rewrite !Z.pow_0_r, !Z.mul_1_r in Hout.
    replace (mkDiyFp (2 ^ s) (w.(e))) with (mkDiyFp (2 ^ s) (- s))
      by (f_equal; subst s; lia).
    specialize (Hout ltac:(lia) Hall ltac:(rewrite Hlenk, Hval; exact Hlead)
                  ltac:(lia) ltac:(lia) ltac:(rewrite Hval; lia) ltac:(lia)).
    rewrite Hbuf in Hout.
    destruct (DigitGen_fraction_loop fuel _ _ _ _ _ _ _) as [st | [msg | |]];
      cbn [fraction_loop_outcome] in Hout.
    + destruct Hout as (Hpost & _ & Hwide).
      repeat split; try lia; try exact Hpost.
      intros N _ HN. apply Hwide. exact HN.
    + intros N Hpre. unfold DigitGen_pre in Hpre.
      destruct Hout as [_ Hout]. specialize (Hout N ltac:(tauto)). lia.
    + intros N Hpre. unfold DigitGen_pre in Hpre.
      specialize (Hout N ltac:(tauto)).
      unfold buf_len in *. rewrite Hbuf in Hout. lia.
    + intros N Hpre. unfold DigitGen_pre in Hpre.
      specialize (Hout N ltac:(tauto)). lia.
  - (* integral digits only *)
    rewrite Z.shiftl_mul_pow2 by lia.
    assert (HHf : p1 * 2 ^ s + p2 = H.(f)) by lia.
    rewrite (wrap64_small (p1 * 2 ^ s)) by lia.
    rewrite (wrap64_small (p1 * 2 ^ s + p2)) by lia.
    destruct (Z.gtb_spec (p1 * 2 ^ s + p2) (H.(f) - L.(f))) as [Hterm | Hterm];
      cbn [assert bind];
      [| intros N Hpre; unfold DigitGen_pre in Hpre; lia].
    destruct (Z.geb_spec (buf_len ds) 0) as [_ | Hbad]; [| lia].
    destruct (Z.leb_spec (buf_len ds) 9) as [_ | Hbad]; [| lia].
    cbn [assert bind].
    assert (Hd1 : 0 <= H.(f) - w.(f) <= H.(f) - L.(f)) by lia.
    assert (Hd2 : H.(f) - L.(f) < H.(f) < 2 ^ 64) by lia.
    pose proof (DigitGen_integral_loop_spec s H.(f) (H.(f) - L.(f)) (H.(f) - w.(f))
                  Hs Hd2 fuel ds [] tail p2) as Hout.
    cbv zeta in Hout. change (buf_len []) with 0 in Hout.
    rewrite Z.pow_0_r, Z.mul_1_l, Z.add_0_r in Hout. cbn [app] in Hout.
    specialize (Hout ltac:(lia) ltac:(lia) Hall ltac:(rewrite Hlenk, Hval; exact Hlead)
                  ltac:(rewrite Hval; lia) ltac:(lia)).
    rewrite Hbuf in Hout.
    destruct (DigitGen_integral_loop fuel _ _ _ _ _ _ _) as [st | [msg | |]];
      cbn [integral_loop_outcome] in Hout; try contradiction.
    + destruct Hout as (Hpost & _ & Hl).
      repeat split; try lia; try exact Hpost.
    + intros N Hpre. unfold DigitGen_pre in Hpre. lia.
Qed.

Lemma Grisu2Round_spec (fuel : nat) (s Hf delta0 distance0 : Z) (len0 : nat)
    (st : DigitGenLocals) :
  DigitGen_post s Hf delta0 distance0 len0 st ->
  0 <= distance0 <= delta0 ->
  (10 <= fuel)%nat ->
  exists (U : Z) (ds tail : list ascii) (d rest : Z),
    Grisu2Round fuel (dg_buffer st) (dg_length st) (dg_distance st)
      (dg_delta st) (dg_rest st) (dg_ten_kappa st)
    = Ok (ds ++ [digit_char d] ++ tail)
    /\ length (ds ++ [digit_char d] ++ tail) = len0
    /\ dg_length st = buf_len ds + 1
    /\ all_digits ds /\ 1 <= d <= 9
    /\ 1 <= U
    /\ Hf * U = (digits_value ds * 10 + d) * dg_ten_kappa st + rest
    /\ 0 <= rest <= delta0 * U
    /\ 10 ^ buf_len ds <= digits_value ds * 10 + d
    /\ IZR (dg_ten_kappa st)
       = (IZR (2 ^ s) * IZR U * powerRZ 10 (dg_exponent st))%R
    /\ -17 <= dg_exponent st <= 8.
Proof.
  intros (U & ds & tail & d & Hbuf & Hlen0 & Hlen & Hlen17 & Hall & Hd & HU & Hdelta
          & Hdistance & Hinv & Hrest & Hdelta64 & Hlink & Htk & Hreal & Hlead & Hexp)
         Hdist Hfuel.
  unfold Grisu2Round.
  pose proof (buf_len_nonneg ds) as Hds.
  assert (Hdd : 0 <= dg_distance st <= dg_delta st).
  { rewrite Hdelta, Hdistance. split.
    - apply Z.mul_nonneg_nonneg; lia.
    - apply Z.mul_le_mono_nonneg_r; lia. }
  destruct (Z.geb_spec (dg_length st) 1) as [_ | Hbad]; [| lia]. cbn [assert bind].
  destruct (Z.leb_spec (dg_distance st) (dg_delta st)) as [_ | Hbad]; [| lia].
  cbn [assert bind].
  destruct (Z.leb_spec (dg_rest st) (dg_delta st)) as [_ | Hbad]; [| lia].
  cbn [assert bind].
  destruct (Z.gtb_spec (dg_ten_kappa st) 0) as [_ | Hbad]; [| lia].
  cbn [assert bind].
  rewrite Hbuf, Hlen. replace (buf_len ds + 1 - 1) with (buf_len ds) by lia.
  cbn [app]. rewrite buf_read_app. cbn [bind].
  fold (digit_of (digit_char d)). rewrite digit_of_digit_char by lia.
  destruct (Grisu2Round_loop_spec (dg_distance st) (dg_delta st) (dg_ten_kappa st)
              Hdelta64 Htk fuel d (dg_rest st) Hrest Hlink ltac:(lia))
    as (k & Hk & Hrun & Hle).
  rewrite Hrun. cbn [bind]. fold (digit_char (d - k)).
  rewrite buf_write_app.
  exists U, ds, tail, (d - k), (dg_rest st + k * dg_ten_kappa st).
  repeat split; try assumption; try lia.
  - rewrite <- Hlen0, Hbuf. rewrite !length_app. reflexivity.
  - pose proof (pow10_pos (buf_len ds) Hds). 
    (* the leading digits are those of [ds], or [d - k >= 1] when there are none *)
    destruct ds as [| c ds'].
    + change (buf_len []) with 0 in *. rewrite digits_value_nil in *.
      rewrite Z.pow_0_r. lia.
    + assert (Hds1 : 1 <= buf_len (c :: ds')) by (unfold buf_len; cbn [length]; lia).
      replace (buf_len (c :: ds')) with (buf_len (c :: ds') - 1 + 1) in Hlead |- * by lia.
      rewrite pow10_succ in Hlead |- * by lia. lia.
Qed.

Lemma IZR_pow2_inv s : 0 <= s -> (IZR (2 ^ s) * powerRZ 2 (- s) = 1)%R.
Proof.
  intros Hs. rewrite IZR_pow2 by exact Hs.
  rewrite <- powerRZ2_add. replace (s + - s) with 0 by lia. reflexivity.
Qed.

Lemma powerRZ10_pos a : (0 < powerRZ 10 a)%R.
Proof. apply powerRZ_lt. lra. Qed.

(** From the integer relation kept by the digit generation to the interval
    of real numbers. *)
Lemma digits_in_interval (s Hf delta0 U B tk rest exponent : Z) :
  0 <= s -> 1 <= U ->
  Hf * U = B * tk + rest ->
  0 <= rest <= delta0 * U ->
  IZR tk = (IZR (2 ^ s) * IZR U * powerRZ 10 exponent)%R ->
  (IZR (Hf - delta0) * powerRZ 2 (- s) <= IZR B * powerRZ 10 exponent
   <= IZR Hf * powerRZ 2 (- s))%R.
Proof.
  intros Hs HU Hinv Hrest Hreal.
  pose proof (IZR_pow2_inv s Hs) as Hinvp.
  pose proof (powerRZ2_pos (- s)) as Hp.
  pose proof (powerRZ10_pos exponent) as Hx.
  set (p := powerRZ 2 (- s)) in *. set (x := powerRZ 10 exponent) in *.
  set (q := IZR (2 ^ s)) in *.
  assert (Hu : (1 <= IZR U)%R) by (apply IZR_le; exact HU).
  apply (f_equal IZR) in Hinv. rewrite plus_IZR, !mult_IZR, Hreal in Hinv.
  assert (Hr0 : (0 <= IZR rest)%R) by (apply IZR_le; lia).
  assert (Hr1 : (IZR rest <= IZR delta0 * IZR U)%R).
  { rewrite <- mult_IZR. apply IZR_le. lia. }
  rewrite minus_IZR.
  (* [B * x = Hf * p - rest * p / U] *)
  assert (HB : (IZR B * x * IZR U = IZR Hf * p * IZR U - IZR rest * p)%R).
  { assert (Hstep : (IZR Hf * IZR U * p = IZR B * (q * p) * IZR U * x + IZR rest * p)%R).
    { rewrite Hinv. ring. }
    rewrite Hinvp in Hstep. lra. }
  assert (Hrp0 : (0 <= IZR rest * p)%R) by (apply Rmult_le_pos; lra).
  assert (Hrp1 : (IZR rest * p <= IZR delta0 * IZR U * p)%R)
    by (apply Rmult_le_compat_r; lra).
  split.
  - apply (Rmult_le_reg_r (IZR U)); [lra |]. rewrite HB. lra.
  - apply (Rmult_le_reg_r (IZR U)); [lra |]. rewrite HB. lra.
Qed.

Lemma Grisu2DigitGen_spec (fuel : nat) (buffer : list ascii) (L w H : DiyFp)
    (N : Z) :
  DigitGen_pre L w H N fuel ->
  H.(f) < 2 ^ 64 ->
  17 <= buf_len buffer ->
  exists r,
    Grisu2DigitGen fuel buffer L w H = Ok r
    /\ DigitGen_result L H N (length buffer) r.
Proof.
  intros Hpre HH Hroom.
  pose proof Hpre as (Hwe & HeL & HeH & HL1 & HLw & HwH & _ & _ & Hwide & HN & Hfuel).
  pose proof (Grisu2DigitGen_digits_outcome fuel buffer L w H ltac:(lia) HH Hroom)
    as Hout.
  unfold Grisu2DigitGen.
  destruct (Grisu2DigitGen_digits fuel buffer L w H) as [st | why].
  2:{ exfalso. exact (Hout N Hpre). }
  destruct Hout as (He & _ & _ & _ & _ & Hpost & Hlen).
  specialize (Hlen N ltac:(lia) Hwide).
  cbn [bind].
  destruct (Grisu2Round_spec fuel _ _ _ _ _ st Hpost ltac:(lia) ltac:(lia))
    as (U & ds & tail & d & rest & Hrun & Hlen0 & Hdl & Hall & Hd & HU & Hinv
        & Hrest & Hlead & Hreal & Hexp).
  rewrite Hrun. cbn [bind].
  eexists. split; [reflexivity |].
  unfold DigitGen_result.
  exists (ds ++ [digit_char d]), tail.
  assert (Hval : digits_value (ds ++ [digit_char d]) = digits_value ds * 10 + d).
  { rewrite digits_value_snoc, digit_of_digit_char by lia. reflexivity. }
  pose proof (buf_len_nonneg ds) as Hds.
  unfold kAlpha, kGamma in *.
  pose proof (digits_in_interval (- H.(e)) H.(f) (H.(f) - L.(f)) U
                (digits_value ds * 10 + d) (dg_ten_kappa st) rest (dg_exponent st)
                ltac:(lia) HU Hinv Hrest Hreal) as Hreals.
  rewrite Z.opp_involutive in Hreals.
  replace (H.(f) - (H.(f) - L.(f))) with L.(f) in Hreals by lia.
  repeat split; try lia.
  - apply app_assoc.
  - rewrite buf_len_snoc. lia.
  - apply all_digits_app. split; [exact Hall |].
    repeat constructor. apply is_digit_digit_char. lia.
  - rewrite Hval, Hdl. replace (buf_len ds + 1 - 1) with (buf_len ds) by lia.
    exact Hlead.
  - rewrite Hval. unfold DiyFp_value.
    replace L.(e) with H.(e) by lia. apply Hreals.
  - rewrite Hval. unfold DiyFp_value. apply Hreals.
Qed.

Lemma buf_write_frame (buffer : list ascii) i c buffer' :
  buf_write buffer i c = Ok buffer' ->
  length buffer' = length buffer
  /\ forall j, j <> Z.to_nat i -> nth_error buffer' j = nth_error buffer j.
Proof.
  unfold buf_write, buf_store. change (buf_len [c]) with 1.
  destruct (Z.leb_spec 0 i) as [Hi | Hi]; [| discriminate].
  destruct (Z.leb_spec (i + 1) (buf_len buffer)) as [Hlen | Hlen]; [| discriminate].
  cbn [andb]. intros Heq. injection Heq as <-.
  destruct (buffer_split buffer i 1 Hi ltac:(lia))
    as (pre & old & post & Hbuf & Hpre & Hold & Hpre' & Hpost').
  destruct old as [| c0 [| ? ?]]; try discriminate.
  rewrite <- Hpre', <- Hpost'. cbn [app length].
  assert (Hi' : Z.to_nat i = length pre) by (unfold buf_len in Hpre; lia).
  rewrite Hbuf. cbn [app]. split.
  - rewrite !length_app. reflexivity.
  - intros j Hj. rewrite Hi' in Hj.
    destruct (Nat.lt_ge_cases j (length pre)) as [Hlt | Hge].
    + rewrite !nth_error_app1 by exact Hlt. reflexivity.
    + rewrite !nth_error_app2 by exact Hge.
      destruct (j - length pre)%nat as [| j'] eqn:Hsub; [lia | reflexivity].
Qed.

Lemma buf_read_Ok (buffer : list ascii) i c :
  buf_read buffer i = Ok c ->
  exists pre post, buffer = pre ++ c :: post /\ buf_len pre = i.
Proof.
  unfold buf_read, buf_load.
  destruct (Z.leb_spec 0 i) as [Hi | Hi]; [| discriminate].
  destruct (Z.leb_spec (i + 1) (buf_len buffer)) as [Hlen | Hlen];
    [| rewrite andb_false_r; discriminate].
  cbn [andb Z.leb bind].
  destruct (buffer_split buffer i 1 Hi ltac:(lia))
    as (pre & old & post & Hbuf & Hpre & Hold & Hpre' & _).
  destruct old as [| c0 [| ? ?]]; try discriminate.
  assert (Hi' : Z.to_nat i = length pre) by (unfold buf_len in Hpre; lia).
  rewrite Hbuf, Hi'. rewrite skipn_app, skipn_all, Nat.sub_diag.
  cbn. intros Heq. injection Heq as <-.
  exists pre, post. split; [reflexivity | exact Hpre].
Qed.

Section RoundOutcome.
Variables distance delta ten_kappa : Z.
Hypothesis Hdelta : delta < 2 ^ 64.
Hypothesis Htk : 0 < ten_kappa.

(** Started on a decimal digit, the loop ends before the fuel does: with
    the decremented digit, or at the assertion. *)
Lemma Grisu2Round_loop_outcome (fuel : nat) :
  forall digit rest,
    0 <= rest <= delta ->
    0 <= digit ->
    (Z.to_nat digit < fuel)%nat ->
    match Grisu2Round_loop fuel distance delta ten_kappa digit rest with
    | Ok (digit', _) => 0 <= digit' <= digit
    | Fail why => why = AssertionFailed "digit != 0"
    end.
Proof.
  induction fuel as [| fuel IH]; intros digit rest Hrest Hdigit Hfuel; [lia |].
  cbn [Grisu2Round_loop].
  destruct (Grisu2Round_cond distance delta ten_kappa rest) eqn:Hcond; [| lia].
  pose proof (Grisu2Round_cond_true distance delta ten_kappa Hdelta rest Hrest Hcond)
    as Hnext.
  destruct (Z.eqb_spec digit 0) as [H0 | Hne]; cbn [negb assert bind]; [reflexivity |].
  rewrite (wrap64_small (rest + ten_kappa)) by lia.
  specialize (IH (digit - 1) (rest + ten_kappa) ltac:(lia) ltac:(lia) ltac:(lia)).
  destruct (Grisu2Round_loop fuel _ _ _ _ _) as [[digit' rest'] | why];
    [lia | exact IH].
Qed.
End RoundOutcome.

(** C10: a call of [Grisu2Round] that satisfies its preconditions, on a
    buffer whose byte at [length - 1] is a decimal digit, either stops at the
    assertion [digit != 0] or returns the buffer with at most the byte at
    [length - 1] modified: the size of the buffer and every other byte are
    unchanged; and the digit count [Grisu2DigitGen] returns is the one it had
    before the rounding step. *)
Theorem Grisu2Round_frame (fuel : nat) (buffer : list ascii)
    (length distance delta rest ten_kappa : Z) (c : ascii) :
  1 <= length ->
  distance <= delta -> delta < 2 ^ 64 ->
  0 <= rest <= delta ->
  0 < ten_kappa ->
  buf_read buffer (length - 1) = Ok c -> is_digit c = true ->
  (10 <= fuel)%nat ->
  match Grisu2Round fuel buffer length distance delta rest ten_kappa with
  | Ok buffer' =>
      List.length buffer' = List.length buffer
      /\ forall i, i <> Z.to_nat (length - 1) ->
                   nth_error buffer' i = nth_error buffer i
  | Fail why => why = AssertionFailed "digit != 0"
  end
  /\ forall L w H st r,
       Grisu2DigitGen_digits fuel buffer L w H = Ok st ->
       Grisu2DigitGen fuel buffer L w H = Ok r ->
       snd (fst r) = dg_length st.
Proof.
  intros Hlen Hdist Hdelta Hrest Htk Hread Hdigit Hfuel. split.
  - unfold Grisu2Round.
    destruct (Z.geb_spec length 1) as [_ | Hbad]; [| lia]. cbn [assert bind].
    destruct (Z.leb_spec distance delta) as [_ | Hbad]; [| lia]. cbn [assert bind].
    destruct (Z.leb_spec rest delta) as [_ | Hbad]; [| lia]. cbn [assert bind].
    destruct (Z.gtb_spec ten_kappa 0) as [_ | Hbad]; [| lia]. cbn [assert bind].
    rewrite Hread. cbn [bind]. fold (digit_of c).
    pose proof (is_digit_range c Hdigit) as Hc.
    pose proof (Grisu2Round_loop_outcome distance delta ten_kappa Hdelta Htk fuel
                  (digit_of c) rest Hrest ltac:(lia) ltac:(lia)) as Hout.
    destruct (Grisu2Round_loop fuel _ _ _ _ _) as [[digit' rest'] | why];
      cbn [bind]; [| exact Hout].
    destruct (buf_read_Ok buffer (length - 1) c Hread) as (pre & post & Hbuf & Hpre).
    destruct (buf_write buffer (length - 1) (char_of_Z (48 + digit'))) as [buffer' | why] eqn:Hwrite.
    + apply (buf_write_frame _ _ _ _ Hwrite).
    + exfalso. rewrite Hbuf, <- Hpre, buf_write_app in Hwrite. discriminate.
  - intros L w H st r Hdigits Hrun. unfold Grisu2DigitGen in Hrun.
    rewrite Hdigits in Hrun. cbn [bind] in Hrun.
    destruct (Grisu2Round fuel _ _ _ _ _ _) as [buffer' | why]; [| discriminate].
    cbn [bind] in Hrun. injection Hrun as <-. reflexivity.
Qed.

Lemma Grisu2Round_frame_witness :
  match Grisu2Round 10 (list_ascii_of_string "1239") 4 10 25 3 8 with
  | Ok buffer' =>
      List.length buffer' = 4%nat
      /\ forall i, i <> 3%nat ->
                   nth_error buffer' i = nth_error (list_ascii_of_string "1239") i
  | Fail why => why = AssertionFailed "digit != 0"
  end.
Proof.
  exact (proj1 (Grisu2Round_frame 10 (list_ascii_of_string "1239") 4 10 25 3 8 "9"%char
                  ltac:(lia) ltac:(lia) ltac:(lia) ltac:(lia) ltac:(lia)
                  eq_refl eq_refl ltac:(lia))).
Defined.

(** C7: in the call of [Grisu2Round] that [Grisu2DigitGen] makes (given
    [L.f <= w.f] and 64-bit significands, in a buffer of at least 17 bytes),
    the four entry assertions hold, the last digit is a decimal digit, and at
    every evaluation of the loop condition the three tests compute without
    wrap-around; whenever the loop body executes the current digit is not
    zero, so that [Grisu2Round] returns without a failed assertion. *)
Theorem Grisu2Round_digit_nonzero (fuel : nat) (buffer : list ascii)
    (L w H : DiyFp) (st : DigitGenLocals) :
  0 <= L.(f) <= w.(f) -> H.(f) < 2 ^ 64 ->
  17 <= buf_len buffer ->
  Grisu2DigitGen_digits fuel buffer L w H = Ok st ->
  dg_length st >= 1
  /\ dg_distance st <= dg_delta st
  /\ dg_rest st <= dg_delta st
  /\ dg_ten_kappa st > 0
  /\ exists c,
       buf_read (dg_buffer st) (dg_length st - 1) = Ok c
       /\ is_digit c = true
       /\ (forall digit rest,
             Grisu2Round_visits (dg_distance st) (dg_delta st) (dg_ten_kappa st)
               (digit_of c) (dg_rest st) digit rest ->
             Grisu2Round_cond_no_wrap (dg_distance st) (dg_delta st)
               (dg_ten_kappa st) rest
             /\ (Grisu2Round_cond (dg_distance st) (dg_delta st)
                   (dg_ten_kappa st) rest = true -> digit <> 0))
       /\ (forall fuel', (10 <= fuel')%nat ->
             exists buffer',
               Grisu2Round fuel' (dg_buffer st) (dg_length st) (dg_distance st)
                 (dg_delta st) (dg_rest st) (dg_ten_kappa st) = Ok buffer').
Proof.
  intros HL HH Hroom Hrun.
  pose proof (Grisu2DigitGen_digits_outcome fuel buffer L w H HL HH Hroom) as Hout.
  rewrite Hrun in Hout.
  destruct Hout as (_ & _ & _ & HwH & HLH & Hpost & _).
  pose proof Hpost as (U & ds & tail & d & Hbuf & Hlen0 & Hlen & Hlen17 & Hall & Hd & HU
                       & Hdelta & Hdistance & Hinv & Hrest & Hdelta64 & Hlink & Htk
                       & Hreal & Hlead & Hexp).
  pose proof (buf_len_nonneg ds) as Hds.
  assert (Hdd : 0 <= dg_distance st <= dg_delta st).
  { rewrite Hdelta, Hdistance. split.
    - apply Z.mul_nonneg_nonneg; lia.
    - apply Z.mul_le_mono_nonneg_r; lia. }
  repeat (split; [lia |]).
  exists (digit_char d).
  rewrite digit_of_digit_char by lia.
  split; [| split; [| split]].
  - rewrite Hbuf, Hlen. replace (buf_len ds + 1 - 1) with (buf_len ds) by lia.
    apply buf_read_app.
  - apply is_digit_digit_char. lia.
  - intros digit rest Hvisits.
    destruct (Grisu2Round_visits_invariant _ _ _ Hdelta64 Htk d (dg_rest st) digit rest
                Hrest Hlink Hvisits) as [Hr Hl].
    split.
    + apply Grisu2Round_cond_exact; assumption.
    + intros Hcond ->. lia.
  - intros fuel' Hfuel'.
    destruct (Grisu2Round_spec fuel' _ _ _ _ _ st Hpost ltac:(lia) Hfuel')
      as (U' & ds' & tail' & d' & rest' & Hround & _).
    eexists. exact Hround.
Qed.

Lemma Grisu2Round_digit_nonzero_witness :
  exists st,
    Grisu2DigitGen_digits 20 (blank 17) sample_L sample_w sample_H = Ok st
    /\ dg_length st >= 1 /\ dg_distance st <= dg_delta st.
Proof.
  eexists. split; [vm_compute; reflexivity |].
  match goal with
  | |- dg_length ?st >= 1 /\ _ =>
      pose proof (Grisu2Round_digit_nonzero 20 (blank 17) sample_L sample_w sample_H st)
        as Hthm
  end.
  assert (HL : 0 <= sample_L.(f) <= sample_w.(f)) by (simpl; lia).
  assert (HH : sample_H.(f) < 2 ^ 64) by (simpl; lia).
  assert (Hroom : 17 <= buf_len (blank 17)) by (unfold buf_len; simpl; lia).
  destruct (Hthm HL HH Hroom eq_refl) as (H1 & H2 & _).
  split; [exact H1 | exact H2].
Defined.

(** ** The assertion on [p2] *)

Lemma bind_not_fail {A B : Type} (c : result A) (k : A -> result B) why :
  c <> Fail why -> (forall a, k a <> Fail why) -> bind c k <> Fail why.
Proof.
  intros Hc Hk. destruct c as [a | why']; cbn [bind].
  - apply Hk.
  - intros Heq. apply Hc. injection Heq as ->. reflexivity.
Qed.

Lemma assert_not_fail (cond : bool) (expr expr' : string) :
  expr <> expr' -> assert cond expr <> Fail (AssertionFailed expr').
Proof.
  intros Hne. unfold assert. destruct cond; [discriminate |].
  intros Heq. injection Heq as Heq. contradiction.
Qed.

(** Goals of the shape [c <> Fail (AssertionFailed "...")], for code that
    has no such assertion. *)
Ltac other_assertions_with tac :=
  repeat first
    [ tac
    | apply bind_not_fail; [| intros ?]
    | apply assert_not_fail; discriminate
    | progress cbv beta iota
    | match goal with
      | |- Ok _ <> Fail _ => discriminate
      | |- Fail OutOfBounds <> Fail _ => discriminate
      | |- Fail OutOfFuel <> Fail _ => discriminate
      | |- (match ?x with _ => _ end) <> Fail _ => destruct x
      | |- (if ?b then _ else _) <> Fail _ => destruct b
      | |- (let '(_, _) := ?x in _) <> Fail _ => destruct x
      end ].

Ltac other_assertions := other_assertions_with fail.

Lemma buf_store_no_assertion buffer i cs expr :
  buf_store buffer i cs <> Fail (AssertionFailed expr).
Proof. unfold buf_store. other_assertions. Qed.

Lemma buf_load_no_assertion buffer i n expr :
  buf_load buffer i n <> Fail (AssertionFailed expr).
Proof. unfold buf_load. other_assertions. Qed.

Lemma buf_read_no_assertion buffer i expr :
  buf_read buffer i <> Fail (AssertionFailed expr).
Proof.
  unfold buf_read. apply bind_not_fail; [apply buf_load_no_assertion |].
  intros cs. destruct cs; discriminate.
Qed.

Lemma buf_write_no_assertion buffer i c expr :
  buf_write buffer i c <> Fail (AssertionFailed expr).
Proof. apply buf_store_no_assertion. Qed.

Ltac buffer_accesses :=
  first [ apply buf_load_no_assertion | apply buf_store_no_assertion
        | apply buf_read_no_assertion | apply buf_write_no_assertion ].

Lemma GenerateIntegralDigits_not_p2 buffer n :
  GenerateIntegralDigits buffer n <> Fail p2_assertion.
Proof.
  unfold GenerateIntegralDigits, L_9_digits, L_8_digits, L_7_digits, L_6_digits,
    L_5_digits, L_4_digits, L_3_digits, L_2_digits, L_1_digit, p2_assertion.
  other_assertions_with buffer_accesses.
Qed.

Lemma Grisu2Round_loop_not_p2 fuel distance delta ten_kappa :
  forall digit rest,
    Grisu2Round_loop fuel distance delta ten_kappa digit rest <> Fail p2_assertion.
Proof.
  induction fuel as [| fuel IH]; intros digit rest; cbn [Grisu2Round_loop];
    unfold p2_assertion; other_assertions.
  apply IH.
Qed.

Lemma Grisu2Round_not_p2 fuel buffer length distance delta rest ten_kappa :
  Grisu2Round fuel buffer length distance delta rest ten_kappa <> Fail p2_assertion.
Proof.
  unfold Grisu2Round, p2_assertion. other_assertions_with buffer_accesses.
  apply Grisu2Round_loop_not_p2.
Qed.

Lemma DigitGen_integral_loop_not_p2 fuel buffer k :
  forall n distance delta rest ten_kappa,
    DigitGen_integral_loop fuel buffer k n distance delta rest ten_kappa
    <> Fail p2_assertion.
Proof.
  induction fuel as [| fuel IH]; intros n distance delta rest ten_kappa;
    cbn [DigitGen_integral_loop]; unfold p2_assertion;
    other_assertions_with buffer_accesses.
  apply IH.
Qed.

(** In the loop over the fractional digits [p2] stays below [2^-e]. *)
Lemma DigitGen_fraction_loop_not_p2 fuel s :
  32 <= s <= 60 ->
  forall buffer length m p2 delta distance,
    0 <= p2 < 2 ^ s ->
    DigitGen_fraction_loop fuel (mkDiyFp (2 ^ s) (- s)) buffer length m p2 delta distance
    <> Fail p2_assertion.
Proof.
  intros Hs. pose proof (pow2_range s Hs) as Hpow.
  induction fuel as [| fuel IH]; intros buffer length m p2 delta distance Hp2;
    cbn [DigitGen_fraction_loop]; [discriminate |].
  apply bind_not_fail; [apply assert_not_fail; discriminate | intros _].
  change (UINT64_MAX / 10) with 1844674407370955161.
  destruct (Z.leb_spec p2 1844674407370955161) as [_ | Hbad]; [| lia].
  cbn [assert bind e f].
  apply bind_not_fail; [apply assert_not_fail; discriminate | intros _].
  apply bind_not_fail; [apply buf_write_no_assertion | intros buffer'].
  match goal with |- (if ?b then _ else _) <> _ => destruct b end; [discriminate |].
  apply IH.
  rewrite (wrap64_small (2 ^ s - 1)) by lia.
  rewrite land_ones_mod by lia.
  apply Z.mod_pos_bound. lia.
Qed.

(** C8: in a call of [Grisu2DigitGen] whose shared exponent lies in
    [[alpha, gamma]], the assertion [p2 <= UINT64_MAX / 10] holds at every
    iteration of the loop over the fractional digits, whatever the fuel; and
    a [p2] that passes it is multiplied by ten without overflow. *)
Theorem Grisu2DigitGen_p2_no_overflow (fuel : nat) (buffer : list ascii)
    (L w H : DiyFp) :
  kAlpha <= w.(e) <= kGamma -> w.(e) = L.(e) -> w.(e) = H.(e) ->
  Grisu2DigitGen fuel buffer L w H
  <> Fail (AssertionFailed "p2 <= UINT64_MAX / 10")
  /\ forall p2, 0 <= p2 -> (p2 <=? UINT64_MAX / 10) = true ->
                wrap64 (p2 * 10) = p2 * 10.
Proof.
  intros He HeL HeH. unfold kAlpha, kGamma in He. split.
  - fold p2_assertion. unfold Grisu2DigitGen.
    apply bind_not_fail; [| intros st; apply bind_not_fail;
                              [apply Grisu2Round_not_p2 | intros ?; discriminate]].
    unfold Grisu2DigitGen_digits.
    do 4 (apply bind_not_fail; [apply assert_not_fail; discriminate | intros _]).
    apply bind_not_fail; [unfold Subtract, p2_assertion; other_assertions | intros dw].
    apply bind_not_fail; [unfold Subtract, p2_assertion; other_assertions | intros dl].
    do 2 (apply bind_not_fail; [apply assert_not_fail; discriminate | intros _]).
    apply bind_not_fail; [apply GenerateIntegralDigits_not_p2 | intros [buffer' endp]].
    cbv beta iota.
    match goal with |- (if ?b then _ else _) <> _ => destruct b end.
    + cbn [e f].
      set (s := - H.(e)).
      assert (Hs : 32 <= s <= 60) by (subst s; lia).
      pose proof (pow2_range s Hs) as Hpow.
      rewrite Z.shiftl_mul_pow2, Z.mul_1_l by lia.
      rewrite (wrap64_small (2 ^ s)) by lia.
      replace H.(e) with (- s) by (subst s; lia).
      apply DigitGen_fraction_loop_not_p2; [exact Hs |].
      rewrite (wrap64_small (2 ^ s - 1)) by lia.
      rewrite land_ones_mod by lia.
      apply Z.mod_pos_bound. lia.
    + do 3 (apply bind_not_fail; [apply assert_not_fail; discriminate | intros _]).
      apply DigitGen_integral_loop_not_p2.
  - intros p2 Hp2 Hle. apply Z.leb_le in Hle.
    change (UINT64_MAX / 10) with 1844674407370955161 in Hle.
    apply wrap64_small. lia.
Qed.

Lemma Grisu2DigitGen_p2_no_overflow_witness :
  kAlpha <= sample_w.(e) <= kGamma
  /\ Grisu2DigitGen 20 (blank 17) sample_L sample_w sample_H
     <> Fail (AssertionFailed "p2 <= UINT64_MAX / 10").
Proof.
  assert (He : kAlpha <= sample_w.(e) <= kGamma) by (unfold kAlpha, kGamma; simpl; lia).
  split; [exact He |].
  exact (proj1 (Grisu2DigitGen_p2_no_overflow 20 (blank 17) sample_L sample_w sample_H
                  He eq_refl eq_refl)).
Defined.

(** ** The scaled boundaries *)

Lemma mulhi_round_bounds a c :
  a * c - 2 ^ 63 < 2 ^ 64 * mulhi_round a c <= a * c + 2 ^ 63.
Proof.
  unfold mulhi_round.
  pose proof (Z.div_mod (a * c + 2 ^ 63) (2 ^ 64) ltac:(lia)) as Hdm.
  pose proof (Z.mod_pos_bound (a * c + 2 ^ 63) (2 ^ 64) ltac:(lia)) as Hm.
  lia.
Qed.

Section ScaledBoundaries.
(* [a] is the significand of [v], [a + h] and [a - below] those of the
   boundaries, [c] the cached power, [T = 10^(N-1)]. *)
Variables a h below c T : Z.
Hypothesis Ha : 2 ^ 63 <= a.
Hypothesis Hah : a + h < 2 ^ 64.
Hypothesis Hh : 2 ^ 10 <= h.
Hypothesis Hbelow : 2 ^ 9 <= below <= h.
Hypothesis Hc : 2 ^ 63 < c < 2 ^ 64.
Hypothesis HT : 0 < T.
Hypothesis Hwide : a + h <= (h + below - 6) * T.

Let w_plus := mulhi_round (a + h) c.
Let w_mid := mulhi_round a c.
Let w_minus := mulhi_round (a - below) c.

Lemma scaled_boundaries :
  1 <= w_minus + 1 /\ w_minus + 1 <= w_mid /\ w_mid <= w_plus - 1
  /\ 2 ^ 62 <= w_plus - 1
  /\ w_plus - 1 <= c - 2
  /\ w_plus < 2 ^ 64
  /\ w_plus - 1 <= (w_plus - 1 - (w_minus + 1)) * T
  /\ 2 ^ 64 * (w_plus - 1) <= (a + h) * c - 2 ^ 63
  /\ (a - below) * c + 2 ^ 63 < 2 ^ 64 * (w_minus + 1).
Proof.
  pose proof (mulhi_round_bounds (a + h) c) as Hp.
  pose proof (mulhi_round_bounds a c) as Hm.
  pose proof (mulhi_round_bounds (a - below) c) as Hn.
  fold w_plus in Hp. fold w_mid in Hm. fold w_minus in Hn.
  assert (Hhc : 2 ^ 10 * c <= h * c) by (apply Z.mul_le_mono_nonneg_r; lia).
  assert (Hbc : 2 ^ 9 * c <= below * c) by (apply Z.mul_le_mono_nonneg_r; lia).
  assert (Hac : 2 ^ 63 * c <= a * c) by (apply Z.mul_le_mono_nonneg_r; lia).
  assert (Hac' : (a + h) * c <= (2 ^ 64 - 1) * c) by (apply Z.mul_le_mono_nonneg_r; lia).
  assert (Hbc' : below * c <= a * c) by (apply Z.mul_le_mono_nonneg_r; lia).
  assert (Hwc : (a + h) * c <= (h + below - 6) * T * c)
    by (apply Z.mul_le_mono_nonneg_r; lia).
  assert (HTc : 2 ^ 63 * T <= c * T) by (apply Z.mul_le_mono_nonneg_r; lia).
  replace ((a + h) * c) with (a * c + h * c) in * by ring.
  replace ((a - below) * c) with (a * c - below * c) in * by ring.
  replace ((h + below - 6) * T * c) with (T * (h * c) + T * (below * c) - 6 * (c * T))
    in Hwc by ring.
  assert (Hdelta : 2 ^ 64 * (w_plus - 1 - (w_minus + 1)) > h * c + below * c - 3 * 2 ^ 64)
    by lia.
  assert (HdT : 2 ^ 64 * ((w_plus - 1 - (w_minus + 1)) * T)
                >= (h * c + below * c - 3 * 2 ^ 64) * T).
  { replace (2 ^ 64 * ((w_plus - 1 - (w_minus + 1)) * T))
      with ((2 ^ 64 * (w_plus - 1 - (w_minus + 1))) * T) by ring.
    apply Z.le_ge. apply Z.mul_le_mono_nonneg_r; lia. }
  replace ((h * c + below * c - 3 * 2 ^ 64) * T)
    with (T * (h * c) + T * (below * c) - 3 * 2 ^ 64 * T) in HdT by ring.
  repeat split; try lia.
Qed.
End ScaledBoundaries.

(** ** Accuracy of the cached powers *)

Lemma powerRZ_split_max (b : Z) (z : Z) :
  (0 < IZR b)%R ->
  IZR (b ^ Z.max z 0) = (powerRZ (IZR b) z * IZR (b ^ Z.max (- z) 0))%R.
Proof.
  intros Hb.
  assert (Hpow : forall n, 0 <= n -> IZR (b ^ n) = powerRZ (IZR b) n).
  { intros n Hn. rewrite <- (Z2Nat.id n) by exact Hn.
    rewrite <- pow_IZR. apply pow_powerRZ. }
  rewrite !Hpow by lia.
  rewrite <- powerRZ_add by lra.
  f_equal. lia.
Qed.

Lemma cached_accurate_real (c : CachedPower.t) :
  cached_accurate c = true ->
  (Rabs (IZR (CachedPower.f c) * powerRZ 2 (CachedPower.e c)
         - powerRZ 10 (CachedPower.k c))
   <= powerRZ 2 (CachedPower.e c - 1))%R.
Proof.
  unfold cached_accurate. destruct c as [fc ec ck]. cbn [CachedPower.f CachedPower.e CachedPower.k].
  intros Hacc. apply Z.leb_le in Hacc.
  apply IZR_le in Hacc.
  rewrite !mult_IZR, abs_IZR, minus_IZR, !mult_IZR in Hacc.
  rewrite (powerRZ_split_max 2 ec), (powerRZ_split_max 10 ck) in Hacc by lra.
  set (x := powerRZ 2 ec) in *. set (y := powerRZ 10 ck) in *.
  assert (Hs2 : (0 < IZR (2 ^ Z.max (- ec) 0))%R).
  { apply IZR_lt. apply Z.pow_pos_nonneg; lia. }
  assert (Hs10 : (0 < IZR (10 ^ Z.max (- ck) 0))%R).
  { apply IZR_lt. apply Z.pow_pos_nonneg; lia. }
  set (s2 := IZR (2 ^ Z.max (- ec) 0)) in *.
  set (s10 := IZR (10 ^ Z.max (- ck) 0)) in *.
  replace (powerRZ 2 (ec - 1)) with (x / 2)%R.
  2:{ unfold x. replace ec with (1 + (ec - 1)) at 1 by lia.
      rewrite powerRZ2_add. simpl. field. }
  replace (IZR fc * (x * s2 * s10) - y * s10 * s2)%R
    with ((IZR fc * x - y) * (s2 * s10))%R in Hacc by ring.
  rewrite Rabs_mult in Hacc.
  rewrite (Rabs_pos_eq (s2 * s10)) in Hacc by (apply Rmult_le_pos; lra).
  assert (Hss : (0 < s2 * s10)%R) by (apply Rmult_lt_0_compat; lra).
  apply (Rmult_le_reg_r (s2 * s10)); [exact Hss |].
  lra.
Qed.

Lemma cached_power_grisu_ok_all :
  forall e, -1137 <= e <= 960 -> cached_power_grisu_ok e = true.
Proof.
  intros e He.
  apply (Z_range_forallb cached_power_grisu_ok (-1137) 2098).
  - vm_compute. reflexivity.
  - lia.
Qed.

Lemma GetCachedPowerForBinaryExponent_spec (e : Z) :
  -1137 <= e <= 960 ->
  exists c,
    GetCachedPowerForBinaryExponent e = Ok c
    /\ 2 ^ 63 < CachedPower.f c < 2 ^ 64
    /\ kAlpha <= CachedPower.e c + e + 64 <= kGamma
    /\ (CachedPower.f c - 1) / 2 ^ (- (CachedPower.e c + e + 64)) <= 798336123
    /\ -300 <= CachedPower.k c <= 324
    /\ (Rabs (IZR (CachedPower.f c) * powerRZ 2 (CachedPower.e c)
              - powerRZ 10 (CachedPower.k c))
        <= powerRZ 2 (CachedPower.e c - 1))%R.
Proof.
  intros He. pose proof (cached_power_grisu_ok_all e He) as Hok.
  unfold cached_power_grisu_ok in Hok.
  destruct (GetCachedPowerForBinaryExponent e) as [c | ]; [| discriminate].
  cbv zeta in Hok.
  repeat match type of Hok with
         | (_ && _) = true => apply andb_prop in Hok; destruct Hok as [Hok ?]
         end.
  repeat match goal with
         | H : (_ <? _) = true |- _ => apply Z.ltb_lt in H
         | H : (_ <=? _) = true |- _ => apply Z.leb_le in H
         end.
  exists c. unfold kAlpha, kGamma.
  repeat split; try lia.
  apply cached_accurate_real. assumption.
Qed.

Lemma Multiply_mulhi_round x y :
  0 <= x.(f) < 2 ^ 64 -> 0 <= y.(f) < 2 ^ 64 ->
  Multiply x y = mkDiyFp (mulhi_round x.(f) y.(f)) (x.(e) + y.(e) + 64).
Proof.
  intros Hx Hy. unfold Multiply. rewrite Multiply_uint128_spec by assumption.
  reflexivity.
Qed.

Lemma Rabs_le_between x a : (Rabs x <= a)%R -> (- a <= x <= a)%R.
Proof. unfold Rabs. destruct (Rcase_abs x); lra. Qed.

(** The scaled bounds [L] and [H] lie strictly inside the scaled
    boundaries. *)
Lemma scaled_interval_inside (a_lo a_hi Lf Hf fc e0 ec ck : Z) :
  0 <= a_lo < 2 ^ 64 -> 0 < a_hi < 2 ^ 64 ->
  2 ^ 64 * Hf <= a_hi * fc - 2 ^ 63 ->
  a_lo * fc + 2 ^ 63 < 2 ^ 64 * Lf ->
  (Rabs (IZR fc * powerRZ 2 ec - powerRZ 10 ck) <= powerRZ 2 (ec - 1))%R ->
  (IZR a_lo * powerRZ 2 e0 * powerRZ 10 ck < IZR Lf * powerRZ 2 (e0 + ec + 64)
   /\ IZR Hf * powerRZ 2 (e0 + ec + 64) < IZR a_hi * powerRZ 2 e0 * powerRZ 10 ck)%R.
Proof.
  intros Hlo Hhi HH HL Hacc.
  rewrite !powerRZ2_add.
  replace (powerRZ 2 (ec - 1)) with (powerRZ 2 ec / 2)%R in Hacc.
  2:{ replace ec with (1 + (ec - 1)) at 1 by lia.
      rewrite powerRZ2_add. simpl. field. }
  rewrite <- (IZR_pow2 64) by lia.
  pose proof (powerRZ2_pos e0) as HX. pose proof (powerRZ2_pos ec) as HY.
  set (X := powerRZ 2 e0) in *. set (Y := powerRZ 2 ec) in *.
  set (K := powerRZ 10 ck) in *.
  apply Rabs_le_between in Hacc.
  apply IZR_le in HH. apply IZR_lt in HL.
  rewrite minus_IZR, !mult_IZR in HH. rewrite plus_IZR, !mult_IZR in HL.
  assert (Halo : (0 <= IZR a_lo < IZR (2 ^ 64))%R)
    by (split; [apply IZR_le | apply IZR_lt]; lia).
  assert (Hahi : (0 < IZR a_hi < IZR (2 ^ 64))%R) by (split; apply IZR_lt; lia).
  assert (HXY : (0 < X * Y)%R) by (apply Rmult_lt_0_compat; lra).
  assert (Hhalf : IZR (2 ^ 63) = (IZR (2 ^ 64) / 2)%R).
  { change (2 ^ 64) with (2 * 2 ^ 63). rewrite mult_IZR. field. }
  rewrite Hhalf in HH, HL.
  set (Q := IZR (2 ^ 64)) in *.
  assert (HQ : (0 < Q)%R) by (apply IZR_lt; lia).
  split.
  - apply Rle_lt_trans with (IZR a_lo * X * (IZR fc * Y + Y / 2))%R.
    + apply Rmult_le_compat_l; [apply Rmult_le_pos; lra | lra].
    + assert (Hstep : ((IZR a_lo * IZR fc + Q / 2) * (X * Y) < Q * IZR Lf * (X * Y))%R)
        by (apply Rmult_lt_compat_r; lra).
      assert (Hlt : (IZR a_lo * (X * Y) <= Q * (X * Y))%R)
        by (apply Rmult_le_compat_r; lra).
      lra.
  - apply Rlt_le_trans with (IZR a_hi * X * (IZR fc * Y - Y / 2))%R.
    + assert (Hstep : (Q * IZR Hf * (X * Y) <= (IZR a_hi * IZR fc - Q / 2) * (X * Y))%R)
        by (apply Rmult_le_compat_r; lra).
      assert (Hlt : (IZR a_hi * (X * Y) < Q * (X * Y))%R)
        by (apply Rmult_lt_compat_r; lra).
      lra.
    + apply Rmult_le_compat_l; [apply Rmult_le_pos; lra | lra].
Qed.

Section Grisu2.
Variables a h below e0 N : Z.
Hypothesis Ha : 2 ^ 63 <= a.
Hypothesis Hah : a + h < 2 ^ 64.
Hypothesis Hh : 2 ^ 10 <= h.
Hypothesis Hbelow : 2 ^ 9 <= below <= h.
Hypothesis He0 : -1137 <= e0 <= 960.
Hypothesis HN : 9 <= N <= 17.
Hypothesis Hwide : a + h <= (h + below - 6) * 10 ^ (N - 1).

Lemma Grisu2_spec (fuel : nat) (buffer : list ascii) :
  (17 <= fuel)%nat ->
  17 <= buf_len buffer ->
  exists r,
    Grisu2 fuel buffer (mkDiyFp (a - below) e0) (mkDiyFp a e0) (mkDiyFp (a + h) e0)
    = Ok r
    /\ Grisu2_result (mkDiyFp (a - below) e0) (mkDiyFp (a + h) e0) N
         (length buffer) r.
Proof.
  intros Hfuel Hroom.
  destruct (GetCachedPowerForBinaryExponent_spec e0 He0)
    as (c & Hget & Hfc & Hwin & Hp1 & Hck & Hacc).
  unfold Grisu2. cbn [e f]. rewrite Z.eqb_refl. cbn [assert bind].
  rewrite Hget. cbn [bind].
  rewrite !Multiply_mulhi_round by (cbn [f]; lia).
  cbn [e f].
  pose proof (pow10_pos (N - 1) ltac:(lia)) as HT.
  destruct (scaled_boundaries a h below (CachedPower.f c) (10 ^ (N - 1))
              Ha Hah Hh Hbelow Hfc HT Hwide)
    as (HL1 & HLw & HwH & HH62 & HHc & Hwp64 & Hwd & HHreal & HLreal).
  set (fc := CachedPower.f c) in *. set (ec := CachedPower.e c) in *.
  set (wp := mulhi_round (a + h) fc) in *.
  set (wm := mulhi_round a fc) in *.
  set (wn := mulhi_round (a - below) fc) in *.
  unfold kAlpha, kGamma in *.
  destruct (Z.geb_spec (e0 + ec + 64) (-60)) as [_ | Hbad]; [| lia].
  destruct (Z.leb_spec (e0 + ec + 64) (-32)) as [_ | Hbad]; [| lia].
  cbn [assert bind].
  change (Z.shiftl 1 (64 - 2)) with (2 ^ 62).
  destruct (Z.geb_spec wp (2 ^ 62)) as [_ | Hbad]; [| lia].
  cbn [assert bind].
  rewrite (wrap64_small (wn + 1)) by lia.
  rewrite (wrap64_small (wp - 1)) by lia.
  set (L := mkDiyFp (wn + 1) (e0 + ec + 64)).
  set (w := mkDiyFp wm (e0 + ec + 64)).
  set (H := mkDiyFp (wp - 1) (e0 + ec + 64)).
  assert (Hpre : DigitGen_pre L w H N fuel).
  { unfold DigitGen_pre, wide_enough, kAlpha, kGamma. subst L w H. cbn [e f].
    repeat split; try lia.
    apply Z.le_trans with ((fc - 1) / 2 ^ (- (ec + e0 + 64))); [| exact Hp1].
    replace (- (e0 + ec + 64)) with (- (ec + e0 + 64)) by lia.
    apply Z.div_le_mono; [apply Z.pow_pos_nonneg; lia | lia]. }
  destruct (Grisu2DigitGen_spec fuel buffer L w H N Hpre ltac:(subst H; cbn [f]; lia) Hroom)
    as ([[buffer' length] exponent] & Hrun & Hres).
  rewrite Hrun. cbn [bind].
  eexists. split; [reflexivity |].
  destruct Hres as (ds & tail & Hbuf & Hlen0 & Hlen & Hlen1 & Hall & Hlead & Hexp & Hin).
  exists ds, tail.
  repeat split; try assumption; try lia.
  - (* the lower boundary *)
    destruct (scaled_interval_inside (a - below) (a + h) (wn + 1) (wp - 1) fc e0 ec
                (CachedPower.k c) ltac:(lia) ltac:(lia) HHreal HLreal Hacc) as [Hlo _].
    unfold DiyFp_value in *. subst L. cbn [e f] in *.
    pose proof (powerRZ10_pos (CachedPower.k c)) as HK.
    rewrite powerRZ_add by lra.
    rewrite powerRZ_neg'.
    apply (Rmult_lt_reg_r (powerRZ 10 (CachedPower.k c))); [exact HK |].
    replace (IZR (digits_value ds) * (powerRZ 10 exponent * / powerRZ 10 (CachedPower.k c))
             * powerRZ 10 (CachedPower.k c))%R
      with (IZR (digits_value ds) * powerRZ 10 exponent)%R by (field; lra).
    lra.
  - destruct (scaled_interval_inside (a - below) (a + h) (wn + 1) (wp - 1) fc e0 ec
                (CachedPower.k c) ltac:(lia) ltac:(lia) HHreal HLreal Hacc) as [_ Hhi].
    unfold DiyFp_value in *. subst H. cbn [e f] in *.
    pose proof (powerRZ10_pos (CachedPower.k c)) as HK.
    rewrite powerRZ_add by lra.
    rewrite powerRZ_neg'.
    apply (Rmult_lt_reg_r (powerRZ 10 (CachedPower.k c))); [exact HK |].
    replace (IZR (digits_value ds) * (powerRZ 10 exponent * / powerRZ 10 (CachedPower.k c))
             * powerRZ 10 (CachedPower.k c))%R
      with (IZR (digits_value ds) * powerRZ 10 exponent)%R by (field; lra).
    lra.
Qed.
End Grisu2.

Lemma decode_exponent_range fmt bits :
  is_iec559_single_or_double fmt ->
  0 < bits < bits_bound fmt ->
  -1074 <= (decode fmt bits).(e) <= 971.
Proof.
  intros Hfmt Hbits.
  destruct (decode_fields fmt bits Hfmt Hbits) as (_ & _ & HE & _ & Hdec & _).
  rewrite Hdec. unfold kBias, exponent_all_ones in *.
  destruct Hfmt as [-> | ->]; cbv [binary32 binary64 digits bits_width max_exponent] in *;
    destruct (_ =? 0) eqn:HE0; cbn [e]; try apply Z.eqb_neq in HE0; lia.
Qed.

Lemma closer_significand fmt bits :
  is_iec559_single_or_double fmt ->
  0 < bits < bits_bound fmt ->
  lower_boundary_is_closer fmt bits = true ->
  (decode fmt bits).(f) = 2 ^ (digits fmt - 1).
Proof.
  intros Hfmt Hbits Hcl.
  destruct (decode_fields fmt bits Hfmt Hbits) as (_ & _ & _ & _ & Hdec & Hcl' & _).
  rewrite Hcl' in Hcl. apply andb_prop in Hcl. destruct Hcl as [HF HE].
  apply Z.eqb_eq in HF. apply Z.gtb_lt in HE.
  rewrite Hdec, HF.
  destruct (Z.eqb_spec (bits / 2 ^ (digits fmt - 1)) 0) as [H0 | _]; [lia |].
  cbn [f]. lia.
Qed.

Lemma Grisu2_Fp_spec (fmt : FpFormat) (bits : Z) (fuel : nat)
    (buffer : list ascii) :
  is_iec559_single_or_double fmt ->
  finite_positive fmt bits ->
  (17 <= fuel)%nat ->
  17 <= buf_len buffer ->
  exists r,
    Grisu2_Fp fuel fmt buffer bits = Ok r
    /\ Grisu2_result (boundaries_of fmt bits).(m_minus)
         (boundaries_of fmt bits).(m_plus) (max_digits10 fmt) (length buffer) r.
Proof.
  intros Hfmt Hfp Hfuel Hroom.
  pose proof (finite_positive_range fmt bits Hfmt Hfp) as Hrange.
  unfold Grisu2_Fp.
  rewrite (ComputeBoundaries_closed_form fmt bits Hfmt Hfp).
  destruct Hfp as (_ & Hfin & Hpos). rewrite Hfin, Hpos. cbn [assert bind].
  pose proof (decode_range fmt bits Hfmt Hrange) as Hv.
  pose proof (decode_exponent_range fmt bits Hfmt Hrange) as Hve.
  pose proof (closer_significand fmt bits Hfmt Hrange) as Hcl.
  unfold boundaries_of. cbn [v m_minus m_plus].
  destruct (decode fmt bits) as [vf ve]. cbn [e f] in *.
  assert (Hp : 24 <= digits fmt <= 53) by (destruct Hfmt as [-> | ->]; simpl; lia).
  assert (Hp53 : 2 ^ digits fmt <= 2 ^ 53) by (apply Z.pow_le_mono_r; lia).
  assert (Hv64 : 0 < vf < 2 ^ 64) by lia.
  destruct (clzll_spec _ Hv64) as (Hlz & Hw & Hsucc).
  pose proof (clzll_lower _ _ Hv ltac:(lia)) as Hlz'.
  set (lz := clzll vf) in *.
  pose proof (pow2_pred lz ltac:(lia)) as Hpow1.
  pose proof (pow2_pred (lz - 1) ltac:(lia)) as Hpow2.
  replace (lz - 1 - 1) with (lz - 2) in Hpow2 by lia.
  assert (Hh10 : 2 ^ (64 - digits fmt - 1) <= 2 ^ (lz - 1)) by (apply Z.pow_le_mono_r; lia).
  assert (Hh10' : 2 ^ 10 <= 2 ^ (64 - digits fmt - 1)) by (apply Z.pow_le_mono_r; lia).
  set (below := if lower_boundary_is_closer fmt bits then 2 ^ (lz - 2) else 2 ^ (lz - 1)).
  assert (Hbelow : 2 ^ 9 <= below <= 2 ^ (lz - 1)).
  { subst below. destruct (lower_boundary_is_closer fmt bits); lia. }
  assert (Hwide : vf * 2 ^ lz + 2 ^ (lz - 1)
                  <= (2 ^ (lz - 1) + below - 6) * 10 ^ (max_digits10 fmt - 1)).
  { subst below. destruct Hfmt as [-> | ->];
      cbv [binary32 binary64 digits max_digits10] in *.
    - (* single precision *)
      change (64 - 24 - 1) with 39 in *. change (9 - 1) with 8.
      change (10 ^ 8) with 100000000.
      destruct (lower_boundary_is_closer _ bits); lia.
    - (* double precision *)
      change (64 - 53 - 1) with 10 in *. change (17 - 1) with 16.
      change (10 ^ 16) with 10000000000000000.
      destruct (lower_boundary_is_closer _ bits) eqn:Hc; [| lia].
      specialize (Hcl eq_refl). change (53 - 1) with 52 in Hcl.
      assert (Hlz11 : lz = 11).
      { subst lz. rewrite Hcl. unfold clzll. rewrite Z.log2_pow2 by lia. lia. }
      rewrite Hlz11 in *. rewrite Hcl. lia. }
  assert (HN : 9 <= max_digits10 fmt <= 17) by (destruct Hfmt as [-> | ->]; simpl; lia).
  replace (vf * 2 ^ lz - below) with (vf * 2 ^ lz - below) by reflexivity.
  exact (Grisu2_spec (vf * 2 ^ lz) (2 ^ (lz - 1)) below (ve - lz) (max_digits10 fmt)
           ltac:(lia) ltac:(lia) ltac:(lia) Hbelow ltac:(lia) HN Hwide fuel buffer
           Hfuel Hroom).
Qed.

(** C6: for every finite positive double, [Grisu2] (boundaries, cached
    power, [Grisu2DigitGen] with its loop over the fractional digits, and
    [Grisu2Round]) returns without a failed assertion, in particular
    [length < 17] holds at every iteration of the loop, and the digit count it
    returns is at least 1 and at most [max_digits10 = 17]. *)
Theorem Grisu2_length_le_max_digits10 (bits : Z) (fuel : nat)
    (buffer : list ascii) :
  finite_positive binary64 bits ->
  (17 <= fuel)%nat ->
  17 <= buf_len buffer ->
  exists buffer' length exponent,
    Grisu2_Fp fuel binary64 buffer bits = Ok (buffer', length, exponent)
    /\ 1 <= length <= max_digits10 binary64
    /\ max_digits10 binary64 = 17
    /\ Grisu2_Fp fuel binary64 buffer bits <> Fail (AssertionFailed "length < 17").
Proof.
  intros Hfp Hfuel Hroom.
  destruct (Grisu2_Fp_spec binary64 bits fuel buffer ltac:(right; reflexivity)
              Hfp Hfuel Hroom) as ([[buffer' length] exponent] & Hrun & Hres).
  exists buffer', length, exponent.
  destruct Hres as (ds & tail & _ & _ & _ & Hlen & _).
  rewrite Hrun. repeat split; try lia. discriminate.
Qed.

Lemma Grisu2_length_le_max_digits10_witness :
  exists buffer' length exponent,
    Grisu2_Fp 17 binary64 (blank 17) 0x3FB999999999999A = Ok (buffer', length, exponent)
    /\ 1 <= length <= max_digits10 binary64.
Proof.
  assert (Hfp : finite_positive binary64 0x3FB999999999999A).
  { unfold finite_positive, is_bits. simpl. repeat split; lia. }
  assert (Hroom : 17 <= buf_len (blank 17)) by (unfold buf_len; simpl; lia).
  destruct (Grisu2_length_le_max_digits10 0x3FB999999999999A 17 (blank 17)
              Hfp (le_n 17) Hroom) as (buffer' & length & exponent & Hrun & Hlen & _).
  exists buffer', length, exponent. split; [exact Hrun | exact Hlen].
Defined.

(** ** Reading back what the formatters write *)

Lemma strtod_digits_app ds rest acc count :
  all_digits ds -> not_digit_first rest ->
  strtod_digits (ds ++ rest) acc count
  = (acc * 10 ^ buf_len ds + digits_value ds, count + buf_len ds, rest).
Proof.
  intros Hall Hrest. revert acc count.
  induction ds as [| c ds IH]; intros acc count.
  - cbn [app]. change (buf_len []) with 0. rewrite digits_value_nil, Z.pow_0_r.
    destruct rest as [| c rest]; cbn [strtod_digits].
    + f_equal; try reflexivity. f_equal; lia.
    + cbn in Hrest. rewrite Hrest. f_equal; try reflexivity. f_equal; lia.
  - inversion Hall as [| ? ? Hc Hds]; subst.
    cbn [app strtod_digits]. rewrite Hc. rewrite (IH Hds).
    change (c :: ds) with ([c] ++ ds).
    rewrite digits_value_app, digits_value_single, buf_len_app.
    change (buf_len [c]) with 1.
    rewrite Z.pow_add_r by (pose proof (buf_len_nonneg ds); lia).
    change (10 ^ 1) with 10.
    f_equal; try reflexivity. f_equal; ring.
Qed.

Lemma all_digits_zeros n : all_digits (zeros n).
Proof.
  unfold zeros, all_digits. apply Forall_forall. intros c Hc.
  apply repeat_spec in Hc. subst. reflexivity.
Qed.

Lemma buf_len_zeros n : 0 <= n -> buf_len (zeros n) = n.
Proof. intros Hn. unfold buf_len, zeros. rewrite repeat_length. lia. Qed.

Lemma digits_value_zeros n : digits_value (zeros n) = 0.
Proof.
  unfold zeros. induction (Z.to_nat n) as [| k IH]; [reflexivity |].
  change (repeat "0"%char (S k)) with (["0"%char] ++ repeat "0"%char k).
  rewrite digits_value_app, IH. reflexivity.
Qed.

Lemma strtod_digits_all ds acc count :
  all_digits ds ->
  strtod_digits ds acc count
  = (acc * 10 ^ buf_len ds + digits_value ds, count + buf_len ds, []).
Proof.
  intros Hall. rewrite <- (app_nil_r ds) at 1.
  apply strtod_digits_app; [exact Hall | exact I].
Qed.

Lemma strtod_exponent_string x :
  -1000 < x < 1000 -> strtod_exponent (exponent_string x) = Some x.
Proof.
  intros Hx. unfold exponent_string, exponent_digits, strtod_exponent.
  assert (Hk : 0 <= Z.abs x < 1000) by lia.
  set (k := Z.abs x) in *.
  assert (Hdigits :
            forall ds, all_digits ds -> 1 <= buf_len ds -> digits_value ds = k ->
                       (let '(x0, n, rest) := strtod_digits ds 0 0 in
                        match rest with
                        | [] => if 0 <? n then Some ((if x <? 0 then -1 else 1) * x0) else None
                        | _ :: _ => None
                        end) = Some x).
  { intros ds Hall Hlen Hval. rewrite strtod_digits_all by exact Hall.
    destruct (Z.ltb_spec 0 (0 + buf_len ds)) as [_ | Hbad]; [| lia].
    rewrite Hval. f_equal. subst k. destruct (Z.ltb_spec x 0); lia. }
  pose proof (Z.div_mod k 10 ltac:(lia)) as Hdm10.
  pose proof (Z.mod_pos_bound k 10 ltac:(lia)) as Hm10.
  pose proof (Z.div_mod k 100 ltac:(lia)) as Hdm100.
  pose proof (Z.mod_pos_bound k 100 ltac:(lia)) as Hm100.
  pose proof (Z.div_mod (k mod 100) 10 ltac:(lia)) as Hdm.
  pose proof (Z.mod_pos_bound (k mod 100) 10 ltac:(lia)) as Hm.
  assert (Hq10 : 0 <= k / 10) by (apply Z.div_pos; lia).
  assert (Hq100 : 0 <= k / 100) by (apply Z.div_pos; lia).
  assert (Hq : 0 <= k mod 100 / 10) by (apply Z.div_pos; lia).
  destruct (Z.ltb_spec x 0) as [Hneg | Hpos];
    cbn [Ascii.eqb Bool.eqb];
    destruct (Z.ltb_spec k 10) as [H10 | H10];
    try destruct (Z.ltb_spec k 100) as [H100 | H100];
    apply Hdigits;
    try (repeat constructor; apply is_digit_digit_char; lia);
    try (unfold buf_len; cbn [length]; lia);
    unfold digits_value; cbn [fold_left];
    rewrite !digit_of_digit_char by lia; lia.
Qed.

Lemma decimal_value_scaled m n :
  0 <= n -> decimal_value (m * 10 ^ n, 0) = (IZR m * powerRZ 10 n)%R.
Proof.
  intros Hn. unfold decimal_value. cbn [fst snd].
  rewrite mult_IZR, IZR_pow10 by exact Hn. simpl. ring.
Qed.

Lemma firstn_skipn_digits (ds : list ascii) (k : Z) :
  all_digits ds -> 0 <= k <= buf_len ds ->
  all_digits (firstn (Z.to_nat k) ds) /\ all_digits (skipn (Z.to_nat k) ds)
  /\ buf_len (firstn (Z.to_nat k) ds) = k
  /\ buf_len (skipn (Z.to_nat k) ds) = buf_len ds - k
  /\ digits_value ds
     = digits_value (firstn (Z.to_nat k) ds) * 10 ^ (buf_len ds - k)
       + digits_value (skipn (Z.to_nat k) ds).
Proof.
  intros Hall Hk.
  assert (Hl1 : buf_len (firstn (Z.to_nat k) ds) = k).
  { unfold buf_len in *. rewrite length_firstn. lia. }
  assert (Hl2 : buf_len (skipn (Z.to_nat k) ds) = buf_len ds - k).
  { unfold buf_len in *. rewrite length_skipn. lia. }
  pose proof Hall as Hall'.
  rewrite <- (firstn_skipn (Z.to_nat k) ds) in Hall'.
  apply all_digits_app in Hall'. destruct Hall' as [H1 H2].
  repeat split; try assumption.
  rewrite <- (firstn_skipn (Z.to_nat k) ds) at 1.
  rewrite digits_value_app, Hl2. reflexivity.
Qed.

(** The numeral [FormatFixed] writes denotes [ds * 10^(dp - length)]. *)
Lemma strtod_fixed_string ds dp ftdz :
  all_digits ds -> 1 <= buf_len ds ->
  exists mx,
    strtod_decimal (fixed_string ds dp ftdz) = Some mx
    /\ decimal_value mx = (IZR (digits_value ds) * powerRZ 10 (dp - buf_len ds))%R.
Proof.
  intros Hall Hlen. unfold fixed_string, strtod_decimal.
  destruct (Z.leb_spec (buf_len ds) dp) as [Hcase1 | Hcase1].
  - (* digits, zeros *)
    rewrite app_assoc.
    assert (Hall' : all_digits (ds ++ zeros (dp - buf_len ds))).
    { apply all_digits_app. split; [exact Hall | apply all_digits_zeros]. }
    assert (Hlen' : buf_len (ds ++ zeros (dp - buf_len ds)) = dp).
    { rewrite buf_len_app, buf_len_zeros by lia. lia. }
    assert (Hval' : digits_value (ds ++ zeros (dp - buf_len ds))
                    = digits_value ds * 10 ^ (dp - buf_len ds)).
    { rewrite digits_value_app, digits_value_zeros, buf_len_zeros by lia. lia. }
    destruct ftdz.
    + rewrite strtod_digits_app by (try exact Hall'; reflexivity).
      cbn [Ascii.eqb Bool.eqb].
      change (strtod_digits ["0"%char] ?a 0) with (a * 10 + 0, 0 + 1, @nil ascii).
      rewrite Hlen'. destruct (Z.ltb_spec 0 (0 + dp + (0 + 1))) as [_ | Hbad]; [| lia].
      eexists. split; [reflexivity |].
      unfold decimal_value. cbn [fst snd].
      rewrite Hval'. rewrite Z.add_0_r, Z.mul_0_l, Z.add_0_l.
      rewrite !mult_IZR, IZR_pow10 by lia. simpl. field.
    + rewrite app_nil_r. rewrite strtod_digits_all by exact Hall'.
      rewrite Hlen'. destruct (Z.ltb_spec 0 (0 + dp + 0)) as [_ | Hbad]; [| lia].
      eexists. split; [reflexivity |].
      unfold decimal_value. cbn [fst snd].
      rewrite Hval'. rewrite Z.mul_0_l, Z.add_0_l.
      rewrite mult_IZR, IZR_pow10 by lia. simpl. ring.
  - destruct (Z.ltb_spec 0 dp) as [Hcase2 | Hcase3].
    + (* digits, point, digits *)
      destruct (firstn_skipn_digits ds dp Hall ltac:(lia))
        as (H1 & H2 & Hl1 & Hl2 & Hval).
      rewrite strtod_digits_app by (try exact H1; reflexivity).
      cbn [Ascii.eqb Bool.eqb].
      rewrite strtod_digits_all by exact H2.
      rewrite Hl1, Hl2.
      destruct (Z.ltb_spec 0 (0 + dp + (0 + (buf_len ds - dp)))) as [_ | Hbad]; [| lia].
      eexists. split; [reflexivity |].
      unfold decimal_value. cbn [fst snd].
      rewrite Z.mul_0_l, Z.add_0_l, <- Hval.
      do 2 f_equal. lia.
    + (* zero, point, zeros, digits *)
      cbn [strtod_digits]. 
      change (is_digit "0") with true. change (is_digit ".") with false.
      cbv iota. cbn [Ascii.eqb Bool.eqb].
      assert (Hall' : all_digits (zeros (- dp) ++ ds)).
      { apply all_digits_app. split; [apply all_digits_zeros | exact Hall]. }
      rewrite strtod_digits_all by exact Hall'.
      rewrite buf_len_app, buf_len_zeros by lia.
      destruct (Z.ltb_spec 0 (0 + 1 + (0 + (- dp + buf_len ds)))) as [_ | Hbad]; [| lia].
      eexists. split; [reflexivity |].
      unfold decimal_value. cbn [fst snd].
      rewrite digits_value_app, digits_value_zeros.
      change (digit_of "0") with 0.
      do 2 f_equal; lia.
Qed.

(** The numeral [FormatExponential] writes denotes the same number. *)
Lemma strtod_exponential_string ds dp :
  all_digits ds -> 1 <= buf_len ds ->
  -1000 < dp - 1 < 1000 ->
  exists mx,
    strtod_decimal (exponential_string ds dp) = Some mx
    /\ decimal_value mx = (IZR (digits_value ds) * powerRZ 10 (dp - buf_len ds))%R.
Proof.
  intros Hall Hlen Hdp. unfold exponential_string, strtod_decimal.
  destruct ds as [| d ds']; [change (buf_len []) with 0 in Hlen; lia |].
  inversion Hall as [| ? ? Hd Hds']; subst.
  pose proof (strtod_exponent_string (dp - 1) Hdp) as Hexp.
  destruct ds' as [| d' ds''].
  - cbn [strtod_digits]. rewrite Hd. change (is_digit "e") with false. cbv iota.
    cbn [Ascii.eqb Bool.eqb orb]. rewrite Hexp.
    destruct (Z.ltb_spec 0 (0 + 1 + 0)) as [_ | Hbad]; [| lia].
    eexists. split; [reflexivity |].
    unfold decimal_value. cbn [fst snd].
    change (buf_len [d]) with 1. rewrite digits_value_single.
    do 2 f_equal; lia.
  - cbn [strtod_digits]. rewrite Hd. change (is_digit ".") with false. cbv iota.
    cbn [Ascii.eqb Bool.eqb].
    rewrite strtod_digits_app by (try exact Hds'; reflexivity).
    cbn [Ascii.eqb Bool.eqb orb]. rewrite Hexp.
    pose proof (buf_len_nonneg (d' :: ds'')) as Hnn.
    destruct (Z.ltb_spec 0 (0 + 1 + (0 + buf_len (d' :: ds'')))) as [_ | Hbad]; [| lia].
    eexists. split; [reflexivity |].
    unfold decimal_value. cbn [fst snd].
    change (d :: d' :: ds'') with ([d] ++ d' :: ds'').
    rewrite digits_value_app, digits_value_single, buf_len_app.
    change (buf_len [d]) with 1.
    do 2 f_equal; lia.
Qed.

(** ** The formatters on the buffer *)

Lemma tail_split (tail : list ascii) (k : nat) :
  Z.of_nat k <= buf_len tail ->
  exists old post, tail = old ++ post /\ length old = k.
Proof.
  intros Hk. exists (firstn k tail), (skipn k tail). split.
  - symmetry. apply firstn_skipn.
  - rewrite length_firstn. unfold buf_len in Hk. lia.
Qed.

Lemma buf_memset_app pre old post c n :
  buf_len old = n ->
  buf_memset (pre ++ old ++ post) (buf_len pre) c n = Ok (pre ++ repeat c (Z.to_nat n) ++ post).
Proof.
  intros Hold. unfold buf_memset. apply buf_store_app.
  rewrite repeat_length. unfold buf_len in Hold. lia.
Qed.

(** [memmove] of [mid] to the right, over the [gap] that follows it. *)
Lemma buf_memmove_right pre mid gap post :
  buf_memmove (pre ++ mid ++ gap ++ post) (buf_len pre + buf_len gap) (buf_len pre)
    (buf_len mid)
  = Ok (pre ++ firstn (length gap) (mid ++ gap) ++ mid ++ post).
Proof.
  unfold buf_memmove.
  rewrite (buf_load_app pre mid (gap ++ post)). cbn [bind].
  set (X := firstn (length gap) (mid ++ gap)).
  set (Y := skipn (length gap) (mid ++ gap)).
  assert (HXY : mid ++ gap = X ++ Y) by (symmetry; apply firstn_skipn).
  assert (HX : length X = length gap).
  { subst X. rewrite length_firstn, length_app. lia. }
  assert (HY : length Y = length mid).
  { subst Y. rewrite length_skipn, length_app. lia. }
  replace (pre ++ mid ++ gap ++ post) with ((pre ++ X) ++ Y ++ post).
  2:{ rewrite <- !app_assoc. f_equal. rewrite !app_assoc. f_equal. symmetry. exact HXY. }
  replace (buf_len pre + buf_len gap) with (buf_len (pre ++ X))
    by (rewrite buf_len_app; unfold buf_len; lia).
  rewrite buf_store_app by exact HY.
  rewrite <- app_assoc. reflexivity.
Qed.

Lemma Itoa1000_digits pre old post value :
  0 <= value < 1000 ->
  length old = length (exponent_digits value) ->
  (let k := wrap32 value in
   if k <? 10
   then buffer0 <- buf_write (pre ++ old ++ post) (buf_len pre) (char_of_Z (48 + k)) ;;
        Ok (buffer0, buf_len pre + 1)
   else if k <? 100 then Utoa100 (pre ++ old ++ post) (buf_len pre) k
   else let q := k / 100 in
        let r := k mod 100 in
        buffer0 <- buf_write (pre ++ old ++ post) (buf_len pre) (char_of_Z (48 + q)) ;;
        Utoa100 buffer0 (buf_len pre + 1) r)
  = Ok (pre ++ exponent_digits value ++ post,
        buf_len pre + buf_len (exponent_digits value)).
Proof.
  intros Hk Hold. cbv zeta. unfold exponent_digits in *.
  rewrite (wrap32_small value) by lia.
  destruct (Z.ltb_spec value 10) as [H10 | H10].
  - destruct old as [| o1 [| ? ?]]; try discriminate.
    cbn [app]. fold (digit_char value). rewrite buf_write_app. reflexivity.
  - destruct (Z.ltb_spec value 100) as [H100 | H100].
    + unfold Utoa100.
      destruct (Z.ltb_spec value 100) as [_ | Hbad]; [| lia]. cbn [assert bind].
      rewrite kDigits100_entry by lia. cbn [bind].
      rewrite buf_store_app by exact Hold. reflexivity.
    + destruct old as [| o1 old']; [discriminate |].
      cbn [app]. fold (digit_char (value / 100)). rewrite buf_write_app. cbn [bind].
      pose proof (Z.mod_pos_bound value 100 ltac:(lia)) as Hr.
      replace (pre ++ digit_char (value / 100) :: old' ++ post)
        with ((pre ++ [digit_char (value / 100)]) ++ old' ++ post)
        by (rewrite <- !app_assoc; reflexivity).
      rewrite <- (buf_len_snoc pre (digit_char (value / 100))).
      unfold Utoa100.
      destruct (Z.ltb_spec (value mod 100) 100) as [_ | Hbad]; [| lia]. cbn [assert bind].
      rewrite kDigits100_entry by lia. cbn [bind].
      rewrite buf_store_app by (cbn [length] in *; lia). cbn [bind].
      rewrite <- !app_assoc. cbn [app]. rewrite !buf_len_snoc.
      unfold buf_len. cbn [length]. f_equal. f_equal. lia.
Qed.

Lemma Itoa1000_spec pre old post x :
  -1000 < x < 1000 ->
  length old = length (exponent_string x) ->
  Itoa1000 (pre ++ old ++ post) (buf_len pre) x
  = Ok (pre ++ exponent_string x ++ post, buf_len pre + buf_len (exponent_string x)).
Proof.
  intros Hx Hold. unfold Itoa1000, exponent_string in *.
  destruct (Z.gtb_spec x (-1000)) as [_ | Hbad]; [| lia].
  destruct (Z.ltb_spec x 1000) as [_ | Hbad]; [| lia].
  cbn [assert bind].
  destruct old as [| s0 old']; [discriminate |].
  cbn [app length] in *. rewrite !buf_write_app.
  assert (Hk : 0 <= Z.abs x < 1000) by lia.
  pose proof (fun sg => Itoa1000_digits (pre ++ [sg]) old' post (Z.abs x) Hk
                          ltac:(lia)) as Hdigits.
  destruct (Z.ltb_spec x 0) as [Hneg | Hpos]; cbn [bind].
  - specialize (Hdigits "-"%char). rewrite buf_len_snoc in Hdigits.
    rewrite <- !app_assoc in Hdigits. cbn [app] in Hdigits.
    replace (- x) with (Z.abs x) by lia.
    rewrite Hdigits. f_equal. f_equal. unfold buf_len. cbn [length]. lia.
  - specialize (Hdigits "+"%char). rewrite buf_len_snoc in Hdigits.
    rewrite <- !app_assoc in Hdigits. cbn [app] in Hdigits.
    assert (Hax : Z.abs x = x) by lia. rewrite Hax in *.
    rewrite Hdigits. f_equal. f_equal. unfold buf_len. cbn [length]. lia.
Qed.

Lemma buf_write_at buffer pre c0 post p c :
  buffer = pre ++ c0 :: post -> p = buf_len pre ->
  buf_write buffer p c = Ok (pre ++ c :: post).
Proof. intros -> ->. apply buf_write_app. Qed.

Lemma buf_memset_at buffer pre old post p c n :
  buffer = pre ++ old ++ post -> p = buf_len pre -> buf_len old = n ->
  buf_memset buffer p c n = Ok (pre ++ repeat c (Z.to_nat n) ++ post).
Proof. intros -> -> Hn. apply buf_memset_app, Hn. Qed.

Lemma buf_memmove_at buffer pre mid gap post dst src n :
  buffer = pre ++ mid ++ gap ++ post ->
  dst = buf_len pre + buf_len gap -> src = buf_len pre -> n = buf_len mid ->
  buf_memmove buffer dst src n = Ok (pre ++ firstn (length gap) (mid ++ gap) ++ mid ++ post).
Proof. intros -> -> -> ->. apply buf_memmove_right. Qed.

Lemma Itoa1000_at buffer pre old post p x :
  buffer = pre ++ old ++ post -> p = buf_len pre ->
  -1000 < x < 1000 ->
  length old = length (exponent_string x) ->
  Itoa1000 buffer p x
  = Ok (pre ++ exponent_string x ++ post, buf_len pre + buf_len (exponent_string x)).
Proof. intros -> -> Hx Hold. apply Itoa1000_spec; assumption. Qed.

Ltac list_eq := rewrite <- ?app_assoc; cbn [app]; reflexivity.

Create Rewrite HintDb buffer_lengths.

#[local] Hint Rewrite @length_app @repeat_length @length_firstn @length_skipn
  : buffer_lengths.

Ltac len_eq :=
  unfold buf_len, zeros in *;
  repeat (progress (cbn [length app] in *; autorewrite with buffer_lengths in * ));
  lia.

Lemma FormatFixed_spec (ds tail : list ascii) (dp : Z) (ftdz : bool) :
  1 <= buf_len ds ->
  buf_len (fixed_string ds dp ftdz) <= buf_len (ds ++ tail) ->
  exists tail',
    FormatFixed (ds ++ tail) (buf_len ds) dp ftdz
    = Ok (fixed_string ds dp ftdz ++ tail', buf_len (fixed_string ds dp ftdz)).
Proof.
  intros Hlen Hroom. unfold FormatFixed, fixed_string in *.
  destruct (Z.geb_spec (buf_len ds) 1) as [_ | Hbad]; [| lia]. cbn [assert bind].
  revert Hroom.
  destruct (Z.leb_spec (buf_len ds) dp) as [Hcase1 | Hcase1]; intros Hroom.
  - (* digits, zeros *)
    destruct (tail_split tail (Z.to_nat (dp - buf_len ds))) as (old & post & Htail & Hold).
    { destruct ftdz; len_eq. }
    subst tail.
    rewrite (buf_memset_at _ ds old post) by (reflexivity || len_eq). cbn [bind].
    fold (zeros (dp - buf_len ds)).
    destruct ftdz.
    + destruct post as [| c0 [| c1 post']]; [len_eq | len_eq |].
      rewrite (buf_write_at _ (ds ++ zeros (dp - buf_len ds)) c0 (c1 :: post'))
        by (list_eq || len_eq).
      cbn [bind].
      rewrite (buf_write_at _ ((ds ++ zeros (dp - buf_len ds)) ++ ["."%char]) c1 post')
        by (list_eq || len_eq).
      cbn [bind].
      exists post'. apply f_equal, f_equal2; [list_eq | len_eq].
    + exists post. apply f_equal, f_equal2; [rewrite app_nil_r; list_eq | len_eq].
  - revert Hroom. destruct (Z.ltb_spec 0 dp) as [Hcase2 | Hcase3]; intros Hroom.
    + (* digits, point, digits *)
      pose proof (firstn_skipn (Z.to_nat dp) ds) as Hds.
      set (ds1 := firstn (Z.to_nat dp) ds) in *.
      set (ds2 := skipn (Z.to_nat dp) ds) in *.
      assert (Hl1 : buf_len ds1 = dp) by (subst ds1; len_eq).
      assert (Hl2 : buf_len ds2 = buf_len ds - dp) by (subst ds2; len_eq).
      clearbody ds1 ds2. subst ds.
      destruct tail as [| t0 tail']; [len_eq |].
      destruct ds2 as [| c ds2']; [len_eq |].
      rewrite (buf_memmove_at _ ds1 (c :: ds2') [t0] tail') by (list_eq || len_eq).
      cbn [bind length app firstn].
      rewrite (buf_write_at _ ds1 c (c :: ds2' ++ tail')) by (list_eq || len_eq).
      cbn [bind].
      exists tail'. apply f_equal, f_equal2; [list_eq | len_eq].
    + (* zero, point, zeros, digits *)
      destruct (tail_split tail (Z.to_nat (2 + - dp))) as (gap & post & Htail & Hgap);
        [len_eq |].
      subst tail.
      rewrite (buf_memmove_at _ [] ds gap post) by (list_eq || len_eq).
      cbn [bind app].
      set (X := firstn (length gap) (ds ++ gap)).
      assert (HX : length X = Z.to_nat (2 + - dp)) by (subst X; len_eq).
      clearbody X.
      destruct X as [| x0 [| x1 X']]; [len_eq | len_eq |].
      rewrite (buf_write_at _ [] x0 (x1 :: X' ++ ds ++ post)) by (list_eq || len_eq).
      cbn [bind app].
      rewrite (buf_write_at _ ["0"%char] x1 (X' ++ ds ++ post)) by (list_eq || len_eq).
      cbn [bind app].
      rewrite (buf_memset_at _ ["0"%char; "."%char] X' (ds ++ post))
        by (list_eq || len_eq).
      cbn [bind app]. fold (zeros (- dp)).
      exists post. apply f_equal, f_equal2; [list_eq | len_eq].
Qed.

Lemma FormatExponential_spec (ds tail : list ascii) (dp : Z) :
  1 <= buf_len ds ->
  -1000 < dp - 1 < 1000 ->
  buf_len (exponential_string ds dp) <= buf_len (ds ++ tail) ->
  exists tail',
    FormatExponential (ds ++ tail) (buf_len ds) dp
    = Ok (exponential_string ds dp ++ tail', buf_len (exponential_string ds dp)).
Proof.
  intros Hlen Hdp Hroom. unfold FormatExponential, exponential_string in *.
  destruct (Z.geb_spec (buf_len ds) 1) as [_ | Hbad]; [| lia]. cbn [assert bind].
  destruct ds as [| d ds']; [len_eq |].
  destruct ds' as [| d' ds''].
  - (* one digit *)
    change (buf_len [d]) with 1. cbn [Z.eqb Pos.eqb bind app].
    destruct tail as [| t0 tail']; [len_eq |].
    rewrite (buf_write_at _ [d] t0 tail') by (list_eq || len_eq). cbn [bind].
    destruct (tail_split tail' (length (exponent_string (dp - 1))))
      as (old & post & Htail & Hold); [len_eq |].
    subst tail'.
    rewrite (Itoa1000_at _ [d; "e"%char] old post) by (list_eq || len_eq || assumption).
    exists post. apply f_equal, f_equal2; [list_eq | len_eq].
  - (* several digits *)
    destruct tail as [| t0 tail']; [len_eq |].
    assert (Hne : (buf_len (d :: d' :: ds'') =? 1) = false) by (apply Z.eqb_neq; len_eq).
    rewrite Hne.
    rewrite (buf_memmove_at _ [d] (d' :: ds'') [t0] tail') by (list_eq || len_eq).
    cbn [bind length firstn app].
    rewrite (buf_write_at _ [d] d' (d' :: ds'' ++ tail')) by (list_eq || len_eq).
    cbn [bind app].
    destruct tail' as [| t1 tail'']; [len_eq |].
    rewrite (buf_write_at _ (d :: "."%char :: d' :: ds'') t1 tail'') by (list_eq || len_eq).
    cbn [bind].
    destruct (tail_split tail'' (length (exponent_string (dp - 1))))
      as (old & post & Htail & Hold); [len_eq |].
    subst tail''.
    rewrite (Itoa1000_at _ ((d :: "."%char :: d' :: ds'') ++ ["e"%char]) old post)
      by (list_eq || len_eq || assumption).
    exists post. apply f_equal, f_equal2; [list_eq | len_eq].
Qed.

(** ** The choice of the notation *)

Lemma powerRZ_mono (b : R) (a c : Z) :
  (1 <= b)%R -> a <= c -> (powerRZ b a <= powerRZ b c)%R.
Proof.
  intros Hb Hac.
  replace c with (a + Z.of_nat (Z.to_nat (c - a))) by lia.
  rewrite powerRZ_add by lra. rewrite <- pow_powerRZ.
  pose proof (pow_R1_Rle b (Z.to_nat (c - a)) Hb) as Hge.
  assert (Hpos : (0 < powerRZ b a)%R) by (apply powerRZ_lt; lra).
  nra.
Qed.

Lemma powerRZ_lt_inv (b : R) (a c : Z) :
  (1 <= b)%R -> (powerRZ b a < powerRZ b c)%R -> a < c.
Proof.
  intros Hb Hlt. destruct (Z_lt_le_dec a c) as [Hac | Hca]; [exact Hac |].
  pose proof (powerRZ_mono b c a Hb Hca). lra.
Qed.

Lemma Fp_le_spec fmt a b :
  Fp_le fmt a b = true
  <-> (DiyFp_value (decode fmt a) <= DiyFp_value (decode fmt b))%R.
Proof.
  unfold Fp_le.
  set (x := decode fmt a). set (y := decode fmt b).
  set (m := Z.min (e x) (e y)).
  assert (Hx : DiyFp_value x = (IZR (f x * 2 ^ (e x - m)) * powerRZ 2 m)%R).
  { unfold DiyFp_value. rewrite mult_IZR, IZR_pow2 by lia.
    rewrite Rmult_assoc, <- powerRZ2_add. do 2 f_equal. lia. }
  assert (Hy : DiyFp_value y = (IZR (f y * 2 ^ (e y - m)) * powerRZ 2 m)%R).
  { unfold DiyFp_value. rewrite mult_IZR, IZR_pow2 by lia.
    rewrite Rmult_assoc, <- powerRZ2_add. do 2 f_equal. lia. }
  rewrite Hx, Hy. pose proof (powerRZ2_pos m) as Hm.
  rewrite Z.leb_le. split.
  - intros Hle. apply IZR_le in Hle. nra.
  - intros Hle. apply le_IZR. nra.
Qed.

Lemma decode_kMaxVal fmt :
  is_iec559_single_or_double fmt ->
  decode fmt (kMaxVal fmt) = mkDiyFp (2 ^ (digits fmt - 1)) 1.
Proof. intros [-> | ->]; vm_compute; reflexivity. Qed.

(** [value <= kMaxVal] compares the value with [2^p]. *)
Lemma Fp_le_kMaxVal fmt bits :
  is_iec559_single_or_double fmt ->
  0 < bits < bits_bound fmt ->
  Fp_le fmt bits (kMaxVal fmt) = true
  <-> (Fp_value fmt bits <= IZR (2 ^ digits fmt))%R.
Proof.
  intros Hfmt Hbits. rewrite Fp_le_spec, decode_kMaxVal by exact Hfmt.
  rewrite decode_value by assumption.
  rewrite DiyFp_value_pow2 by (destruct Hfmt as [-> | ->]; simpl; lia).
  rewrite IZR_pow2 by (destruct Hfmt as [-> | ->]; simpl; lia).
  replace (digits fmt - 1 + 1) with (digits fmt) by lia. reflexivity.
Qed.

(** A value that is at most [2^p] has its upper boundary at most
    [2^p + 1]. *)
Lemma upper_boundary_small fmt bits :
  is_iec559_single_or_double fmt ->
  0 < bits < bits_bound fmt ->
  (Fp_value fmt bits <= IZR (2 ^ digits fmt))%R ->
  (DiyFp_value (boundaries_of fmt bits).(m_plus) <= IZR (2 ^ 53) + 1)%R.
Proof.
  intros Hfmt Hbits Hle.
  destruct (boundaries_of_facts fmt bits Hfmt Hbits)
    as (_ & _ & _ & _ & _ & _ & _ & Hplus & _).
  rewrite Hplus.
  pose proof (decode_value fmt bits Hfmt Hbits) as Hval.
  destruct (decode_fields fmt bits Hfmt Hbits) as (_ & _ & HE & HF & Hdec & _ & _).
  assert (Hp : 1 <= digits fmt <= 53) by (destruct Hfmt as [-> | ->]; simpl; lia).
  assert (Hbias : 0 <= kBias fmt)
    by (destruct Hfmt as [-> | ->]; vm_compute; discriminate).
  assert (He : (decode fmt bits).(e) <= 1).
  { rewrite Hdec in Hval |- *.
    destruct (Z.eqb_spec (bits / 2 ^ (digits fmt - 1)) 0) as [HE0 | HE0]; cbn [e].
    - lia.
    - unfold DiyFp_value in Hval. cbn [e f] in Hval.
      set (ex := bits / 2 ^ (digits fmt - 1) - kBias fmt) in *.
      assert (Hlow : (powerRZ 2 (digits fmt - 1 + ex) <= Fp_value fmt bits)%R).
      { rewrite <- Hval. rewrite powerRZ2_add, <- IZR_pow2 by lia.
        pose proof (powerRZ2_pos ex).
        assert (IZR (2 ^ (digits fmt - 1)) <= IZR (2 ^ (digits fmt - 1) + bits mod 2 ^ (digits fmt - 1)))%R
          by (apply IZR_le; lia).
        nra. }
      rewrite IZR_pow2 in Hle by lia.
      destruct (Z_lt_le_dec 1 ex) as [Hbig | Hok]; [| exact Hok].
      assert (powerRZ 2 (digits fmt + 1) <= powerRZ 2 (digits fmt - 1 + ex))%R
        by (apply powerRZ_mono; [lra | lia]).
      rewrite powerRZ2_add in H. change (powerRZ 2 1) with (2 * 1)%R in H.
      pose proof (powerRZ2_pos (digits fmt)). lra. }
  assert (Hhalf : (powerRZ 2 ((decode fmt bits).(e) - 1) <= 1)%R).
  { change 1%R with (powerRZ 2 0). apply powerRZ_mono; [lra | lia]. }
  assert (Hpw : (IZR (2 ^ digits fmt) <= IZR (2 ^ 53))%R).
  { apply IZR_le, Z.pow_le_mono_r; lia. }
  lra.
Qed.

(** In fixed notation the decimal point is at most at 16. *)
Lemma fixed_decimal_point_bound fmt bits (B len exponent : Z) :
  is_iec559_single_or_double fmt ->
  0 < bits < bits_bound fmt ->
  (Fp_value fmt bits <= IZR (2 ^ digits fmt))%R ->
  1 <= len -> 10 ^ (len - 1) <= B ->
  (IZR B * powerRZ 10 exponent
   < DiyFp_value (boundaries_of fmt bits).(m_plus))%R ->
  len + exponent <= 16.
Proof.
  intros Hfmt Hbits Hle Hlen HB Hup.
  pose proof (upper_boundary_small fmt bits Hfmt Hbits Hle) as Hsmall.
  assert (Hlow : (powerRZ 10 (len - 1 + exponent) <= IZR B * powerRZ 10 exponent)%R).
  { rewrite powerRZ_add by lra. rewrite <- IZR_pow10 by lia.
    apply IZR_le in HB. pose proof (powerRZ10_pos exponent). nra. }
  assert (Hlt : (powerRZ 10 (len - 1 + exponent) < powerRZ 10 16)%R).
  { rewrite <- (IZR_pow10 16) by lia.
    assert (IZR (2 ^ 53) + 1 < IZR (10 ^ 16))%R.
    { rewrite <- plus_IZR. apply IZR_lt. reflexivity. }
    lra. }
  apply powerRZ_lt_inv in Hlt; [lia | lra].
Qed.

Lemma exponent_string_length x : (length (exponent_string x) <= 4)%nat.
Proof.
  unfold exponent_string, exponent_digits.
  destruct (Z.abs x <? 10); [cbn [length]; lia |].
  destruct (Z.abs x <? 100); cbn [length]; lia.
Qed.

Lemma exponential_string_length ds dp :
  buf_len (exponential_string ds dp) <= buf_len ds + 6.
Proof.
  pose proof (exponent_string_length (dp - 1)) as Hx.
  unfold exponential_string.
  destruct ds as [| d [| d' ds'']]; len_eq.
Qed.

Lemma fixed_string_length ds dp ftdz :
  1 <= buf_len ds ->
  buf_len (fixed_string ds dp ftdz)
  = if buf_len ds <=? dp then dp + (if ftdz then 2 else 0)
    else if 0 <? dp then buf_len ds + 1
    else 2 + - dp + buf_len ds.
Proof.
  intros Hlen. unfold fixed_string.
  destruct (Z.leb_spec (buf_len ds) dp); [destruct ftdz; len_eq |].
  destruct (Z.ltb_spec 0 dp); len_eq.
Qed.

(** [DtoaPositive] returns, and what it writes is [positive_string] of the
    digits and the exponent of [Grisu2]. *)
Lemma DtoaPositive_spec (fmt : FpFormat) (bits : Z) (fuel : nat)
    (buffer : list ascii) (ftdz : bool) :
  is_iec559_single_or_double fmt ->
  finite_positive fmt bits ->
  (17 <= fuel)%nat ->
  24 <= buf_len buffer ->
  exists ds tail0 exponent tail,
    Grisu2_Fp fuel fmt buffer bits = Ok (ds ++ tail0, buf_len ds, exponent)
    /\ DtoaPositive fmt fuel buffer bits ftdz
       = Ok (positive_string fmt bits ds exponent ftdz ++ tail,
             buf_len (positive_string fmt bits ds exponent ftdz))
    /\ buf_len (positive_string fmt bits ds exponent ftdz) <= 24
    /\ 1 <= buf_len ds <= max_digits10 fmt
    /\ all_digits ds
    /\ 10 ^ (buf_len ds - 1) <= digits_value ds
    /\ -341 <= exponent <= 308
    /\ (DiyFp_value (boundaries_of fmt bits).(m_minus)
        < IZR (digits_value ds) * powerRZ 10 exponent
        < DiyFp_value (boundaries_of fmt bits).(m_plus))%R.
Proof.
  intros Hfmt Hfp Hfuel Hroom.
  pose proof (finite_positive_range fmt bits Hfmt Hfp) as Hrange.
  destruct (Grisu2_Fp_spec fmt bits fuel buffer Hfmt Hfp Hfuel ltac:(lia))
    as (((buffer1 & len) & exponent) & Hrun & Hres).
  destruct Hres as (ds & tail0 & Hbuf & Hsame & Hlen & Hn & Hall & Hlead & Hexp & Hin).
  subst buffer1 len.
  assert (HN : max_digits10 fmt <= 17) by (destruct Hfmt as [-> | ->]; simpl; lia).
  exists ds, tail0, exponent.
  assert (Hroom1 : 24 <= buf_len (ds ++ tail0)) by (unfold buf_len in *; lia).
  unfold DtoaPositive. rewrite Hrun.
  destruct Hfp as (_ & Hfin & Hpos). rewrite Hfin, Hpos.
  unfold kDtoaPositiveMaxLength.
  destruct (Z.geb_spec (buf_len buffer) 24) as [_ | Hbad]; [| lia].
  cbn [assert bind].
  destruct (Z.leb_spec (buf_len ds) (max_digits10 fmt)) as [_ | Hbad]; [| lia].
  cbn [assert bind].
  unfold positive_string.
  set (dp := buf_len ds + exponent).
  destruct ((kMinExp <? dp) && Fp_le fmt bits (kMaxVal fmt)) eqn:Huse.
  - apply andb_prop in Huse. destruct Huse as [Hmin Hle].
    apply Z.ltb_lt in Hmin. unfold kMinExp in Hmin.
    apply Fp_le_kMaxVal in Hle; [| assumption | assumption].
    assert (Hdp : dp <= 16).
    { apply (fixed_decimal_point_bound fmt bits (digits_value ds) (buf_len ds) exponent);
        try assumption; [lia | apply Hin]. }
    assert (Hend : buf_len (fixed_string ds dp ftdz) <= 24).
    { rewrite fixed_string_length by lia.
      destruct (buf_len ds <=? dp); [destruct ftdz; lia |].
      destruct (0 <? dp); lia. }
    destruct (FormatFixed_spec ds tail0 dp ftdz ltac:(lia) ltac:(lia)) as (tail & Hfix).
    exists tail. rewrite Hfix. cbn [bind].
    destruct (Z.leb_spec (buf_len (fixed_string ds dp ftdz)) 24) as [_ | Hbad]; [| lia].
    cbn [assert bind]. repeat split; try assumption; try lia; apply Hin.
  - assert (Hend : buf_len (exponential_string ds dp) <= 24).
    { pose proof (exponential_string_length ds dp). lia. }
    destruct (FormatExponential_spec ds tail0 dp ltac:(lia) ltac:(lia) ltac:(lia))
      as (tail & Hfmtexp).
    exists tail. rewrite Hfmtexp. cbn [bind].
    destruct (Z.leb_spec (buf_len (exponential_string ds dp)) 24) as [_ | Hbad]; [| lia].
    cbn [assert bind]. repeat split; try assumption; try lia; apply Hin.
Qed.

Lemma firstn_buf_len (s tail : list ascii) :
  firstn (Z.to_nat (buf_len s)) (s ++ tail) = s.
Proof.
  unfold buf_len. rewrite Nat2Z.id.
  rewrite firstn_app, Nat.sub_diag, firstn_all. cbn [firstn]. apply app_nil_r.
Qed.

Lemma output_Ok (s tail : list ascii) :
  output (Ok (s ++ tail, buf_len s)) = Ok (string_of_list_ascii s).
Proof. unfold output. cbn [bind]. rewrite firstn_buf_len. reflexivity. Qed.

Lemma all_digits_no_e ds : all_digits ds -> ~ In "e"%char ds.
Proof.
  intros Hall Hin. unfold all_digits in Hall.
  rewrite Forall_forall in Hall. apply Hall in Hin. discriminate Hin.
Qed.

Lemma fixed_string_no_e ds dp ftdz :
  all_digits ds -> ~ In "e"%char (fixed_string ds dp ftdz).
Proof.
  intros Hall Hin.
  assert (Hz : forall n, ~ In "e"%char (zeros n)).
  { intros n. apply all_digits_no_e, all_digits_zeros. }
  pose proof (all_digits_no_e ds Hall) as Hds.
  unfold fixed_string in Hin.
  destruct (buf_len ds <=? dp).
  - rewrite !in_app_iff in Hin. destruct Hin as [Hin | [Hin | Hin]].
    + exact (Hds Hin).
    + exact (Hz _ Hin).
    + destruct ftdz; cbn in Hin; intuition discriminate.
  - destruct (0 <? dp).
    + rewrite in_app_iff in Hin. cbn [In] in Hin.
      destruct Hin as [Hin | [Hin | Hin]].
      * apply Hds. rewrite <- (firstn_skipn (Z.to_nat dp) ds).
        apply in_or_app. left. exact Hin.
      * discriminate Hin.
      * apply Hds. rewrite <- (firstn_skipn (Z.to_nat dp) ds).
        apply in_or_app. right. exact Hin.
    + cbn [In] in Hin. rewrite in_app_iff in Hin.
      destruct Hin as [Hin | [Hin | [Hin | Hin]]];
        [discriminate Hin | discriminate Hin | exact (Hz _ Hin) | exact (Hds Hin)].
Qed.

Lemma exponential_string_has_e ds dp :
  1 <= buf_len ds -> In "e"%char (exponential_string ds dp).
Proof.
  intros Hlen. unfold exponential_string.
  destruct ds as [| d [| d' ds'']].
  - change (buf_len []) with 0 in Hlen. lia.
  - right. left. reflexivity.
  - right. right. apply in_or_app. right. left. reflexivity.
Qed.

(** C5: for every finite positive single or double, with [decimal_point =
    length + exponent] of the [Grisu2] result, [DtoaPositive] formats with
    [FormatExponential] (and the bytes written carry the exponent mark [e])
    when [decimal_point <= -6] or the value is above [2^p], and with
    [FormatFixed] (no exponent mark) in every other case. *)
Theorem DtoaPositive_exponential_iff (fmt : FpFormat) (bits : Z) (fuel : nat)
    (buffer : list ascii) (ftdz : bool) :
  is_iec559_single_or_double fmt ->
  finite_positive fmt bits ->
  (17 <= fuel)%nat ->
  24 <= buf_len buffer ->
  exists buffer1 length exponent ds,
    Grisu2_Fp fuel fmt buffer bits = Ok (buffer1, length, exponent)
    /\ ds = firstn (Z.to_nat length) buffer1
    /\ let decimal_point := length + exponent in
       let run := DtoaPositive fmt fuel buffer bits ftdz in
       (decimal_point <= -6 \/ (IZR (2 ^ digits fmt) < Fp_value fmt bits)%R ->
        run = FormatExponential buffer1 length decimal_point
        /\ output run
           = Ok (string_of_list_ascii (exponential_string ds decimal_point)))
       /\ (~ (decimal_point <= -6 \/ (IZR (2 ^ digits fmt) < Fp_value fmt bits)%R) ->
           run = FormatFixed buffer1 length decimal_point ftdz
           /\ output run
              = Ok (string_of_list_ascii (fixed_string ds decimal_point ftdz)))
       /\ In "e"%char (exponential_string ds decimal_point)
       /\ ~ In "e"%char (fixed_string ds decimal_point ftdz).
Proof.
  intros Hfmt Hfp Hfuel Hroom.
  pose proof (finite_positive_range fmt bits Hfmt Hfp) as Hrange.
  destruct (DtoaPositive_spec fmt bits fuel buffer ftdz Hfmt Hfp Hfuel Hroom)
    as (ds & tail0 & exponent & tail & Hrun & Hdtoa & Hend & Hlen & Hall & _).
  exists (ds ++ tail0), (buf_len ds), exponent, ds.
  split; [exact Hrun |]. split; [symmetry; apply firstn_buf_len |].
  cbv zeta.
  pose proof (Fp_le_kMaxVal fmt bits Hfmt Hrange) as Hle.
  assert (Hsteps :
    DtoaPositive fmt fuel buffer bits ftdz
    = if (kMinExp <? buf_len ds + exponent) && Fp_le fmt bits (kMaxVal fmt)
      then FormatFixed (ds ++ tail0) (buf_len ds) (buf_len ds + exponent) ftdz
      else FormatExponential (ds ++ tail0) (buf_len ds) (buf_len ds + exponent)).
  { rewrite Hdtoa. revert Hdtoa Hend. unfold DtoaPositive, positive_string.
    rewrite Hrun. destruct Hfp as (_ & Hfin & Hpos). rewrite Hfin, Hpos.
    unfold kDtoaPositiveMaxLength.
    destruct (Z.geb_spec (buf_len buffer) 24) as [_ | Hbad]; [| lia].
    cbn [assert bind].
    destruct (Z.leb_spec (buf_len ds) (max_digits10 fmt)) as [_ | Hbad]; [| lia].
    cbn [assert bind].
    destruct ((kMinExp <? buf_len ds + exponent) && Fp_le fmt bits (kMaxVal fmt)).
    - destruct (FormatFixed (ds ++ tail0) (buf_len ds) (buf_len ds + exponent) ftdz)
        as [[b1 e1] | err]; cbn [bind]; [| intros Heq; discriminate Heq].
      destruct (e1 <=? 24); cbn [assert bind]; [| intros Heq; discriminate Heq].
      intros Heq _. symmetry. exact Heq.
    - destruct (FormatExponential (ds ++ tail0) (buf_len ds) (buf_len ds + exponent))
        as [[b1 e1] | err]; cbn [bind]; [| intros Heq; discriminate Heq].
      destruct (e1 <=? 24); cbn [assert bind]; [| intros Heq; discriminate Heq].
      intros Heq _. symmetry. exact Heq. }
  assert (Hout :
    output (DtoaPositive fmt fuel buffer bits ftdz)
    = Ok (string_of_list_ascii (positive_string fmt bits ds exponent ftdz))).
  { rewrite Hdtoa. apply output_Ok. }
  unfold positive_string in Hout. cbv zeta in Hout.
  unfold kMinExp in *.
  split; [| split; [| split]].
  - intros Hcond.
    assert (Huse : (-6 <? buf_len ds + exponent) && Fp_le fmt bits (kMaxVal fmt) = false).
    { apply andb_false_iff. destruct Hcond as [Hdp | Hbig].
      - left. apply Z.ltb_ge. exact Hdp.
      - right. apply not_true_is_false. intros Htrue. apply Hle in Htrue. lra. }
    rewrite Huse in Hsteps, Hout. split; assumption.
  - intros Hcond.
    assert (Huse : (-6 <? buf_len ds + exponent) && Fp_le fmt bits (kMaxVal fmt) = true).
    { apply andb_true_intro. split.
      - apply Z.ltb_lt. lia.
      - apply Hle. apply Rnot_lt_le. intros Hbig. apply Hcond. right. exact Hbig. }
    rewrite Huse in Hsteps, Hout. split; assumption.
  - apply exponential_string_has_e. lia.
  - apply fixed_string_no_e. exact Hall.
Qed.

Lemma DtoaPositive_exponential_iff_witness :
  exists buffer1 length exponent ds,
    Grisu2_Fp 17 binary64 (blank 24) 0x3FF8000000000000 = Ok (buffer1, length, exponent)
    /\ ds = firstn (Z.to_nat length) buffer1
    /\ In "e"%char (exponential_string ds (length + exponent)).
Proof.
  assert (Hfp : finite_positive binary64 0x3FF8000000000000).
  { unfold finite_positive, is_bits. simpl. repeat split; lia. }
  assert (Hroom : 24 <= buf_len (blank 24)) by (unfold buf_len; simpl; lia).
  destruct (DtoaPositive_exponential_iff binary64 0x3FF8000000000000 17 (blank 24) false
              ltac:(right; reflexivity) Hfp (le_n 17) Hroom)
    as (buffer1 & length & exponent & ds & Hrun & Hds & _ & _ & He & _).
  exists buffer1, length, exponent, ds. split; [exact Hrun |]. split; [exact Hds | exact He].
Defined.

(** ** The nearest value *)

Lemma decode_canonical fmt bits :
  is_iec559_single_or_double fmt ->
  0 < bits < bits_bound fmt ->
  canonical (digits fmt) (1 - kBias fmt) (decode fmt bits).(f) (decode fmt bits).(e)
  /\ (lower_boundary_is_closer fmt bits = true
      <-> (decode fmt bits).(f) = 2 ^ (digits fmt - 1)
          /\ 1 - kBias fmt < (decode fmt bits).(e)).
Proof.
  intros Hfmt Hbits.
  destruct (decode_fields fmt bits Hfmt Hbits) as (_ & _ & HE & HF & Hdec & Hcl & Hnz).
  assert (Hp : 2 ^ digits fmt = 2 * 2 ^ (digits fmt - 1)).
  { destruct Hfmt as [-> | ->]; reflexivity. }
  rewrite Hdec, Hcl. unfold canonical.
  destruct (Z.eqb_spec (bits / 2 ^ (digits fmt - 1)) 0) as [HE0 | HE0]; cbn [e f].
  - specialize (Hnz HE0). split; [left; lia |].
    split.
    + intros Hc. apply andb_prop in Hc. destruct Hc as [Hc _].
      apply Z.eqb_eq in Hc. lia.
    + intros [Hc _]. lia.
  - split; [right; lia |].
    split.
    + intros Hc. apply andb_prop in Hc. destruct Hc as [Hc1 Hc2].
      apply Z.eqb_eq in Hc1. apply Z.gtb_lt in Hc2. lia.
    + intros [Hc1 Hc2]. apply andb_true_intro. split.
      * apply Z.eqb_eq. lia.
      * apply Z.gtb_lt. lia.
Qed.

(** The bit pattern is determined by the decoded significand and
    exponent. *)
Lemma decode_injective fmt a b :
  is_iec559_single_or_double fmt ->
  0 < a < bits_bound fmt -> 0 < b < bits_bound fmt ->
  decode fmt a = decode fmt b -> a = b.
Proof.
  intros Hfmt Ha Hb Heq.
  destruct (decode_fields fmt a Hfmt Ha) as (_ & _ & HEa & HFa & Hda & _ & _).
  destruct (decode_fields fmt b Hfmt Hb) as (_ & _ & HEb & HFb & Hdb & _ & _).
  assert (Hpos : 0 < 2 ^ (digits fmt - 1)) by (destruct Hfmt as [-> | ->]; reflexivity).
  pose proof (Z.div_mod a (2 ^ (digits fmt - 1)) ltac:(lia)) as Hdma.
  pose proof (Z.div_mod b (2 ^ (digits fmt - 1)) ltac:(lia)) as Hdmb.
  rewrite Hda, Hdb in Heq.
  set (Ea := a / 2 ^ (digits fmt - 1)) in *. set (Fa := a mod 2 ^ (digits fmt - 1)) in *.
  set (Eb := b / 2 ^ (digits fmt - 1)) in *. set (Fb := b mod 2 ^ (digits fmt - 1)) in *.
  assert (HEF : Ea = Eb /\ Fa = Fb).
  { destruct (Z.eqb_spec Ea 0) as [Ha0 | Ha0]; destruct (Z.eqb_spec Eb 0) as [Hb0 | Hb0];
      injection Heq; intros; lia. }
  destruct HEF as [HE HF]. rewrite Hdma, Hdmb, HE, HF. reflexivity.
Qed.

(** Two canonical values are equal, or at least one unit in the last
    place of the first apart; below a power of two the gap is half of that. *)
Lemma canonical_gap (p emin fx ex fz ez : Z) :
  1 <= p ->
  canonical p emin fx ex -> canonical p emin fz ez ->
  let X := (IZR fx * powerRZ 2 ex)%R in
  let Y := (IZR fz * powerRZ 2 ez)%R in
  (fz = fx /\ ez = ex)
  \/ (X + powerRZ 2 ex <= Y)%R
  \/ (Y <= X - powerRZ 2 ex)%R
  \/ (fx = 2 ^ (p - 1) /\ emin < ex /\ (Y <= X - powerRZ 2 (ex - 1))%R).
Proof.
  intros Hp Hx Hz X Y. subst X Y.
  assert (Hpp : 2 ^ p = 2 * 2 ^ (p - 1)).
  { replace p with (p - 1 + 1) at 1 by lia. rewrite Z.pow_add_r by lia. lia. }
  assert (Hpos : 0 < 2 ^ (p - 1)) by (apply Z.pow_pos_nonneg; lia).
  assert (Hfx : 0 < fx < 2 ^ p) by (destruct Hx as [[_ ?] | [_ ?]]; lia).
  assert (Hfz : 0 < fz < 2 ^ p) by (destruct Hz as [[_ ?] | [_ ?]]; lia).
  destruct (Z.lt_trichotomy ez ex) as [Hlt | [Heq | Hgt]].
  - (* the other value has a smaller exponent: it is below *)
    assert (Hxn : 2 ^ (p - 1) <= fx) by (destruct Hx as [[? ?] | [? ?]]; destruct Hz as [[? ?] | [? ?]]; lia).
    assert (Hemin : emin < ex) by (destruct Hz as [[? ?] | [? ?]]; lia).
    set (k := ex - ez).
    assert (Hk : 1 <= k) by lia.
    assert (H2k : 2 ^ k = 2 * 2 ^ (k - 1)).
    { replace k with (k - 1 + 1) at 1 by lia. rewrite Z.pow_add_r by lia. lia. }
    assert (Hk1 : 1 <= 2 ^ (k - 1)) by (pose proof (Z.pow_pos_nonneg 2 (k - 1)); lia).
    assert (Hex : powerRZ 2 ex = (IZR (2 ^ k) * powerRZ 2 ez)%R).
    { rewrite IZR_pow2 by lia. rewrite <- powerRZ2_add. f_equal. lia. }
    assert (Hex1 : powerRZ 2 (ex - 1) = (IZR (2 ^ (k - 1)) * powerRZ 2 ez)%R).
    { rewrite IZR_pow2 by lia. rewrite <- powerRZ2_add. f_equal. lia. }
    pose proof (powerRZ2_pos ez) as Hez.
    destruct (Z.eq_dec fx (2 ^ (p - 1))) as [Hpow | Hnot].
    + right. right. right. split; [exact Hpow |]. split; [exact Hemin |].
      rewrite Hex, Hex1.
      assert (Hint : fz <= fx * 2 ^ k - 2 ^ (k - 1)).
      { rewrite Hpow, H2k.
        assert (1 * (2 ^ p - 1) <= 2 ^ (k - 1) * (2 ^ p - 1)).
        { apply Z.mul_le_mono_nonneg_r; lia. }
        lia. }
      apply IZR_le in Hint. rewrite minus_IZR, mult_IZR in Hint. nra.
    + right. right. left.
      rewrite Hex.
      assert (Hint : fz <= (fx - 1) * 2 ^ k).
      { assert (2 ^ (p - 1) * 2 ^ k <= (fx - 1) * 2 ^ k).
        { apply Z.mul_le_mono_nonneg_r; lia. }
        assert (2 ^ (p - 1) * 2 <= 2 ^ (p - 1) * 2 ^ k).
        { apply Z.mul_le_mono_nonneg_l; lia. }
        lia. }
      apply IZR_le in Hint. rewrite mult_IZR, minus_IZR in Hint. nra.
  - subst ez. pose proof (powerRZ2_pos ex) as Hex.
    destruct (Z.lt_trichotomy fz fx) as [Hlt | [Heq | Hgt]].
    + right. right. left.
      assert (Hint : fz <= fx - 1) by lia.
      apply IZR_le in Hint. rewrite minus_IZR in Hint. nra.
    + left. split; [exact Heq | reflexivity].
    + right. left.
      assert (Hint : fx + 1 <= fz) by lia.
      apply IZR_le in Hint. rewrite plus_IZR in Hint. nra.
  - (* the other value has a larger exponent: it is above *)
    right. left.
    assert (Hzn : 2 ^ (p - 1) <= fz) by (destruct Hx as [[? ?] | [? ?]]; destruct Hz as [[? ?] | [? ?]]; lia).
    set (k := ez - ex).
    assert (Hk : 1 <= k) by lia.
    assert (H2k : 2 ^ k = 2 * 2 ^ (k - 1)).
    { replace k with (k - 1 + 1) at 1 by lia. rewrite Z.pow_add_r by lia. lia. }
    assert (Hk1 : 1 <= 2 ^ (k - 1)) by (pose proof (Z.pow_pos_nonneg 2 (k - 1)); lia).
    assert (Hez : powerRZ 2 ez = (IZR (2 ^ k) * powerRZ 2 ex)%R).
    { rewrite IZR_pow2 by lia. rewrite <- powerRZ2_add. f_equal. lia. }
    rewrite Hez. pose proof (powerRZ2_pos ex) as Hex.
    assert (Hint : fx + 1 <= fz * 2 ^ k).
    { assert (2 ^ (p - 1) * 2 ^ k <= fz * 2 ^ k).
      { apply Z.mul_le_mono_nonneg_r; lia. }
      assert (2 ^ (p - 1) * 2 <= 2 ^ (p - 1) * 2 ^ k).
      { apply Z.mul_le_mono_nonneg_l; lia. }
      lia. }
    apply IZR_le in Hint. rewrite plus_IZR, mult_IZR in Hint. nra.
Qed.

Lemma Fp_value_nonneg fmt bits :
  is_iec559_single_or_double fmt -> (0 <= Fp_value fmt bits)%R.
Proof.
  intros Hfmt. unfold Fp_value, fraction_field.
  assert (Hpos : 0 < 2 ^ (digits fmt - 1)) by (destruct Hfmt as [-> | ->]; reflexivity).
  pose proof (Z.mod_pos_bound bits (2 ^ (digits fmt - 1)) Hpos) as HF.
  destruct (exponent_field fmt bits =? 0).
  - apply Rmult_le_pos; [apply IZR_le; lia | apply Rlt_le, powerRZ2_pos].
  - apply Rmult_le_pos; [apply IZR_le; lia | apply Rlt_le, powerRZ2_pos].
Qed.

Lemma Fp_value_zero fmt bits :
  is_iec559_single_or_double fmt ->
  Fp_is_zero fmt bits = true -> Fp_value fmt bits = 0%R.
Proof.
  intros Hfmt Hz. unfold Fp_is_zero in Hz. apply Z.eqb_eq in Hz.
  unfold Fp_value, exponent_field, fraction_field.
  destruct Hfmt as [-> | ->]; cbv [binary32 binary64 digits bits_width max_exponent] in *.
  - change (32 - 1) with 31 in *. change (32 - 24) with 8 in *. change (24 - 1) with 23 in *.
    pose proof (Z.div_mod bits (2 ^ 31) ltac:(lia)) as Hdm. rewrite Hz, Z.add_0_r in Hdm.
    assert (Hb : bits = (2 ^ 8 * (bits / 2 ^ 31)) * 2 ^ 23) by lia.
    rewrite Hb, Z.shiftr_div_pow2, Z.div_mul, Z.mod_mul by lia.
    rewrite Z.mul_comm, Z.mod_mul by lia. cbn [Z.eqb]. lra.
  - change (64 - 1) with 63 in *. change (64 - 53) with 11 in *. change (53 - 1) with 52 in *.
    pose proof (Z.div_mod bits (2 ^ 63) ltac:(lia)) as Hdm. rewrite Hz, Z.add_0_r in Hdm.
    assert (Hb : bits = (2 ^ 11 * (bits / 2 ^ 63)) * 2 ^ 52) by lia.
    rewrite Hb, Z.shiftr_div_pow2, Z.div_mul, Z.mod_mul by lia.
    rewrite Z.mul_comm, Z.mod_mul by lia. cbn [Z.eqb]. lra.
Qed.

(** A finite value is a zero, is negative, or is an input of [Grisu2]. *)
Lemma finite_cases fmt bits :
  is_bits fmt bits -> isfinite fmt bits = true ->
  Fp_is_zero fmt bits = true \/ signbit fmt bits = true \/ finite_positive fmt bits.
Proof.
  intros Hbits Hfin.
  destruct (Fp_is_zero fmt bits) eqn:Hz; [left; reflexivity |].
  destruct (signbit fmt bits) eqn:Hs; [right; left; reflexivity |].
  right. right. split; [exact Hbits |]. split; [exact Hfin |].
  unfold Fp_is_positive, isnan. unfold isfinite in Hfin.
  apply negb_true_iff in Hfin. rewrite Hs, Hz, Hfin. reflexivity.
Qed.

Lemma positive_signbit fmt bits :
  is_iec559_single_or_double fmt ->
  finite_positive fmt bits -> signbit fmt bits = false.
Proof.
  intros Hfmt (_ & _ & Hpos). unfold Fp_is_positive in Hpos.
  apply andb_prop in Hpos. destruct Hpos as [Hpos _].
  apply andb_prop in Hpos. destruct Hpos as [Hsign _].
  apply negb_true_iff in Hsign. exact Hsign.
Qed.

Lemma nearer_than_below (X h q Y : R) :
  (0 < h -> X - h < q -> Y <= X - 2 * h -> Rabs (q - X) < Rabs (q - Y))%R.
Proof. intros Hh Hq HY. unfold Rabs. do 2 destruct Rcase_abs; lra. Qed.

Lemma nearer_than_above (X h q Y : R) :
  (0 < h -> q < X + h -> X + 2 * h <= Y -> Rabs (q - X) < Rabs (q - Y))%R.
Proof. intros Hh Hq HY. unfold Rabs. do 2 destruct Rcase_abs; lra. Qed.

Lemma powerRZ2_double a : powerRZ 2 a = (2 * powerRZ 2 (a - 1))%R.
Proof.
  replace a with (1 + (a - 1)) at 1 by lia. rewrite powerRZ2_add. simpl. lra.
Qed.

(** A real number strictly between the boundaries of a finite positive value
    is nearer to it than to any other finite value. *)
Lemma Fp_unique_nearest fmt bits (q : R) z :
  is_iec559_single_or_double fmt ->
  finite_positive fmt bits ->
  (DiyFp_value (boundaries_of fmt bits).(m_minus) < q
   < DiyFp_value (boundaries_of fmt bits).(m_plus))%R ->
  is_bits fmt z -> isfinite fmt z = true ->
  z = bits \/ (Rabs (q - Fp_real fmt bits) < Rabs (q - Fp_real fmt z))%R.
Proof.
  intros Hfmt Hfp Hq Hz Hfin.
  pose proof (finite_positive_range fmt bits Hfmt Hfp) as Hrange.
  destruct (boundaries_of_facts fmt bits Hfmt Hrange)
    as (_ & _ & _ & _ & _ & _ & _ & Hplus & Hminus).
  pose proof (decode_value fmt bits Hfmt Hrange) as Hval.
  destruct (decode_canonical fmt bits Hfmt Hrange) as [Hcan Hcl].
  unfold Fp_real at 1. rewrite (positive_signbit fmt bits Hfmt Hfp).
  rewrite Hplus, Hminus in Hq. clear Hplus Hminus.
  unfold DiyFp_value in Hval.
  set (fx := (decode fmt bits).(f)) in *. set (ex := (decode fmt bits).(e)) in *.
  set (X := Fp_value fmt bits) in *.
  pose proof (powerRZ2_pos (ex - 2)) as Hquarter.
  pose proof (powerRZ2_double ex) as Hulp.
  pose proof (powerRZ2_double (ex - 1)) as Hhalf.
  replace (ex - 1 - 1) with (ex - 2) in Hhalf by lia.
  assert (Hp : 1 <= digits fmt) by (destruct Hfmt as [-> | ->]; simpl; lia).
  assert (Hfx : 1 <= fx).
  { destruct Hcan as [[_ ?] | [_ ?]]; [lia |].
    pose proof (Z.pow_pos_nonneg 2 (digits fmt - 1)). lia. }
  assert (HX : (powerRZ 2 ex <= X)%R).
  { rewrite <- Hval. apply IZR_le in Hfx. pose proof (powerRZ2_pos ex). nra. }
  assert (Hlow : (X - powerRZ 2 (ex - 1) < q)%R).
  { destruct (lower_boundary_is_closer fmt bits); lra. }
  assert (Hnonpos : (Fp_real fmt z <= 0 ->
                     Rabs (q - X) < Rabs (q - Fp_real fmt z))%R).
  { intros Hle. apply (nearer_than_below X (powerRZ 2 (ex - 1))); lra. }
  destruct (finite_cases fmt z Hz Hfin) as [Hzero | [Hneg | Hpos]].
  - right. apply Hnonpos. unfold Fp_real.
    rewrite (Fp_value_zero fmt z Hfmt Hzero). destruct (signbit fmt z); lra.
  - right. apply Hnonpos. unfold Fp_real. rewrite Hneg.
    pose proof (Fp_value_nonneg fmt z Hfmt). lra.
  - pose proof (finite_positive_range fmt z Hfmt Hpos) as Hzrange.
    pose proof (decode_value fmt z Hfmt Hzrange) as Hzval.
    destruct (decode_canonical fmt z Hfmt Hzrange) as [Hzcan _].
    unfold Fp_real. rewrite (positive_signbit fmt z Hfmt Hpos).
    unfold DiyFp_value in Hzval.
    destruct (canonical_gap (digits fmt) (1 - kBias fmt) fx ex
                (decode fmt z).(f) (decode fmt z).(e) Hp Hcan Hzcan)
      as [[Hf He] | [Habove | [Hbelow | (Hpow & Hemin & Hbelow)]]].
    + left. apply (decode_injective fmt z bits Hfmt Hzrange Hrange).
      subst fx ex. destruct (decode fmt z) as [fz ez], (decode fmt bits) as [fb eb].
      cbn [f e] in Hf, He. subst. reflexivity.
    + right. rewrite Hval, Hzval in Habove.
      apply (nearer_than_above X (powerRZ 2 (ex - 1))); lra.
    + right. rewrite Hval, Hzval in Hbelow.
      apply (nearer_than_below X (powerRZ 2 (ex - 1))); lra.
    + right. rewrite Hval, Hzval in Hbelow.
      assert (Hc : lower_boundary_is_closer fmt bits = true) by (apply Hcl; split; assumption).
      rewrite Hc in Hq.
      apply (nearer_than_below X (powerRZ 2 (ex - 2))); lra.
Qed.

(** The upper boundary of a finite value does not reach the overflow
    threshold. *)
Lemma upper_boundary_no_overflow fmt bits :
  is_iec559_single_or_double fmt ->
  0 < bits < bits_bound fmt ->
  (DiyFp_value (boundaries_of fmt bits).(m_plus) <= overflow_threshold fmt)%R.
Proof.
  intros Hfmt Hbits.
  destruct (boundaries_of_facts fmt bits Hfmt Hbits)
    as (_ & _ & _ & _ & _ & _ & _ & Hplus & _).
  rewrite Hplus. rewrite <- (decode_value fmt bits Hfmt Hbits).
  pose proof (decode_range fmt bits Hfmt Hbits) as Hf.
  destruct (decode_fields fmt bits Hfmt Hbits) as (_ & _ & HE & _ & Hdec & _ & _).
  assert (He : (decode fmt bits).(e) <= max_exponent fmt - digits fmt).
  { rewrite Hdec. unfold kBias, exponent_all_ones in *.
    destruct Hfmt as [-> | ->]; cbv [binary32 binary64 digits bits_width max_exponent] in *;
      destruct (_ =? 0); cbn [e]; lia. }
  unfold DiyFp_value, overflow_threshold.
  set (fx := (decode fmt bits).(f)) in *. set (ex := (decode fmt bits).(e)) in *.
  rewrite (powerRZ2_double ex).
  assert (Hp : 0 <= digits fmt) by (destruct Hfmt as [-> | ->]; simpl; lia).
  assert (Hint : 2 * fx + 1 <= 2 ^ (digits fmt + 1) - 1).
  { rewrite Z.pow_add_r by lia. lia. }
  apply IZR_le in Hint. rewrite plus_IZR, mult_IZR in Hint.
  assert (Hmono : (powerRZ 2 (ex - 1) <= powerRZ 2 (max_exponent fmt - digits fmt - 1))%R).
  { apply powerRZ_mono; [lra | lia]. }
  pose proof (powerRZ2_pos (ex - 1)) as Hpos.
  assert (H0 : (0 <= IZR fx)%R) by (apply IZR_le; lia).
  nra.
Qed.

(** What [DtoaPositive] writes is a numeral of [strtod], of the value of
    the digits scaled by the exponent. *)
Lemma strtod_positive_string fmt bits ds exponent ftdz :
  all_digits ds -> 1 <= buf_len ds <= 17 -> -341 <= exponent <= 308 ->
  exists mx,
    strtod_decimal (positive_string fmt bits ds exponent ftdz) = Some mx
    /\ decimal_value mx = (IZR (digits_value ds) * powerRZ 10 exponent)%R.
Proof.
  intros Hall Hlen Hexp. unfold positive_string. cbv zeta.
  pose proof (strtod_fixed_string ds (buf_len ds + exponent) ftdz Hall ltac:(lia))
    as Hfixed.
  pose proof (strtod_exponential_string ds (buf_len ds + exponent) Hall ltac:(lia)
                ltac:(lia)) as Hexponential.
  replace (buf_len ds + exponent - buf_len ds) with exponent in * by lia.
  destruct ((kMinExp <? buf_len ds + exponent) && Fp_le fmt bits (kMaxVal fmt));
    assumption.
Qed.

(** C1: for every finite positive single or double [x], [DtoaPositive]
    returns, the bytes it wrote are a numeral that [strtod] (or [strtof])
    accepts, and under round-to-nearest, whatever the rule for ties, the
    value read back is [x] and no other. *)
Theorem DtoaPositive_round_trip (fmt : FpFormat) (bits : Z) (fuel : nat)
    (buffer : list ascii) (ftdz : bool) :
  is_iec559_single_or_double fmt ->
  finite_positive fmt bits ->
  (17 <= fuel)%nat ->
  24 <= buf_len buffer ->
  exists s tail,
    DtoaPositive fmt fuel buffer bits ftdz = Ok (s ++ tail, buf_len s)
    /\ strtod_correctly_rounded fmt s bits
    /\ forall y, strtod_correctly_rounded fmt s y -> y = bits.
Proof.
  intros Hfmt Hfp Hfuel Hroom.
  pose proof (finite_positive_range fmt bits Hfmt Hfp) as Hrange.
  destruct (DtoaPositive_spec fmt bits fuel buffer ftdz Hfmt Hfp Hfuel Hroom)
    as (ds & tail0 & exponent & tail & _ & Hdtoa & _ & Hlen & Hall & Hlead & Hexp & Hin).
  assert (HN : max_digits10 fmt <= 17) by (destruct Hfmt as [-> | ->]; simpl; lia).
  destruct (strtod_positive_string fmt bits ds exponent ftdz Hall ltac:(lia) Hexp)
    as (mx & Hparse & Hvalue).
  exists (positive_string fmt bits ds exponent ftdz), tail.
  split; [exact Hdtoa |].
  set (q := decimal_value mx) in *. rewrite <- Hvalue in Hin.
  assert (Hq0 : (0 < q)%R).
  { rewrite Hvalue. apply Rmult_lt_0_compat; [| apply powerRZ10_pos].
    apply IZR_lt. pose proof (pow10_pos (buf_len ds - 1)). lia. }
  assert (Hfinite : (Rabs q < overflow_threshold fmt)%R).
  { rewrite Rabs_pos_eq by lra.
    pose proof (upper_boundary_no_overflow fmt bits Hfmt Hrange). lra. }
  assert (Hnear : nearest_finite fmt q bits).
  { destruct Hfp as (Hbits & Hfin & Hpos).
    split; [exact Hbits |]. split; [exact Hfin |].
    intros z Hz Hzfin.
    destruct (Fp_unique_nearest fmt bits q z Hfmt (conj Hbits (conj Hfin Hpos)) Hin Hz Hzfin)
      as [-> | Hlt]; lra. }
  split.
  - exists mx. split; [exact Hparse |].
    split; [apply Hfp |]. split; [intros _; exact Hnear |].
    intros Hover. fold q in Hover. lra.
  - intros y (mx' & Hparse' & Hy & Hynear & _).
    rewrite Hparse in Hparse'. injection Hparse' as <-. fold q in Hynear.
    destruct (Hynear Hfinite) as (Hybits & Hyfin & Hymin).
    destruct (Fp_unique_nearest fmt bits q y Hfmt Hfp Hin Hybits Hyfin) as [-> | Hlt];
      [reflexivity |].
    specialize (Hymin bits ltac:(apply Hfp) ltac:(apply Hfp)). lra.
Qed.

Lemma DtoaPositive_round_trip_witness :
  exists s tail,
    DtoaPositive binary64 17 (blank 24) 0x3FB999999999999A false = Ok (s ++ tail, buf_len s)
    /\ strtod_correctly_rounded binary64 s 0x3FB999999999999A.
Proof.
  assert (Hfp : finite_positive binary64 0x3FB999999999999A).
  { unfold finite_positive, is_bits. simpl. repeat split; lia. }
  assert (Hroom : 24 <= buf_len (blank 24)) by (unfold buf_len; simpl; lia).
  destruct (DtoaPositive_round_trip binary64 0x3FB999999999999A 17 (blank 24) false
              ltac:(right; reflexivity) Hfp (le_n 17) Hroom)
    as (s & tail & Hrun & Hread & _).
  exists s, tail. split; [exact Hrun | exact Hread].
Defined.

(** ** The digits do not depend on what the buffer held *)

Lemma same_prefix_le n m b b' :
  same_prefix n b b' -> m <= n -> same_prefix m b b'.
Proof.
  intros [Hlen Hpre] Hm. split; [exact Hlen |].
  replace (Z.to_nat m) with (Nat.min (Z.to_nat m) (Z.to_nat n)) by lia.
  rewrite <- !firstn_firstn. rewrite Hpre. reflexivity.
Qed.

Lemma same_prefix_app ds tail b' :
  same_prefix (buf_len ds) (ds ++ tail) b' ->
  exists tail', b' = ds ++ tail'.
Proof.
  intros [Hlen Hpre]. rewrite firstn_buf_len in Hpre.
  exists (skipn (Z.to_nat (buf_len ds)) b').
  rewrite Hpre at 1. symmetry. apply firstn_skipn.
Qed.

Lemma buf_load_same n b b' i k cs :
  same_prefix n b b' -> i + k <= n ->
  buf_load b i k = Ok cs -> buf_load b' i k = Ok cs.
Proof.
  intros [Hlen Hpre] Hik. unfold buf_load, buf_len.
  destruct (Z.leb_spec 0 i) as [Hi | Hi]; [| discriminate].
  destruct (Z.leb_spec 0 k) as [Hk | Hk]; [| discriminate].
  destruct (Z.leb_spec (i + k) (Z.of_nat (length b))) as [Hin | Hin]; [| discriminate].
  destruct (Z.leb_spec (i + k) (Z.of_nat (length b'))) as [_ | Hbad]; [| lia].
  cbn [andb]. intros Hcs. injection Hcs as <-. f_equal.
  rewrite !firstn_skipn_comm.
  assert (Hcut : forall l : list ascii,
            firstn (Z.to_nat i + Z.to_nat k) l
            = firstn (Z.to_nat i + Z.to_nat k) (firstn (Z.to_nat n) l)).
  { intros l. rewrite firstn_firstn. f_equal. lia. }
  rewrite (Hcut b), (Hcut b'), Hpre. reflexivity.
Qed.

Lemma buf_read_same n b b' i c :
  same_prefix n b b' -> i < n -> buf_read b i = Ok c -> buf_read b' i = Ok c.
Proof.
  intros Hsame Hi. unfold buf_read.
  destruct (buf_load b i 1) as [cs | err] eqn:Hload; cbn [bind]; [| discriminate].
  rewrite (buf_load_same n b b' i 1 cs Hsame ltac:(lia) Hload). cbn [bind].
  intros Hc. exact Hc.
Qed.

Lemma buf_store_same n b b' i cs b1 :
  same_prefix n b b' -> i <= n ->
  buf_store b i cs = Ok b1 ->
  exists b1', buf_store b' i cs = Ok b1'
              /\ same_prefix (Z.max n (i + buf_len cs)) b1 b1'.
Proof.
  intros [Hlen Hpre] Hi. unfold buf_store, buf_len.
  destruct (Z.leb_spec 0 i) as [Hi0 | Hi0]; [| discriminate].
  destruct (Z.leb_spec (i + Z.of_nat (length cs)) (Z.of_nat (length b))) as [Hin | Hin];
    [| discriminate].
  destruct (Z.leb_spec (i + Z.of_nat (length cs)) (Z.of_nat (length b')))
    as [_ | Hbad]; [| lia].
  cbn [andb]. intros Hb1. injection Hb1 as <-.
  eexists. split; [reflexivity |].
  assert (Hhead : firstn (Z.to_nat i) b = firstn (Z.to_nat i) b').
  { replace (Z.to_nat i) with (Nat.min (Z.to_nat i) (Z.to_nat n)) by lia.
    rewrite <- !firstn_firstn. rewrite Hpre. reflexivity. }
  split.
  - rewrite !length_app, !length_firstn, !length_skipn. lia.
  - rewrite !app_assoc. rewrite <- Hhead.
    set (head := firstn (Z.to_nat i) b ++ cs).
    assert (Hhl : length head = (Z.to_nat i + length cs)%nat).
    { subst head. rewrite length_app, length_firstn. lia. }
    rewrite !firstn_app, Hhl. f_equal.
    set (m := (Z.to_nat (Z.max n (i + Z.of_nat (length cs)))
               - (Z.to_nat i + length cs))%nat).
    destruct (Nat.eq_dec m 0) as [-> | Hm]; [reflexivity |].
    rewrite !firstn_skipn_comm.
    assert (Hcut : forall l : list ascii,
              firstn (Z.to_nat i + length cs + m) l
              = firstn (Z.to_nat i + length cs + m) (firstn (Z.to_nat n) l)).
    { intros l. rewrite firstn_firstn. f_equal. lia. }
    rewrite (Hcut b), (Hcut b'), Hpre. reflexivity.
Qed.

Lemma buf_write_same n b b' i c b1 :
  same_prefix n b b' -> i <= n ->
  buf_write b i c = Ok b1 ->
  exists b1', buf_write b' i c = Ok b1' /\ same_prefix (Z.max n (i + 1)) b1 b1'.
Proof. intros Hsame Hi. apply (buf_store_same n b b' i [c] b1 Hsame Hi). Qed.

Lemma buf_load_length b i k cs :
  0 <= k -> buf_load b i k = Ok cs -> buf_len cs = k.
Proof.
  intros Hk. unfold buf_load.
  destruct (Z.leb_spec 0 i) as [Hi | Hi]; [| discriminate].
  destruct (Z.leb_spec 0 k) as [_ | Hbad]; [| discriminate].
  destruct (Z.leb_spec (i + k) (buf_len b)) as [Hin | Hin]; [| discriminate].
  cbn [andb]. intros Hcs. injection Hcs as <-.
  unfold buf_len in *. rewrite length_firstn, length_skipn. lia.
Qed.

Lemma Utoa100_stable : prefix_stable Utoa100.
Proof.
  intros b b' pos n b1 pos1 Hsame Hpos. unfold Utoa100.
  destruct (n <? 100); cbn [assert bind]; [| discriminate].
  destruct (buf_load kDigits100 (2 * n) 2) as [pair | err] eqn:Hload; cbn [bind];
    [| discriminate].
  apply buf_load_length in Hload; [| lia].
  destruct (buf_store b pos pair) as [b2 | err] eqn:Hstore; cbn [bind]; [| discriminate].
  intros Hres. injection Hres as <- <-.
  destruct (buf_store_same pos b b' pos pair b2 Hsame ltac:(lia) Hstore)
    as (b2' & Hstore' & Hsame').
  exists b2'. rewrite Hstore'. cbn [bind]. split; [reflexivity |].
  split; [| lia]. apply (same_prefix_le _ _ _ _ Hsame'). lia.
Qed.

Lemma L_1_digit_stable : prefix_stable L_1_digit.
Proof.
  intros b b' pos n b1 pos1 Hsame Hpos. unfold L_1_digit.
  destruct (buf_write b pos (char_of_Z (48 + n))) as [b2 | err] eqn:Hwrite; cbn [bind];
    [| discriminate].
  intros Hres. injection Hres as <- <-.
  destruct (buf_write_same pos b b' pos _ b2 Hsame ltac:(lia) Hwrite)
    as (b2' & Hwrite' & Hsame').
  exists b2'. rewrite Hwrite'. cbn [bind]. split; [reflexivity |].
  split; [| lia]. apply (same_prefix_le _ _ _ _ Hsame'). lia.
Qed.

Lemma prefix_stable_step G bound :
  prefix_stable G ->
  prefix_stable (fun buffer pos n =>
                   '(buffer, pos) <- Utoa100 buffer pos (Z.quot n bound) ;;
                   G buffer pos (Z.rem n bound)).
Proof.
  intros HG b b' pos n b1 pos1 Hsame Hpos.
  destruct (Utoa100 b pos (Z.quot n bound)) as [[b2 pos2] | err] eqn:Hrun; cbn [bind];
    [| discriminate].
  destruct (Utoa100_stable b b' pos _ b2 pos2 Hsame Hpos Hrun)
    as (b2' & Hrun' & Hsame' & Hpos2).
  rewrite Hrun'. cbn [bind]. apply HG; assumption.
Qed.

Lemma L_2_digits_stable : prefix_stable L_2_digits.
Proof. exact Utoa100_stable. Qed.

Lemma L_3_digits_stable : prefix_stable L_3_digits.
Proof. exact (prefix_stable_step L_1_digit 10 L_1_digit_stable). Qed.

Lemma L_4_digits_stable : prefix_stable L_4_digits.
Proof. exact (prefix_stable_step L_2_digits 100 L_2_digits_stable). Qed.

Lemma L_5_digits_stable : prefix_stable L_5_digits.
Proof. exact (prefix_stable_step L_3_digits 1000 L_3_digits_stable). Qed.

Lemma L_6_digits_stable : prefix_stable L_6_digits.
Proof. exact (prefix_stable_step L_4_digits 10000 L_4_digits_stable). Qed.

Lemma L_7_digits_stable : prefix_stable L_7_digits.
Proof. exact (prefix_stable_step L_5_digits 100000 L_5_digits_stable). Qed.

Lemma L_8_digits_stable : prefix_stable L_8_digits.
Proof. exact (prefix_stable_step L_6_digits 1000000 L_6_digits_stable). Qed.

Lemma L_9_digits_stable : prefix_stable L_9_digits.
Proof. exact (prefix_stable_step L_7_digits 10000000 L_7_digits_stable). Qed.

Lemma GenerateIntegralDigits_stable b b' n b1 endp :
  (length b <= length b')%nat ->
  GenerateIntegralDigits b n = Ok (b1, endp) ->
  exists b1', GenerateIntegralDigits b' n = Ok (b1', endp)
              /\ same_prefix endp b1 b1' /\ 0 <= endp.
Proof.
  intros Hlen. unfold GenerateIntegralDigits.
  assert (Hsame : same_prefix 0 b b') by (split; [exact Hlen | reflexivity]).
  destruct (n <=? 798336123); cbn [assert bind]; [| discriminate].
  repeat match goal with
         | |- context [if ?c then _ else _] => destruct c
         end;
    first [ apply L_9_digits_stable | apply L_8_digits_stable | apply L_7_digits_stable
          | apply L_6_digits_stable | apply L_5_digits_stable | apply L_4_digits_stable
          | apply L_3_digits_stable | apply L_2_digits_stable | apply L_1_digit_stable ];
    first [ exact Hsame | lia ].
Qed.

Lemma DigitGen_fraction_loop_stable fuel one :
  forall b b' length m p2 delta distance s,
    same_prefix length b b' ->
    DigitGen_fraction_loop fuel one b length m p2 delta distance = Ok s ->
    exists s',
      DigitGen_fraction_loop fuel one b' length m p2 delta distance = Ok s'
      /\ same_locals s s'.
Proof.
  induction fuel as [| fuel IH]; intros b b' length m p2 delta distance s Hsame;
    cbn [DigitGen_fraction_loop]; [discriminate |].
  destruct (length <? 17); cbn [assert bind]; [| discriminate].
  destruct (p2 <=? UINT64_MAX / 10); cbn [assert bind]; [| discriminate].
  destruct (Z.shiftr (wrap64 (p2 * 10)) (- e one) <=? 9); cbn [assert bind];
    [| discriminate].
  destruct (buf_write b length _) as [b2 | err] eqn:Hwrite; cbn [bind]; [| discriminate].
  destruct (buf_write_same length b b' length _ b2 Hsame ltac:(lia) Hwrite)
    as (b2' & Hwrite' & Hsame').
  rewrite Hwrite'. cbn [bind].
  apply (same_prefix_le _ (length + 1)) in Hsame'; [| lia].
  destruct (_ <=? wrap64 (delta * 10)).
  - intros Hs. injection Hs as <-. eexists. split; [reflexivity |].
    unfold same_locals. cbn. repeat split; try reflexivity; apply Hsame'.
  - apply IH. exact Hsame'.
Qed.

Lemma DigitGen_integral_loop_stable fuel :
  forall b b' k n distance delta rest ten_kappa s,
    same_prefix k b b' -> 0 <= n ->
    DigitGen_integral_loop fuel b k n distance delta rest ten_kappa = Ok s ->
    exists s',
      DigitGen_integral_loop fuel b' k n distance delta rest ten_kappa = Ok s'
      /\ same_locals s s'.
Proof.
  induction fuel as [| fuel IH]; intros b b' k n distance delta rest ten_kappa s Hsame Hn;
    cbn [DigitGen_integral_loop]; [discriminate |].
  destruct (Z.leb_spec n (k - 1)) as [Hnk | Hnk]; cbn [assert bind]; [| discriminate].
  destruct (rest <=? delta); cbn [assert bind]; [| discriminate].
  destruct (buf_read b (k - 1 - n)) as [c | err] eqn:Hread; cbn [bind]; [| discriminate].
  rewrite (buf_read_same k b b' (k - 1 - n) c Hsame ltac:(lia) Hread). cbn [bind].
  destruct (_ >? delta).
  - intros Hs. injection Hs as <-. eexists. split; [reflexivity |].
    unfold same_locals. cbn. repeat split; try reflexivity;
      apply (same_prefix_le k (k - n) b b' Hsame); lia.
  - apply IH; [exact Hsame | lia].
Qed.

Lemma Grisu2Round_stable fuel b b' length distance delta rest ten_kappa b1 :
  same_prefix length b b' ->
  Grisu2Round fuel b length distance delta rest ten_kappa = Ok b1 ->
  exists b1',
    Grisu2Round fuel b' length distance delta rest ten_kappa = Ok b1'
    /\ same_prefix length b1 b1'.
Proof.
  intros Hsame. unfold Grisu2Round.
  destruct (Z.geb_spec length 1) as [Hlen | Hlen]; cbn [assert bind]; [| discriminate].
  destruct (distance <=? delta); cbn [assert bind]; [| discriminate].
  destruct (rest <=? delta); cbn [assert bind]; [| discriminate].
  destruct (ten_kappa >? 0); cbn [assert bind]; [| discriminate].
  destruct (buf_read b (length - 1)) as [c | err] eqn:Hread; cbn [bind]; [| discriminate].
  rewrite (buf_read_same length b b' (length - 1) c Hsame ltac:(lia) Hread). cbn [bind].
  destruct (Grisu2Round_loop fuel distance delta ten_kappa (Z_of_char c - 48) rest)
    as [[digit rest'] | err]; cbn [bind]; [| discriminate].
  intros Hwrite.
  destruct (buf_write_same length b b' (length - 1) _ b1 Hsame ltac:(lia) Hwrite)
    as (b1' & Hwrite' & Hsame').
  exists b1'. split; [exact Hwrite' |].
  apply (same_prefix_le _ _ _ _ Hsame'). lia.
Qed.

Lemma Grisu2DigitGen_digits_stable fuel b b' L w H s :
  (length b <= length b')%nat ->
  Grisu2DigitGen_digits fuel b L w H = Ok s ->
  exists s', Grisu2DigitGen_digits fuel b' L w H = Ok s' /\ same_locals s s'.
Proof.
  intros Hlen. unfold Grisu2DigitGen_digits.
  repeat match goal with
         | |- context [assert ?c _] => destruct c; cbn [assert bind]; [| discriminate]
         end.
  destruct (Subtract H w) as [dw | err]; cbn [bind]; [| discriminate].
  destruct (Subtract H L) as [dl | err]; cbn [bind]; [| discriminate].
  repeat match goal with
         | |- context [assert ?c _] => destruct c; cbn [assert bind]; [| discriminate]
         end.
  destruct (GenerateIntegralDigits b _) as [[b1 endp] | err] eqn:Hgen; cbn [bind];
    [| discriminate].
  destruct (GenerateIntegralDigits_stable b b' _ b1 endp Hlen Hgen)
    as (b1' & Hgen' & Hsame & Hendp).
  rewrite Hgen'. cbn [bind]. rewrite Z.sub_0_r.
  destruct (_ >? f dl).
  - apply DigitGen_fraction_loop_stable. exact Hsame.
  - repeat match goal with
           | |- context [assert ?c _] => destruct c; cbn [assert bind]; [| discriminate]
           end.
    apply DigitGen_integral_loop_stable; [exact Hsame | lia].
Qed.

Lemma Grisu2DigitGen_stable fuel b b' L w H b1 len exponent :
  (length b <= length b')%nat ->
  Grisu2DigitGen fuel b L w H = Ok (b1, len, exponent) ->
  exists b1', Grisu2DigitGen fuel b' L w H = Ok (b1', len, exponent)
              /\ same_prefix len b1 b1'.
Proof.
  intros Hlen. unfold Grisu2DigitGen.
  destruct (Grisu2DigitGen_digits fuel b L w H) as [s | err] eqn:Hdigits; cbn [bind];
    [| discriminate].
  destruct (Grisu2DigitGen_digits_stable fuel b b' L w H s Hlen Hdigits)
    as (s' & Hdigits' & Hsame & Hl & He & Hd & Hdelta & Hr & Htk).
  rewrite Hdigits'. cbn [bind]. rewrite Hl, He, Hd, Hdelta, Hr, Htk.
  destruct (Grisu2Round fuel (dg_buffer s) _ _ _ _ _) as [b2 | err] eqn:Hround;
    cbn [bind]; [| discriminate].
  destruct (Grisu2Round_stable fuel _ _ _ _ _ _ _ b2 Hsame Hround)
    as (b2' & Hround' & Hsame').
  rewrite Hround'. cbn [bind].
  intros Hres. injection Hres as <- <- <-.
  exists b2'. split; [reflexivity | exact Hsame'].
Qed.

(** [Grisu2] returns the same digits, length and exponent whatever the
    buffer held. *)
Lemma Grisu2_Fp_stable fuel fmt b b' bits b1 len exponent :
  (length b <= length b')%nat ->
  Grisu2_Fp fuel fmt b bits = Ok (b1, len, exponent) ->
  exists b1', Grisu2_Fp fuel fmt b' bits = Ok (b1', len, exponent)
              /\ same_prefix len b1 b1'.
Proof.
  intros Hlen. unfold Grisu2_Fp, Grisu2.
  repeat match goal with
         | |- context [assert ?c _] => destruct c; cbn [assert bind]; [| discriminate]
         end.
  destruct (ComputeBoundaries fmt bits) as [bd | err]; cbn [bind]; [| discriminate].
  repeat match goal with
         | |- context [assert ?c _] => destruct c; cbn [assert bind]; [| discriminate]
         end.
  destruct (GetCachedPowerForBinaryExponent _) as [cached | err]; cbn [bind];
    [| discriminate].
  repeat match goal with
         | |- context [assert ?c _] => destruct c; cbn [assert bind]; [| discriminate]
         end.
  destruct (Grisu2DigitGen fuel b _ _ _) as [[[b2 len2] exp2] | err] eqn:Hgen;
    cbn [bind]; [| discriminate].
  destruct (Grisu2DigitGen_stable fuel b b' _ _ _ b2 len2 exp2 Hlen Hgen)
    as (b2' & Hgen' & Hsame).
  rewrite Hgen'. cbn [bind].
  intros Hres. injection Hres as <- <- <-.
  exists b2'. split; [reflexivity | exact Hsame].
Qed.

(** ** Sign and special values *)

Lemma testbit_small a n : 0 <= a < 2 ^ n -> Z.testbit a n = false.
Proof.
  intros Ha. destruct (Z_lt_le_dec n 0) as [Hn | Hn]; [apply Z.testbit_neg_r; lia |].
  apply Z.testbit_false; [exact Hn |]. rewrite Z.div_small by lia. reflexivity.
Qed.

Lemma lxor_pow2_small a n : 0 <= a < 2 ^ n -> Z.lxor a (2 ^ n) = a + 2 ^ n.
Proof.
  intros Ha. destruct (Z_lt_le_dec n 0) as [Hn | Hn].
  { rewrite Z.pow_neg_r in Ha by lia. lia. }
  symmetry. apply Z.add_nocarry_lxor.
  apply Z.bits_inj'. intros k Hk.
  rewrite Z.land_spec, Z.bits_0, Z.pow2_bits_eqb by lia.
  destruct (Z.eqb_spec n k) as [<- | Hne]; [| apply andb_false_r].
  rewrite testbit_small by exact Ha. reflexivity.
Qed.

(** Unary minus on the bit pattern, as arithmetic. *)
Lemma Fp_neg_arith fmt bits :
  is_iec559_single_or_double fmt ->
  is_bits fmt bits ->
  Fp_neg fmt bits
  = if signbit fmt bits then bits - 2 ^ (bits_width fmt - 1)
    else bits + 2 ^ (bits_width fmt - 1).
Proof.
  intros Hfmt Hbits. unfold Fp_neg, signbit, is_bits in *.
  set (n := bits_width fmt - 1).
  assert (Hn : 0 <= n) by (destruct Hfmt as [-> | ->]; subst n; simpl; lia).
  assert (Hw : 2 ^ bits_width fmt = 2 * 2 ^ n).
  { replace (bits_width fmt) with (n + 1) by (subst n; lia).
    rewrite Z.pow_add_r by lia. lia. }
  destruct (Z.testbit bits n) eqn:Hbit.
  - assert (Hge : 2 ^ n <= bits).
    { destruct (Z_lt_le_dec bits (2 ^ n)) as [Hlt | Hge]; [| exact Hge].
      rewrite testbit_small in Hbit by lia. discriminate. }
    replace bits with ((bits - 2 ^ n) + 2 ^ n) at 1 by lia.
    rewrite <- lxor_pow2_small by lia.
    rewrite Z.lxor_assoc, Z.lxor_nilpotent, Z.lxor_0_r. reflexivity.
  - apply lxor_pow2_small. split; [lia |].
    apply testbit_false_lt; [exact Hn | | exact Hbit].
    replace (n + 1) with (bits_width fmt) by (subst n; lia). exact Hbits.
Qed.

Lemma Fp_neg_facts fmt bits :
  is_iec559_single_or_double fmt ->
  is_bits fmt bits ->
  is_bits fmt (Fp_neg fmt bits)
  /\ signbit fmt (Fp_neg fmt bits) = negb (signbit fmt bits)
  /\ exponent_field fmt (Fp_neg fmt bits) = exponent_field fmt bits
  /\ fraction_field fmt (Fp_neg fmt bits) = fraction_field fmt bits
  /\ Fp_is_zero fmt (Fp_neg fmt bits) = Fp_is_zero fmt bits
  /\ Fp_neg fmt (Fp_neg fmt bits) = bits.
Proof.
  intros Hfmt Hbits.
  pose proof (Fp_neg_arith fmt bits Hfmt Hbits) as Harith.
  assert (Hsign : signbit fmt (Fp_neg fmt bits) = negb (signbit fmt bits)).
  { unfold signbit, Fp_neg. rewrite Z.lxor_spec, Z.pow2_bits_true.
    - apply xorb_true_r.
    - destruct Hfmt as [-> | ->]; simpl; lia. }
  assert (Hinv : Fp_neg fmt (Fp_neg fmt bits) = bits).
  { unfold Fp_neg. rewrite Z.lxor_assoc, Z.lxor_nilpotent, Z.lxor_0_r. reflexivity. }
  assert (Hrange : is_bits fmt (Fp_neg fmt bits)).
  { rewrite Harith. unfold is_bits, signbit in *.
    destruct Hfmt as [-> | ->]; cbv [binary32 binary64 digits bits_width max_exponent] in *.
    - change (32 - 1) with 31 in *.
      destruct (Z.testbit bits 31) eqn:Hbit.
      + destruct (Z_lt_le_dec bits (2 ^ 31)) as [Hlt | Hge]; [| lia].
        rewrite testbit_small in Hbit by lia. discriminate.
      + apply testbit_false_lt in Hbit; [lia | lia | exact Hbits].
    - change (64 - 1) with 63 in *.
      destruct (Z.testbit bits 63) eqn:Hbit.
      + destruct (Z_lt_le_dec bits (2 ^ 63)) as [Hlt | Hge]; [| lia].
        rewrite testbit_small in Hbit by lia. discriminate.
      + apply testbit_false_lt in Hbit; [lia | lia | exact Hbits]. }
  split; [exact Hrange |]. split; [exact Hsign |].
  assert (Hshape : exists s, Fp_neg fmt bits = bits + s * 2 ^ (bits_width fmt - 1)).
  { rewrite Harith. destruct (signbit fmt bits); [exists (-1) | exists 1]; lia. }
  destruct Hshape as [s Hs]. rewrite Hs.
  unfold exponent_field, fraction_field, Fp_is_zero.
  split; [| split; [| split; [| rewrite <- Hs; exact Hinv]]].
  - rewrite !Z.shiftr_div_pow2 by (destruct Hfmt as [-> | ->]; simpl; lia).
    destruct Hfmt as [-> | ->]; cbv [binary32 binary64 digits bits_width max_exponent].
    + replace (bits + s * 2 ^ (32 - 1)) with (bits + (s * 2 ^ 8) * 2 ^ (24 - 1)) by lia.
      rewrite Z.div_add by lia. change (32 - 24) with 8. apply Z.mod_add. lia.
    + replace (bits + s * 2 ^ (64 - 1)) with (bits + (s * 2 ^ 11) * 2 ^ (53 - 1)) by lia.
      rewrite Z.div_add by lia. change (64 - 53) with 11. apply Z.mod_add. lia.
  - destruct Hfmt as [-> | ->]; cbv [binary32 binary64 digits bits_width max_exponent].
    + replace (bits + s * 2 ^ (32 - 1)) with (bits + (s * 2 ^ 8) * 2 ^ (24 - 1)) by lia.
      apply Z.mod_add. lia.
    + replace (bits + s * 2 ^ (64 - 1)) with (bits + (s * 2 ^ 11) * 2 ^ (53 - 1)) by lia.
      apply Z.mod_add. lia.
  - rewrite Z.mod_add; [reflexivity |].
    destruct Hfmt as [-> | ->]; simpl; lia.
Qed.

Lemma Fp_neg_class fmt bits :
  is_iec559_single_or_double fmt ->
  is_bits fmt bits ->
  isnan fmt (Fp_neg fmt bits) = isnan fmt bits
  /\ isinf fmt (Fp_neg fmt bits) = isinf fmt bits
  /\ isfinite fmt (Fp_neg fmt bits) = isfinite fmt bits.
Proof.
  intros Hfmt Hbits.
  destruct (Fp_neg_facts fmt bits Hfmt Hbits) as (_ & _ & HE & HF & _).
  unfold isnan, isinf, isfinite. rewrite HE, HF. repeat split.
Qed.

Lemma buf_store_cons c b i cs :
  0 <= i ->
  buf_store (c :: b) (1 + i) cs = (t <- buf_store b i cs ;; Ok (c :: t)).
Proof.
  intros Hi. unfold buf_store, buf_len. cbn [length].
  destruct (Z.leb_spec 0 i) as [_ | Hbad]; [| lia].
  destruct (Z.leb_spec 0 (1 + i)) as [_ | Hbad]; [| lia].
  cbn [andb].
  destruct (Z.leb_spec (i + Z.of_nat (length cs)) (Z.of_nat (length b))) as [Hin | Hout].
  - destruct (Z.leb_spec (1 + i + Z.of_nat (length cs)) (Z.of_nat (S (length b))))
      as [_ | Hbad]; [| lia].
    cbn [bind]. f_equal.
    replace (Z.to_nat (1 + i)) with (S (Z.to_nat i)) by lia.
    reflexivity.
  - destruct (Z.leb_spec (1 + i + Z.of_nat (length cs)) (Z.of_nat (S (length b))))
      as [Hbad | _]; [lia |].
    reflexivity.
Qed.

Lemma StrCopy_cons c b n s :
  0 <= n ->
  StrCopy (c :: b) (1 + n) s
  = ('(t, endp) <- StrCopy b n s ;; Ok (c :: t, 1 + endp)).
Proof.
  intros Hn. unfold StrCopy. rewrite buf_store_cons by exact Hn.
  replace (buf_len (c :: b)) with (1 + buf_len b) by (unfold buf_len; cbn [length]; lia).
  replace (1 + n <=? 1 + buf_len b) with (n <=? buf_len b)
    by (destruct (Z.leb_spec n (buf_len b)), (Z.leb_spec (1 + n) (1 + buf_len b));
        reflexivity || lia).
  replace (1 + buf_len b - (1 + n)) with (buf_len b - n) by lia.
  destruct (n <=? buf_len b); cbn [assert bind]; [| reflexivity].
  destruct (buf_len b - n >=? Z.of_nat (String.length s)); cbn [assert bind];
    [| reflexivity].
  destruct (buf_store b n (list_ascii_of_string s)); cbn [bind]; [| reflexivity].
  f_equal. f_equal. lia.
Qed.

Lemma length_list_ascii_of_string s :
  length (list_ascii_of_string s) = String.length s.
Proof. induction s as [| c s IH]; cbn; [reflexivity | f_equal; exact IH]. Qed.

(** [StrCopy] at the start of a buffer that has room. *)
Lemma StrCopy_spec b s :
  Z.of_nat (String.length s) <= buf_len b ->
  exists tail,
    StrCopy b 0 s
    = Ok (list_ascii_of_string s ++ tail, buf_len (list_ascii_of_string s)).
Proof.
  intros Hroom. unfold StrCopy.
  pose proof (buf_len_nonneg b) as Hb.
  destruct (Z.leb_spec 0 (buf_len b)) as [_ | Hbad]; [| lia]. cbn [assert bind].
  destruct (Z.geb_spec (buf_len b - 0) (Z.of_nat (String.length s))) as [_ | Hbad];
    [| lia].
  cbn [assert bind].
  destruct (tail_split b (String.length s) Hroom) as (old & tail & -> & Hold).
  pose proof (buf_store_app [] old (list_ascii_of_string s) tail) as Hstore.
  cbn [app] in Hstore. change (buf_len []) with 0 in Hstore.
  rewrite Hstore by (rewrite length_list_ascii_of_string; exact Hold).
  cbn [bind]. exists tail. f_equal. f_equal.
  unfold buf_len. rewrite length_list_ascii_of_string. lia.
Qed.

(** On a negative value [Dtoa] writes the sign and goes on as on the
    magnitude, in the rest of the buffer. *)
Lemma Dtoa_negative fmt fuel c b bits ftdz nan_string inf_string :
  is_iec559_single_or_double fmt ->
  is_bits fmt bits ->
  signbit fmt bits = false -> isnan fmt bits = false ->
  Dtoa fmt fuel (c :: b) (Fp_neg fmt bits) ftdz nan_string inf_string
  = ('(t, endp) <- Dtoa fmt fuel b bits ftdz nan_string inf_string ;;
     Ok ("-"%char :: t, 1 + endp)).
Proof.
  intros Hfmt Hbits Hsign Hnan.
  destruct (Fp_neg_facts fmt bits Hfmt Hbits) as (_ & Hs & _ & _ & _ & Hinv).
  destruct (Fp_neg_class fmt bits Hfmt Hbits) as (Hn & _ & _).
  unfold Dtoa. rewrite Hn, Hnan, Hs, Hsign, Hinv. cbn [negb].
  change (buf_write (c :: b) 0 "-"%char) with (buf_write ([] ++ c :: b) (buf_len []) "-"%char).
  rewrite buf_write_app. cbn [bind app].
  destruct (isinf fmt bits).
  - apply (StrCopy_cons "-"%char b 0 inf_string). lia.
  - destruct (Fp_is_zero fmt bits).
    + unfold buf_write.
      rewrite (buf_store_cons "-"%char b 0) by lia.
      destruct (buf_store b 0 ["0"%char]) as [b1 | err]; cbn [bind]; [| reflexivity].
      destruct ftdz; [| reflexivity].
      rewrite (buf_store_cons "-"%char b1 (0 + 1)) by lia.
      destruct (buf_store b1 (0 + 1) ["."%char]) as [b2 | err]; cbn [bind]; [| reflexivity].
      change (1 + 1 + 1) with (1 + (0 + 1 + 1)).
      rewrite (buf_store_cons "-"%char b2 (0 + 1 + 1)) by lia.
      destruct (buf_store b2 (0 + 1 + 1) ["0"%char]) as [b3 | err]; cbn [bind];
        reflexivity.
    + change (Z.to_nat 1) with 1%nat. change (Z.to_nat 0) with 0%nat.
      cbn [skipn firstn app].
      destruct (DtoaPositive fmt fuel b bits ftdz) as [[t endp] | err]; cbn [bind];
        [| reflexivity].
      f_equal.
Qed.

Lemma writes_output r s : writes r s -> output r = Ok (string_of_list_ascii s).
Proof. intros [tail ->]. apply output_Ok. Qed.

Lemma buffer_cons b n : 1 <= n -> n <= buf_len b -> exists c b0, b = c :: b0 /\ n - 1 <= buf_len b0.
Proof.
  intros Hn Hb. destruct b as [| c b0].
  - change (buf_len []) with 0 in Hb. lia.
  - exists c, b0. split; [reflexivity |]. unfold buf_len in *. cbn [length] in Hb. lia.
Qed.

(** [DtoaPositive] writes the same bytes into every buffer that has room. *)
Lemma DtoaPositive_function fmt bits fuel ftdz :
  is_iec559_single_or_double fmt ->
  finite_positive fmt bits ->
  (17 <= fuel)%nat ->
  exists s, forall b, 24 <= buf_len b -> writes (DtoaPositive fmt fuel b bits ftdz) s.
Proof.
  intros Hfmt Hfp Hfuel.
  assert (Hroom0 : 24 <= buf_len (blank 24)) by (unfold buf_len; simpl; lia).
  destruct (DtoaPositive_spec fmt bits fuel (blank 24) ftdz Hfmt Hfp Hfuel Hroom0)
    as (ds & tail0 & exponent & _ & Hrun0 & _).
  exists (positive_string fmt bits ds exponent ftdz).
  intros b Hroom.
  destruct (DtoaPositive_spec fmt bits fuel b ftdz Hfmt Hfp Hfuel Hroom)
    as (ds' & tail0' & exponent' & tail & Hrun & Hdtoa & _).
  assert (Hlen : (length (blank 24) <= length b)%nat).
  { unfold buf_len in *. simpl in *. lia. }
  destruct (Grisu2_Fp_stable fuel fmt (blank 24) b bits _ _ _ Hlen Hrun0)
    as (b1' & Hrun' & Hsame).
  destruct (same_prefix_app ds tail0 b1' Hsame) as (tail1 & ->).
  rewrite Hrun in Hrun'. injection Hrun' as Hbuf Hl He.
  assert (Hds : ds' = ds).
  { apply (f_equal (firstn (Z.to_nat (buf_len ds)))) in Hbuf.
    rewrite firstn_buf_len in Hbuf. rewrite <- Hl, firstn_buf_len in Hbuf. exact Hbuf. }
  subst ds' exponent'. exists tail. exact Hdtoa.
Qed.

Lemma positive_class fmt bits :
  Fp_is_positive fmt bits = true ->
  signbit fmt bits = false /\ isnan fmt bits = false /\ Fp_is_zero fmt bits = false.
Proof.
  unfold Fp_is_positive. intros Hpos.
  apply andb_prop in Hpos. destruct Hpos as [Hpos Hz].
  apply andb_prop in Hpos. destruct Hpos as [Hs Hn].
  apply negb_true_iff in Hs, Hn, Hz. repeat split; assumption.
Qed.

(** What [Dtoa] writes for a value above zero, infinity included, does not
    depend on the buffer. *)
Lemma Dtoa_positive_function fmt fuel bits ftdz nan_string inf_string :
  is_iec559_single_or_double fmt ->
  (17 <= fuel)%nat ->
  Z.of_nat (String.length inf_string) <= 24 ->
  is_bits fmt bits -> Fp_is_positive fmt bits = true ->
  exists s, forall b, 24 <= buf_len b ->
    writes (Dtoa fmt fuel b bits ftdz nan_string inf_string) s.
Proof.
  intros Hfmt Hfuel Hinf Hbits Hpos.
  destruct (positive_class fmt bits Hpos) as (Hs & Hn & Hz).
  destruct (isinf fmt bits) eqn:Hi.
  - exists (list_ascii_of_string inf_string). intros b Hroom.
    unfold Dtoa. rewrite Hn, Hs. cbn [bind]. rewrite Hi.
    apply StrCopy_spec. lia.
  - assert (Hfp : finite_positive fmt bits).
    { split; [exact Hbits |]. split; [| exact Hpos].
      unfold isnan, isinf, isfinite in *.
      destruct (exponent_field fmt bits =? exponent_all_ones fmt); [| reflexivity].
      destruct (fraction_field fmt bits =? 0); discriminate. }
    destruct (DtoaPositive_function fmt bits fuel ftdz Hfmt Hfp Hfuel) as (s & Hall).
    exists s. intros b Hroom. destruct (Hall b Hroom) as (tail & Hrun).
    unfold Dtoa. rewrite Hn, Hs. cbn [bind]. rewrite Hi, Hz.
    change (Z.to_nat 0) with 0%nat. cbn [skipn firstn app].
    rewrite Hrun. cbn [bind]. exists tail. reflexivity.
Qed.

Lemma writes_negative fmt fuel c b bits ftdz nan_string inf_string s :
  is_iec559_single_or_double fmt ->
  is_bits fmt bits ->
  signbit fmt bits = false -> isnan fmt bits = false ->
  writes (Dtoa fmt fuel b bits ftdz nan_string inf_string) s ->
  writes (Dtoa fmt fuel (c :: b) (Fp_neg fmt bits) ftdz nan_string inf_string)
    ("-"%char :: s).
Proof.
  intros Hfmt Hbits Hs Hn [tail Hrun].
  rewrite Dtoa_negative by assumption. rewrite Hrun. cbn [bind].
  exists tail. f_equal. f_equal. unfold buf_len. cbn [length]. lia.
Qed.

Lemma zero_class fmt :
  is_iec559_single_or_double fmt ->
  is_bits fmt 0 /\ isnan fmt 0 = false /\ signbit fmt 0 = false
  /\ isinf fmt 0 = false /\ Fp_is_zero fmt 0 = true.
Proof.
  intros [-> | ->]; (split; [unfold is_bits; simpl; lia | repeat split]).
Qed.

Lemma Dtoa_zero fmt fuel b ftdz nan_string inf_string :
  is_iec559_single_or_double fmt ->
  3 <= buf_len b ->
  writes (Dtoa fmt fuel b 0 ftdz nan_string inf_string) (zero_string ftdz).
Proof.
  intros Hfmt Hroom.
  destruct (zero_class fmt Hfmt) as (_ & Hn & Hs & Hi & Hz).
  unfold Dtoa. rewrite Hn, Hs. cbn [bind]. rewrite Hi, Hz.
  destruct b as [| c0 [| c1 [| c2 tail]]]; try (unfold buf_len in Hroom; cbn in Hroom; lia).
  rewrite (buf_write_at _ [] c0 (c1 :: c2 :: tail)) by reflexivity. cbn [bind app].
  destruct ftdz; unfold zero_string.
  - rewrite (buf_write_at _ ["0"%char] c1 (c2 :: tail)) by reflexivity. cbn [bind app].
    rewrite (buf_write_at _ ["0"%char; "."%char] c2 tail) by reflexivity. cbn [bind app].
    exists tail. reflexivity.
  - exists (c1 :: c2 :: tail). reflexivity.
Qed.

Lemma Dtoa_nan fmt fuel b bits ftdz nan_string inf_string :
  isnan fmt bits = true ->
  Z.of_nat (String.length nan_string) <= buf_len b ->
  writes (Dtoa fmt fuel b bits ftdz nan_string inf_string)
    (list_ascii_of_string nan_string).
Proof.
  intros Hn Hroom. unfold Dtoa. rewrite Hn. apply StrCopy_spec. exact Hroom.
Qed.

Lemma Dtoa_inf fmt fuel b bits ftdz nan_string inf_string :
  is_iec559_single_or_double fmt ->
  is_bits fmt bits -> isinf fmt bits = true ->
  1 + Z.of_nat (String.length inf_string) <= buf_len b ->
  writes (Dtoa fmt fuel b bits ftdz nan_string inf_string)
    (if signbit fmt bits
     then "-"%char :: list_ascii_of_string inf_string
     else list_ascii_of_string inf_string).
Proof.
  intros Hfmt Hbits Hi Hroom.
  assert (Hnan : forall x, isinf fmt x = true -> isnan fmt x = false).
  { intros x. unfold isinf, isnan.
    destruct (exponent_field fmt x =? exponent_all_ones fmt); [| reflexivity].
    destruct (fraction_field fmt x =? 0); [reflexivity | discriminate]. }
  assert (Hplus : forall x b0, isinf fmt x = true -> signbit fmt x = false ->
            Z.of_nat (String.length inf_string) <= buf_len b0 ->
            writes (Dtoa fmt fuel b0 x ftdz nan_string inf_string)
              (list_ascii_of_string inf_string)).
  { intros x b0 Hix Hsx Hb0. unfold Dtoa. rewrite (Hnan x Hix), Hsx. cbn [bind].
    rewrite Hix. apply StrCopy_spec. exact Hb0. }
  destruct (signbit fmt bits) eqn:Hs.
  - destruct (Fp_neg_facts fmt bits Hfmt Hbits) as (Hnb & Hns & _ & _ & _ & Hinv).
    destruct (Fp_neg_class fmt bits Hfmt Hbits) as (_ & Hni & _).
    rewrite Hs in Hns. cbn [negb] in Hns. rewrite Hi in Hni.
    destruct (buffer_cons b (1 + Z.of_nat (String.length inf_string)) ltac:(lia) Hroom)
      as (c & b0 & -> & Hb0).
    rewrite <- Hinv.
    apply writes_negative; try assumption; [apply Hnan; exact Hni |].
    apply Hplus; [exact Hni | exact Hns | lia].
  - apply Hplus; [exact Hi | exact Hs | lia].
Qed.

(** C9: [Dtoa], with any spellings (the default ones among them).  For a
    value [x] above zero, infinity included, the bytes written do not depend
    on the buffer, and for [-x] they are a minus sign followed by those of
    [x].  The zeros are written as [0] and [-0], or [0.0] and [-0.0] when a
    trailing [.0] is forced.  A NaN is written as the NaN spelling, without
    a sign whatever its sign bit.  An infinity is written as the infinity
    spelling, after a minus sign when its sign bit is set. *)
Theorem Dtoa_sign_and_specials (fmt : FpFormat) (fuel : nat) (ftdz : bool)
    (nan_string inf_string : string) :
  is_iec559_single_or_double fmt ->
  (17 <= fuel)%nat ->
  Z.of_nat (String.length inf_string) <= 24 ->
  let format b x := output (Dtoa fmt fuel b x ftdz nan_string inf_string) in
  (forall x, is_bits fmt x -> Fp_is_positive fmt x = true ->
     exists s,
       (forall b, 24 <= buf_len b -> format b x = Ok s)
       /\ (forall b, 25 <= buf_len b -> format b (Fp_neg fmt x) = Ok ("-" ++ s)%string))
  /\ (forall b, 4 <= buf_len b ->
        format b 0 = Ok (if ftdz then "0.0" else "0")%string
        /\ format b (Fp_neg fmt 0) = Ok (if ftdz then "-0.0" else "-0")%string)
  /\ (forall b x, is_bits fmt x -> isnan fmt x = true ->
        Z.of_nat (String.length nan_string) <= buf_len b ->
        format b x = Ok nan_string
        /\ format b (Fp_neg fmt x) = Ok nan_string)
  /\ (forall b x, is_bits fmt x -> isinf fmt x = true -> 25 <= buf_len b ->
        format b x = Ok (if signbit fmt x then "-" ++ inf_string else inf_string)%string).
Proof.
  intros Hfmt Hfuel Hinf format. subst format. cbv beta.
  split; [| split; [| split]].
  - intros x Hbits Hpos.
    destruct (Dtoa_positive_function fmt fuel x ftdz nan_string inf_string
                Hfmt Hfuel Hinf Hbits Hpos) as (s & Hall).
    destruct (positive_class fmt x Hpos) as (Hs & Hn & _).
    exists (string_of_list_ascii s). split.
    + intros b Hroom. apply writes_output, Hall, Hroom.
    + intros b Hroom.
      destruct (buffer_cons b 25 ltac:(lia) Hroom) as (c & b0 & -> & Hb0).
      apply (writes_output _ ("-"%char :: s)).
      apply writes_negative; try assumption. apply Hall. lia.
  - intros b Hroom.
    destruct (zero_class fmt Hfmt) as (Hbits & Hn & Hs & _).
    split.
    + rewrite (writes_output _ (zero_string ftdz)).
      * destruct ftdz; reflexivity.
      * apply Dtoa_zero; [exact Hfmt | lia].
    + destruct (buffer_cons b 4 ltac:(lia) Hroom) as (c & b0 & -> & Hb0).
      rewrite (writes_output _ ("-"%char :: zero_string ftdz)).
      * destruct ftdz; reflexivity.
      * apply writes_negative; try assumption. apply Dtoa_zero; [exact Hfmt | lia].
  - intros b x Hbits Hn Hroom.
    assert (Hnan : forall y, isnan fmt y = true ->
              output (Dtoa fmt fuel b y ftdz nan_string inf_string) = Ok nan_string).
    { intros y Hy. rewrite (writes_output _ (list_ascii_of_string nan_string)).
      - rewrite string_of_list_ascii_of_string. reflexivity.
      - apply Dtoa_nan; assumption. }
    split; [apply Hnan; exact Hn |].
    apply Hnan. destruct (Fp_neg_class fmt x Hfmt Hbits) as (Hneg & _).
    rewrite Hneg. exact Hn.
  - intros b x Hbits Hi Hroom.
    rewrite (writes_output _ (if signbit fmt x
                              then "-"%char :: list_ascii_of_string inf_string
                              else list_ascii_of_string inf_string)).
    + destruct (signbit fmt x); cbn [string_of_list_ascii append];
        rewrite string_of_list_ascii_of_string; reflexivity.
    + apply Dtoa_inf; try assumption. lia.
Qed.

Lemma Dtoa_sign_and_specials_witness :
  output (Dtoa_default binary64 17 (blank 25) 0) = Ok "0"%string
  /\ output (Dtoa_default binary64 17 (blank 25) (Fp_neg binary64 0)) = Ok "-0"%string.
Proof.
  assert (Hroom : 4 <= buf_len (blank 25)) by (unfold buf_len; simpl; lia).
  assert (Hinf : Z.of_nat (String.length "Infinity") <= 24) by (simpl; lia).
  destruct (Dtoa_sign_and_specials binary64 17 false "NaN" "Infinity"
              ltac:(right; reflexivity) (le_n 17) Hinf) as (_ & Hzero & _).
  exact (Hzero (blank 25) Hroom).
Defined.

(** ** The formatter on sample values *)

Example Dtoa_one_tenth :
  output (Dtoa_default binary64 17 (blank 25) 0x3FB999999999999A) = Ok "0.1"%string.
Proof. vm_compute. reflexivity. Qed.

Example Dtoa_largest_double :
  output (Dtoa_default binary64 17 (blank 25) 0x7FEFFFFFFFFFFFFF)
  = Ok "1.7976931348623157e+308"%string.
Proof. vm_compute. reflexivity. Qed.

Example Dtoa_least_double :
  output (Dtoa_default binary64 17 (blank 25) 1) = Ok "5e-324"%string.
Proof. vm_compute. reflexivity. Qed.

Example Dtoa_two_to_the_53 :
  output (Dtoa_default binary64 17 (blank 25) 0x4340000000000000)
  = Ok "9007199254740992"%string.
Proof. vm_compute. reflexivity. Qed.

Example Dtoa_above_two_to_the_53 :
  output (Dtoa_default binary64 17 (blank 25) 0x4340000000000001)
  = Ok "9.007199254740994e+15"%string.
Proof. vm_compute. reflexivity. Qed.

Example Dtoa_small_fixed :
  output (Dtoa_default binary64 17 (blank 25) 0x3EB0C6F7A0B5ED8D)
  = Ok "0.000001"%string.
Proof. vm_compute. reflexivity. Qed.

Example Dtoa_small_exponential :
  output (Dtoa_default binary64 17 (blank 25) 0x3E7AD7F29ABCAF48)
  = Ok "1e-7"%string.
Proof. vm_compute. reflexivity. Qed.

Example Dtoa_single_one_tenth :
  output (Dtoa_default binary32 17 (blank 25) 0x3DCCCCCD) = Ok "0.1"%string.
Proof. vm_compute. reflexivity. Qed.

Example Dtoa_negative_infinity :
  output (Dtoa_default binary64 17 (blank 25) 0xFFF0000000000000)
  = Ok "-Infinity"%string.
Proof. vm_compute. reflexivity. Qed.

Example strtod_decimal_sample :
  strtod_decimal (list_ascii_of_string "1.7976931348623157e+308")
  = Some (17976931348623157, 292).
Proof. vm_compute. reflexivity. Qed.

(** * Further properties of the code *)

(** ** DiyFp arithmetic *)

(** X1: [Subtract] on 64-bit significands returns exactly when the exponents
    are equal and [x.f >= y.f]; the result is then [(x.f - y.f, x.e)],
    computed without wrap-around, and stands for the difference of the two
    numbers.  Otherwise the assertion that is violated first fails. *)
Theorem Subtract_exact (x y : DiyFp) :
  0 <= y.(f) -> x.(f) < 2 ^ 64 ->
  match Subtract x y with
  | Ok d =>
      x.(e) = y.(e) /\ y.(f) <= x.(f)
      /\ d = mkDiyFp (x.(f) - y.(f)) x.(e)
      /\ DiyFp_value d = (DiyFp_value x - DiyFp_value y)%R
  | Fail why =>
      (x.(e) <> y.(e) /\ why = AssertionFailed "x.e == y.e")
      \/ (x.(e) = y.(e) /\ x.(f) < y.(f) /\ why = AssertionFailed "x.f >= y.f")
  end.
Proof.
  intros Hy Hx. unfold Subtract.
  destruct (Z.eqb_spec (e x) (e y)) as [He | He]; cbn [assert bind];
    [| left; split; [exact He | reflexivity]].
  destruct (Z.geb_spec (f x) (f y)) as [Hge | Hlt]; cbn [assert bind];
    [| right; repeat split; [exact He | lia]].
  rewrite wrap64_small by lia.
  repeat split; [exact He | lia |].
  unfold DiyFp_value. cbn [e f]. rewrite minus_IZR, He. ring.
Qed.

Lemma Subtract_exact_witness :
  Subtract (mkDiyFp 10 (-3)) (mkDiyFp 4 (-3)) = Ok (mkDiyFp 6 (-3)).
Proof.
  pose proof (Subtract_exact (mkDiyFp 10 (-3)) (mkDiyFp 4 (-3))
                ltac:(simpl; lia) ltac:(simpl; lia)) as H.
  destruct (Subtract (mkDiyFp 10 (-3)) (mkDiyFp 4 (-3))) as [d | why].
  - destruct H as (_ & _ & -> & _). reflexivity.
  - destruct H as [[Hne _] | [_ [Hlt _]]]; [exfalso; apply Hne; reflexivity |].
    simpl in Hlt. lia.
Defined.

Lemma clzll_double a : 0 < a -> clzll (2 * a) = clzll a - 1.
Proof. intros Ha. unfold clzll. rewrite Z.log2_double by exact Ha. lia. Qed.

Lemma clzll_top a : 2 ^ 63 <= a < 2 ^ 64 -> clzll a = 0.
Proof.
  intros Ha. unfold clzll.
  assert (Z.log2 a = 63); [| lia].
  apply Z.log2_unique; [lia |]. change (63 + 1) with 64. exact Ha.
Qed.

(** The loop shifts once for every leading zero. *)
Lemma Normalize_loop_spec (fuel : nat) :
  forall x,
    0 < x.(f) < 2 ^ 64 ->
    clzll x.(f) < Z.of_nat fuel ->
    Normalize_loop fuel x
    = Ok (mkDiyFp (x.(f) * 2 ^ clzll x.(f)) (x.(e) - clzll x.(f))).
Proof.
  induction fuel as [| fuel IH]; intros x Hf Hfuel.
  - pose proof (clzll_spec (f x) Hf). lia.
  - cbn [Normalize_loop]. rewrite Z.shiftr_div_pow2 by lia.
    destruct (Z.eqb_spec (f x / 2 ^ 63) 0) as [Hsmall | Hbig].
    + assert (Hlt : f x < 2 ^ 63).
      { destruct (Z_lt_le_dec (f x) (2 ^ 63)) as [Hlt | Hge]; [exact Hlt |].
        assert (1 <= f x / 2 ^ 63) by (apply Z.div_le_lower_bound; lia). lia. }
      rewrite Z.shiftl_mul_pow2 by lia. change (2 ^ 1) with 2.
      rewrite wrap64_small by lia.
      rewrite IH; cbn [e f].
      * replace (f x * 2) with (2 * f x) by lia.
        rewrite clzll_double by lia.
        pose proof (clzll_spec (f x) Hf) as (Hc & Hlow & _).
        assert (1 <= clzll (f x)).
        { destruct (Z.eq_dec (clzll (f x)) 0) as [H0 | H0]; [| lia].
          rewrite H0 in Hlow. lia. }
        f_equal. f_equal; [| lia].
        replace (clzll (f x)) with (1 + (clzll (f x) - 1)) at 2 by lia.
        rewrite Z.pow_add_r by lia. lia.
      * lia.
      * replace (f x * 2) with (2 * f x) by lia. rewrite clzll_double by lia. lia.
    + assert (Hge : 2 ^ 63 <= f x).
      { destruct (Z_lt_le_dec (f x) (2 ^ 63)) as [Hlt | Hge]; [| exact Hge].
        rewrite Z.div_small in Hbig by lia. lia. }
      rewrite clzll_top by lia. rewrite Z.mul_1_r, Z.sub_0_r.
      destruct x; reflexivity.
Qed.

(** X2: [Normalize] on a 64-bit significand fails its assertion exactly at
    [x.f = 0]; otherwise the result has its top bit set, stands for the same
    number as [x], and the loop of the fallback branch computes the same
    result as the count-leading-zeros branch, in at most 64 iterations. *)
Theorem Normalize_normalized (x : DiyFp) :
  0 <= x.(f) < 2 ^ 64 ->
  match Normalize x with
  | Ok n =>
      0 < x.(f)
      /\ 2 ^ 63 <= n.(f) < 2 ^ 64
      /\ DiyFp_value n = DiyFp_value x
      /\ forall fuel, (64 <= fuel)%nat -> Normalize_fallback fuel x = Ok n
  | Fail why =>
      x.(f) = 0 /\ why = AssertionFailed "x.f != 0"
      /\ forall fuel, Normalize_fallback fuel x = Fail why
  end.
Proof.
  intros Hf. unfold Normalize, Normalize_fallback.
  destruct (Z.eqb_spec (f x) 0) as [H0 | Hne]; cbn [negb assert bind].
  - repeat split. exact H0.
  - assert (Hpos : 0 < f x < 2 ^ 64) by lia.
    pose proof (clzll_spec (f x) Hpos) as (Hc & Hlow & Hup).
    rewrite Z.shiftl_mul_pow2 by lia.
    rewrite wrap64_small by lia. cbn [e f].
    split; [lia |]. split; [lia |]. split.
    + destruct x as [fx ex]. cbn [e f] in *. apply DiyFp_value_scaled. lia.
    + intros fuel Hfuel. apply Normalize_loop_spec; [exact Hpos | lia].
Qed.

Lemma Normalize_normalized_witness :
  Normalize (mkDiyFp 1 0) = Ok (mkDiyFp (2 ^ 63) (-63))
  /\ Normalize_fallback 64 (mkDiyFp 1 0) = Ok (mkDiyFp (2 ^ 63) (-63)).
Proof.
  pose proof (Normalize_normalized (mkDiyFp 1 0) ltac:(simpl; lia)) as H.
  change (Normalize (mkDiyFp 1 0)) with (Ok (mkDiyFp (2 ^ 63) (-63))) in H.
  destruct H as (_ & _ & _ & Hloop).
  split; [reflexivity | exact (Hloop 64%nat (le_n 64))].
Defined.

(** X3: [NormalizeTo] on a 64-bit significand, for a shift below 64,
    returns exactly when the target exponent is not above [x.e] and the
    shifted significand still fits 64 bits; the result then has the target
    exponent and stands for the same number.  The second assertion catches
    every shift that would lose bits. *)
Theorem NormalizeTo_outcome (x : DiyFp) (e' : Z) :
  0 <= x.(f) < 2 ^ 64 -> x.(e) - e' < 64 ->
  match NormalizeTo x e' with
  | Ok n =>
      e' <= x.(e)
      /\ n = mkDiyFp (x.(f) * 2 ^ (x.(e) - e')) e'
      /\ n.(f) < 2 ^ 64
      /\ DiyFp_value n = DiyFp_value x
  | Fail why =>
      (x.(e) < e' /\ why = AssertionFailed "delta >= 0")
      \/ (e' <= x.(e) /\ 2 ^ 64 <= x.(f) * 2 ^ (x.(e) - e')
          /\ why = AssertionFailed "((x.f << delta) >> delta) == x.f")
  end.
Proof.
  intros Hf Hd. unfold NormalizeTo.
  destruct (Z.geb_spec (e x - e') 0) as [Hge | Hlt]; cbn [assert bind];
    [| left; split; [lia | reflexivity]].
  set (d := e x - e') in *.
  assert (Hpow : 0 < 2 ^ d) by (apply Z.pow_pos_nonneg; lia).
  rewrite Z.shiftl_mul_pow2, Z.shiftr_div_pow2 by lia.
  destruct (Z_lt_le_dec (f x * 2 ^ d) (2 ^ 64)) as [Hfit | Hover].
  - rewrite wrap64_small by (split; [apply Z.mul_nonneg_nonneg; lia | exact Hfit]).
    rewrite Z.div_mul by lia. rewrite Z.eqb_refl. cbn [assert bind].
    split; [lia |]. split; [reflexivity |]. cbn [f]. split; [exact Hfit |].
    destruct x as [fx ex]. cbn [e f] in *. subst d.
    replace e' with (ex - (ex - e')) at 2 by lia. apply DiyFp_value_scaled. lia.
  - destruct (Z.eqb_spec (wrap64 (f x * 2 ^ d) / 2 ^ d) (f x)) as [Heq | Hne];
      cbn [assert bind].
    + exfalso.
      pose proof (wrap64_range (f x * 2 ^ d)) as Hw.
      assert (Hmul : 2 ^ 64 = 2 ^ (64 - d) * 2 ^ d).
      { rewrite <- Z.pow_add_r by lia. f_equal. lia. }
      assert (Hq : wrap64 (f x * 2 ^ d) / 2 ^ d < 2 ^ (64 - d)).
      { apply Z.div_lt_upper_bound; lia. }
      rewrite Heq in Hq.
      assert (f x * 2 ^ d < 2 ^ (64 - d) * 2 ^ d) by (apply Z.mul_lt_mono_pos_r; lia).
      lia.
    + right. repeat split; [lia | exact Hover].
Qed.

Lemma NormalizeTo_outcome_witness :
  NormalizeTo (mkDiyFp 3 5) 2 = Ok (mkDiyFp 24 2).
Proof.
  pose proof (NormalizeTo_outcome (mkDiyFp 3 5) 2 ltac:(simpl; lia) ltac:(simpl; lia))
    as H.
  change (NormalizeTo (mkDiyFp 3 5) 2) with (Ok (mkDiyFp 24 2)) in H |- *.
  destruct H as (_ & _ & _ & _). reflexivity.
Defined.

(** X4: [Multiply] on 64-bit significands returns a 64-bit significand, and
    the number it stands for differs from the exact product by at most half a
    unit of the result's last place, [2^(e - 1)] for the result exponent
    [e]. *)
Theorem Multiply_half_ulp (x y : DiyFp) :
  0 <= x.(f) < 2 ^ 64 -> 0 <= y.(f) < 2 ^ 64 ->
  0 <= (Multiply x y).(f) < 2 ^ 64
  /\ (Rabs (DiyFp_value (Multiply x y) - DiyFp_value x * DiyFp_value y)
      <= powerRZ 2 ((Multiply x y).(e) - 1))%R.
Proof.
  intros Hx Hy. rewrite Multiply_mulhi_round by assumption.
  pose proof (mulhi_round_bounds (f x) (f y)) as [Hlo Hhi].
  pose proof (product_upper_half_bound (f x) (f y) Hx Hy) as Hrange.
  fold (mulhi_round (f x) (f y)) in Hrange.
  set (h := mulhi_round (f x) (f y)) in *.
  cbn [e f]. split; [lia |].
  unfold DiyFp_value. cbn [e f].
  replace (e x + e y + 64 - 1) with (63 + (e x + e y)) by lia.
  replace (e x + e y + 64) with (64 + (e x + e y)) by lia.
  rewrite !powerRZ2_add. rewrite <- (IZR_pow2 63), <- (IZR_pow2 64) by lia.
  pose proof (powerRZ2_pos (e x)) as Hpx. pose proof (powerRZ2_pos (e y)) as Hpy.
  set (px := powerRZ 2 (e x)) in *. set (py := powerRZ 2 (e y)) in *.
  assert (Hm : (0 < px * py)%R) by (apply Rmult_lt_0_compat; assumption).
  apply IZR_lt in Hlo. apply IZR_le in Hhi.
  rewrite minus_IZR, mult_IZR in Hlo. rewrite plus_IZR, !mult_IZR in Hhi.
  rewrite mult_IZR in Hlo.
  replace (IZR h * (IZR (2 ^ 64) * (px * py)) - IZR (f x) * px * (IZR (f y) * py))%R
    with ((IZR (2 ^ 64) * IZR h - IZR (f x) * IZR (f y)) * (px * py))%R by ring.
  rewrite Rabs_mult, (Rabs_pos_eq (px * py)) by lra.
  apply Rmult_le_compat_r; [lra |].
  unfold Rabs. destruct Rcase_abs; lra.
Qed.

Lemma Multiply_half_ulp_witness :
  0 <= (Multiply (mkDiyFp (2 ^ 63) 0) (mkDiyFp 3 0)).(f) < 2 ^ 64.
Proof.
  exact (proj1 (Multiply_half_ulp (mkDiyFp (2 ^ 63) 0) (mkDiyFp 3 0)
                  ltac:(simpl; lia) ltac:(simpl; lia))).
Defined.

(** ** The writers of digits *)

(** X5: [Utoa100] at a position followed by two bytes writes the two
    decimal digits of [digits], tens first, and returns the position after
    them, when [digits < 100]; the bytes before and after are kept.  For
    [digits >= 100] its assertion fails. *)
Theorem Utoa100_two_digits (pre old post : list ascii) (digits : Z) :
  length old = 2%nat -> 0 <= digits ->
  match Utoa100 (pre ++ old ++ post) (buf_len pre) digits with
  | Ok (buffer, pos) =>
      digits < 100
      /\ buffer = pre ++ [digit_char (digits / 10); digit_char (digits mod 10)] ++ post
      /\ pos = buf_len pre + 2
  | Fail why => 100 <= digits /\ why = AssertionFailed "digits < 100"
  end.
Proof.
  intros Hold Hd. unfold Utoa100.
  destruct (Z.ltb_spec digits 100) as [Hlt | Hge]; cbn [assert bind];
    [| split; [exact Hge | reflexivity]].
  rewrite kDigits100_entry by lia. cbn [bind].
  rewrite buf_store_app by exact Hold. cbn [bind].
  repeat split. exact Hlt.
Qed.

Lemma Utoa100_two_digits_witness :
  Utoa100 (list_ascii_of_string "ab__c") 2 42
  = Ok (list_ascii_of_string "ab42c", 4).
Proof.
  pose proof (Utoa100_two_digits (list_ascii_of_string "ab") (list_ascii_of_string "__")
                (list_ascii_of_string "c") 42 eq_refl ltac:(lia)) as H.
  change (Utoa100 (list_ascii_of_string "ab" ++ list_ascii_of_string "__"
                   ++ list_ascii_of_string "c")
            (buf_len (list_ascii_of_string "ab")) 42)
    with (Ok (list_ascii_of_string "ab42c", 4)) in H.
  destruct H as (_ & _ & _). reflexivity.
Defined.



(** X7: [Itoa1000] at a position followed by at least four bytes returns
    exactly when [-1000 < value < 1000].  It then writes a sign, [-] below
    zero and [+] otherwise, and one to three digits that read back as
    [value]; it returns the position after them and keeps the bytes before
    and after.  Outside the range the assertion on the violated bound
    fails. *)
Theorem Itoa1000_reads_back (pre rest : list ascii) (value : Z) :
  4 <= buf_len rest ->
  match Itoa1000 (pre ++ rest) (buf_len pre) value with
  | Ok (buffer, pos) =>
      -1000 < value < 1000
      /\ exists s,
           buffer = pre ++ s ++ skipn (length s) rest
           /\ pos = buf_len pre + buf_len s
           /\ 2 <= buf_len s <= 4
           /\ hd_error s = Some (if value <? 0 then "-"%char else "+"%char)
           /\ strtod_exponent s = Some value
  | Fail why =>
      (value <= -1000 /\ why = AssertionFailed "value > -1000")
      \/ (1000 <= value /\ why = AssertionFailed "value < 1000")
  end.
Proof.
  intros Hroom.
  destruct (Z_gt_le_dec value (-1000)) as [Hlo | Hlo];
    [destruct (Z_lt_le_dec value 1000) as [Hhi | Hhi] |].
  - pose proof (exponent_string_length value) as Hlen.
    destruct (tail_split rest (length (exponent_string value))) as (old & post & -> & Hold).
    { lia. }
    rewrite Itoa1000_spec by (exact Hold || lia).
    split; [lia |]. exists (exponent_string value).
    split.
    { rewrite <- Hold, skipn_app, Nat.sub_diag, skipn_all. reflexivity. }
    split; [reflexivity |]. split.
    { unfold exponent_string, exponent_digits in *. unfold buf_len.
      destruct (Z.abs value <? 10); [cbn [length] in *; lia |].
      destruct (Z.abs value <? 100); cbn [length] in *; lia. }
    split; [reflexivity |].
    apply strtod_exponent_string. lia.
  - unfold Itoa1000.
    destruct (Z.gtb_spec value (-1000)) as [_ | Hbad]; [| lia].
    destruct (Z.ltb_spec value 1000) as [Hbad | _]; [lia |].
    cbn [assert bind]. right. split; [exact Hhi | reflexivity].
  - unfold Itoa1000.
    destruct (Z.gtb_spec value (-1000)) as [Hbad | _]; [lia |].
    cbn [assert bind]. left. split; [exact Hlo | reflexivity].
Qed.

Lemma Itoa1000_reads_back_witness :
  Itoa1000 (list_ascii_of_string "1e____") 2 (-17)
  = Ok (list_ascii_of_string "1e-17_", 5).
Proof.
  pose proof (Itoa1000_reads_back (list_ascii_of_string "1e")
                (list_ascii_of_string "____") (-17)
                ltac:(unfold buf_len; simpl; lia)) as H.
  change (Itoa1000 (list_ascii_of_string "1e" ++ list_ascii_of_string "____")
            (buf_len (list_ascii_of_string "1e")) (-17))
    with (Ok (list_ascii_of_string "1e-17_", 5)) in H.
  destruct H as (_ & _). reflexivity.
Defined.

(** ** The two notations *)

(** X8: [FormatFixed] on [length >= 1] digits at the start of a buffer with
    room for the result (the sizes of the commented-out assertions of the
    source) returns the position after the result, which is
    [digits[000]] (followed by [.0] when forced) for [length <=
    decimal_point], [dig.its] for [0 < decimal_point < length], and
    [0.[000]digits] otherwise.  The result has no exponent mark and reads
    back as the number of the digits times [10^(decimal_point - length)]. *)
Theorem FormatFixed_reads_back (ds tail : list ascii) (decimal_point : Z)
    (force_trailing_dot_zero : bool) :
  all_digits ds -> 1 <= buf_len ds ->
  (if buf_len ds <=? decimal_point
   then decimal_point + (if force_trailing_dot_zero then 2 else 0)
   else if 0 <? decimal_point then buf_len ds + 1
   else 2 + - decimal_point + buf_len ds) <= buf_len (ds ++ tail) ->
  exists s tail' mx,
    FormatFixed (ds ++ tail) (buf_len ds) decimal_point force_trailing_dot_zero
    = Ok (s ++ tail', buf_len s)
    /\ s = (if buf_len ds <=? decimal_point
            then ds ++ repeat "0"%char (Z.to_nat (decimal_point - buf_len ds))
                 ++ (if force_trailing_dot_zero then ["."; "0"]%char else [])
            else if 0 <? decimal_point
            then firstn (Z.to_nat decimal_point) ds
                 ++ "."%char :: skipn (Z.to_nat decimal_point) ds
            else "0"%char :: "."%char
                 :: repeat "0"%char (Z.to_nat (- decimal_point)) ++ ds)
    /\ ~ In "e"%char s
    /\ strtod_decimal s = Some mx
    /\ decimal_value mx
       = (IZR (digits_value ds) * powerRZ 10 (decimal_point - buf_len ds))%R.
Proof.
  intros Hall Hlen Hroom.
  rewrite <- (fixed_string_length ds decimal_point force_trailing_dot_zero Hlen)
    in Hroom.
  destruct (FormatFixed_spec ds tail decimal_point force_trailing_dot_zero Hlen Hroom)
    as (tail' & Hrun).
  destruct (strtod_fixed_string ds decimal_point force_trailing_dot_zero Hall Hlen)
    as (mx & Hparse & Hvalue).
  exists (fixed_string ds decimal_point force_trailing_dot_zero), tail', mx.
  split; [exact Hrun |]. split; [reflexivity |].
  split; [apply fixed_string_no_e; exact Hall |].
  split; assumption.
Qed.

Lemma FormatFixed_reads_back_witness :
  exists s tail',
    FormatFixed (list_ascii_of_string "125_____") 3 (-2) false
    = Ok (s ++ tail', buf_len s)
    /\ s = list_ascii_of_string "0.00125".
Proof.
  assert (Hall : all_digits (list_ascii_of_string "125")).
  { repeat constructor. }
  destruct (FormatFixed_reads_back (list_ascii_of_string "125")
              (list_ascii_of_string "_____") (-2) false Hall
              ltac:(unfold buf_len; simpl; lia) ltac:(unfold buf_len; simpl; lia))
    as (s & tail' & mx & Hrun & Hs & _).
  exists s, tail'. split; [exact Hrun | exact Hs].
Defined.

(** X9: [FormatExponential] on [length >= 1] digits at the start of a
    buffer with room for the result, for an exponent [decimal_point - 1]
    of at most three digits, returns the position after the result, which is
    the first digit, a point and the other digits when there are any, the
    mark [e], and the exponent with its sign.  The result reads back as the
    number of the digits times [10^(decimal_point - length)]. *)
Theorem FormatExponential_reads_back (ds tail : list ascii) (decimal_point : Z) :
  all_digits ds -> 1 <= buf_len ds ->
  -1000 < decimal_point - 1 < 1000 ->
  buf_len ds + 6 <= buf_len (ds ++ tail) ->
  exists s tail' mx x,
    FormatExponential (ds ++ tail) (buf_len ds) decimal_point
    = Ok (s ++ tail', buf_len s)
    /\ s = (match ds with
            | [d] => [d]
            | d :: ds' => d :: "."%char :: ds'
            | [] => []
            end) ++ "e"%char :: x
    /\ strtod_exponent x = Some (decimal_point - 1)
    /\ buf_len s <= buf_len ds + 6
    /\ strtod_decimal s = Some mx
    /\ decimal_value mx
       = (IZR (digits_value ds) * powerRZ 10 (decimal_point - buf_len ds))%R.
Proof.
  intros Hall Hlen Hdp Hroom.
  pose proof (exponential_string_length ds decimal_point) as Hslen.
  destruct (FormatExponential_spec ds tail decimal_point Hlen Hdp ltac:(lia))
    as (tail' & Hrun).
  destruct (strtod_exponential_string ds decimal_point Hall Hlen Hdp)
    as (mx & Hparse & Hvalue).
  exists (exponential_string ds decimal_point), tail', mx,
    (exponent_string (decimal_point - 1)).
  split; [exact Hrun |]. split.
  { unfold exponential_string. destruct ds as [| d [| d' ds'']]; try reflexivity.
    change (buf_len []) with 0 in Hlen. lia. }
  split; [apply strtod_exponent_string; exact Hdp |].
  split; [exact Hslen |]. split; assumption.
Qed.

Lemma FormatExponential_reads_back_witness :
  exists s tail' mx,
    FormatExponential (list_ascii_of_string "125______") 3 22
    = Ok (s ++ tail', buf_len s)
    /\ strtod_decimal s = Some mx
    /\ decimal_value mx = (IZR 125 * powerRZ 10 (22 - 3))%R.
Proof.
  assert (Hall : all_digits (list_ascii_of_string "125")).
  { repeat constructor. }
  destruct (FormatExponential_reads_back (list_ascii_of_string "125")
              (list_ascii_of_string "______") 22 Hall
              ltac:(unfold buf_len; simpl; lia) ltac:(lia)
              ltac:(unfold buf_len; simpl; lia))
    as (s & tail' & mx & x & Hrun & _ & _ & _ & Hparse & Hvalue).
  exists s, tail', mx. split; [exact Hrun |]. split; [exact Hparse | exact Hvalue].
Defined.

(** ** The table of cached powers *)

Lemma cached_power_entry_ok_all :
  forall index, 0 <= index < 79 -> cached_power_entry_ok index = true.
Proof.
  intros index Hindex.
  apply (Z_range_forallb cached_power_entry_ok 0 79).
  - vm_compute. reflexivity.
  - lia.
Qed.

(** X10: [GetCachedPower] returns exactly for an index in [[0, 79)].  The
    entry [c] it returns is the power of ten for [k = -300 + 8 * index]: its
    significand has 64 bits with the top bit set, and [c.f * 2^c.e] is within
    half a unit of the last place, [2^(c.e - 1)], of [10^k].  Outside the
    range the assertion on the violated bound fails. *)
Theorem GetCachedPower_entry (index : Z) :
  match GetCachedPower index with
  | Ok c =>
      0 <= index < kCachedPowersSize
      /\ CachedPower.k c = kCachedPowersMinDecExp + kCachedPowersDecExpStep * index
      /\ kCachedPowersMinDecExp <= CachedPower.k c <= kCachedPowersMaxDecExp
      /\ 2 ^ 63 <= CachedPower.f c < 2 ^ 64
      /\ (Rabs (IZR (CachedPower.f c) * powerRZ 2 (CachedPower.e c)
                - powerRZ 10 (CachedPower.k c))
          <= powerRZ 2 (CachedPower.e c - 1))%R
  | Fail why =>
      (index < 0 /\ why = AssertionFailed "index >= 0")
      \/ (kCachedPowersSize <= index
          /\ why = AssertionFailed "index < kCachedPowersSize")
  end.
Proof.
  destruct (Z_lt_le_dec index 0) as [Hneg | Hpos].
  - unfold GetCachedPower.
    destruct (Z.geb_spec index 0) as [Hbad | _]; [lia |].
    cbn [assert bind]. left. split; [exact Hneg | reflexivity].
  - destruct (Z_lt_le_dec index kCachedPowersSize) as [Hin | Hout].
    + pose proof (cached_power_entry_ok_all index ltac:(unfold kCachedPowersSize in Hin; lia))
        as Hok.
      unfold cached_power_entry_ok in Hok.
      destruct (GetCachedPower index) as [c | why]; [| discriminate].
      do 3 (apply andb_prop in Hok; destruct Hok as [Hok ?]).
      apply Z.eqb_eq in Hok.
      split; [lia |]. split; [exact Hok |].
      split; [unfold kCachedPowersMinDecExp, kCachedPowersMaxDecExp,
                kCachedPowersDecExpStep, kCachedPowersSize in *; lia |].
      split; [lia |].
      apply cached_accurate_real. assumption.
    + unfold GetCachedPower.
      destruct (Z.geb_spec index 0) as [_ | Hbad]; [| lia].
      destruct (Z.ltb_spec index kCachedPowersSize) as [Hbad | _]; [lia |].
      cbn [assert bind]. right. split; [exact Hout | reflexivity].
Qed.

(** ** Grisu2 *)

(** X11: for every finite positive single or double, [ComputeBoundaries]
    returns boundaries that enclose the value, and every real number
    strictly between them is nearer to the value than to any other finite
    value of the format, of either sign. *)
Theorem ComputeBoundaries_rounding_interval (fmt : FpFormat) (bits : Z) :
  is_iec559_single_or_double fmt ->
  finite_positive fmt bits ->
  exists b,
    ComputeBoundaries fmt bits = Ok b
    /\ (DiyFp_value b.(m_minus) < DiyFp_value b.(v) < DiyFp_value b.(m_plus))%R
    /\ DiyFp_value b.(v) = Fp_real fmt bits
    /\ forall (q : R) z,
         (DiyFp_value b.(m_minus) < q < DiyFp_value b.(m_plus))%R ->
         is_bits fmt z -> isfinite fmt z = true -> z <> bits ->
         (Rabs (q - Fp_real fmt bits) < Rabs (q - Fp_real fmt z))%R.
Proof.
  intros Hfmt Hfp.
  pose proof (finite_positive_range fmt bits Hfmt Hfp) as Hrange.
  exists (boundaries_of fmt bits).
  split; [apply ComputeBoundaries_closed_form; assumption |].
  destruct (boundaries_of_facts fmt bits Hfmt Hrange)
    as (_ & _ & _ & _ & _ & _ & Hv & Hplus & Hminus).
  split.
  { rewrite Hv, Hplus, Hminus.
    pose proof (powerRZ2_pos ((decode fmt bits).(e) - 1)).
    pose proof (powerRZ2_pos ((decode fmt bits).(e) - 2)).
    destruct (lower_boundary_is_closer fmt bits); lra. }
  split.
  { rewrite Hv. unfold Fp_real. rewrite (positive_signbit fmt bits Hfmt Hfp).
    reflexivity. }
  intros q z Hq Hz Hfin Hne.
  destruct (Fp_unique_nearest fmt bits q z Hfmt Hfp Hq Hz Hfin) as [Heq | Hlt];
    [contradiction | exact Hlt].
Qed.

Lemma ComputeBoundaries_rounding_interval_witness :
  exists b,
    ComputeBoundaries binary64 0x3FF0000000000000 = Ok b
    /\ (DiyFp_value b.(m_minus) < DiyFp_value b.(v) < DiyFp_value b.(m_plus))%R.
Proof.
  assert (Hfp : finite_positive binary64 0x3FF0000000000000).
  { unfold finite_positive, is_bits. simpl. repeat split; lia. }
  destruct (ComputeBoundaries_rounding_interval binary64 0x3FF0000000000000
              ltac:(right; reflexivity) Hfp) as (b & Hrun & Horder & _).
  exists b. split; [exact Hrun | exact Horder].
Defined.

(** X12: for every finite positive single or double, [Grisu2], with fuel
    for 17 iterations and a buffer of at least 17 bytes, returns between 1
    and [max_digits10] digits (9 for a single, 17 for a double) at the start
    of the buffer, the first of them not zero, and an exponent; the number
    the digits and the exponent denote lies strictly between the boundaries
    of the value: less than half a unit in the last place above it, and less
    than half a unit (a quarter, below a power of two) under it. *)
Theorem Grisu2_digits_within_half_ulp (fmt : FpFormat) (bits : Z) (fuel : nat)
    (buffer : list ascii) :
  is_iec559_single_or_double fmt ->
  finite_positive fmt bits ->
  (17 <= fuel)%nat ->
  17 <= buf_len buffer ->
  exists ds tail exponent,
    Grisu2_Fp fuel fmt buffer bits = Ok (ds ++ tail, buf_len ds, exponent)
    /\ length (ds ++ tail) = length buffer
    /\ 1 <= buf_len ds <= max_digits10 fmt
    /\ all_digits ds
    /\ 10 ^ (buf_len ds - 1) <= digits_value ds
    /\ let V := (IZR (digits_value ds) * powerRZ 10 exponent)%R in
       let ulp := powerRZ 2 (decode fmt bits).(e) in
       (Fp_value fmt bits
        - (if lower_boundary_is_closer fmt bits then ulp / 4 else ulp / 2) < V
        < Fp_value fmt bits + ulp / 2)%R.
Proof.
  intros Hfmt Hfp Hfuel Hroom.
  pose proof (finite_positive_range fmt bits Hfmt Hfp) as Hrange.
  destruct (Grisu2_Fp_spec fmt bits fuel buffer Hfmt Hfp Hfuel Hroom)
    as (((buffer1 & len) & exponent) & Hrun & Hres).
  destruct Hres as (ds & tail & -> & Hsame & <- & Hn & Hall & Hlead & _ & Hin).
  exists ds, tail, exponent.
  split; [exact Hrun |]. split; [exact Hsame |]. split; [exact Hn |].
  split; [exact Hall |]. split; [exact Hlead |].
  destruct (boundaries_of_facts fmt bits Hfmt Hrange)
    as (_ & _ & _ & _ & _ & _ & _ & Hplus & Hminus).
  rewrite Hplus, Hminus in Hin. cbv zeta.
  pose proof (powerRZ2_double (decode fmt bits).(e)) as Hulp.
  pose proof (powerRZ2_double ((decode fmt bits).(e) - 1)) as Hhalf.
  replace ((decode fmt bits).(e) - 1 - 1) with ((decode fmt bits).(e) - 2) in Hhalf by lia.
  destruct (lower_boundary_is_closer fmt bits); lra.
Qed.

Lemma Grisu2_digits_within_half_ulp_witness :
  exists ds tail exponent,
    Grisu2_Fp 17 binary32 (blank 17) 0x3DCCCCCD = Ok (ds ++ tail, buf_len ds, exponent)
    /\ 1 <= buf_len ds <= 9.
Proof.
  assert (Hfp : finite_positive binary32 0x3DCCCCCD).
  { unfold finite_positive, is_bits. simpl. repeat split; lia. }
  destruct (Grisu2_digits_within_half_ulp binary32 0x3DCCCCCD 17 (blank 17)
              ltac:(left; reflexivity) Hfp (le_n 17)
              ltac:(unfold buf_len; simpl; lia))
    as (ds & tail & exponent & Hrun & _ & Hlen & _).
  exists ds, tail, exponent. split; [exact Hrun | exact Hlen].
Defined.

(** X13: [Grisu2] reads no byte of the buffer that it has not written: on
    two buffers of at least 17 bytes, whatever they hold and whatever their
    sizes, it returns the same digits, the same length and the same
    exponent. *)
Theorem Grisu2_buffer_independent (fmt : FpFormat) (bits : Z) (fuel : nat)
    (b b' : list ascii) :
  is_iec559_single_or_double fmt ->
  finite_positive fmt bits ->
  (17 <= fuel)%nat ->
  17 <= buf_len b -> 17 <= buf_len b' ->
  exists ds tail tail' exponent,
    Grisu2_Fp fuel fmt b bits = Ok (ds ++ tail, buf_len ds, exponent)
    /\ Grisu2_Fp fuel fmt b' bits = Ok (ds ++ tail', buf_len ds, exponent).
Proof.
  intros Hfmt Hfp Hfuel Hb Hb'.
  assert (Hle : forall b1 b2, 17 <= buf_len b1 -> (length b1 <= length b2)%nat ->
            exists ds tail tail' exponent,
              Grisu2_Fp fuel fmt b1 bits = Ok (ds ++ tail, buf_len ds, exponent)
              /\ Grisu2_Fp fuel fmt b2 bits = Ok (ds ++ tail', buf_len ds, exponent)).
  { intros b1 b2 Hroom Hlen.
    destruct (Grisu2_Fp_spec fmt bits fuel b1 Hfmt Hfp Hfuel Hroom)
      as (((buffer1 & len) & exponent) & Hrun & Hres).
    destruct Hres as (ds & tail & -> & _ & <- & _).
    destruct (Grisu2_Fp_stable fuel fmt b1 b2 bits _ _ _ Hlen Hrun)
      as (b2' & Hrun' & Hsame).
    destruct (same_prefix_app ds tail b2' Hsame) as (tail' & ->).
    exists ds, tail, tail', exponent. split; assumption. }
  destruct (Nat.le_ge_cases (length b) (length b')) as [Hlen | Hlen].
  - apply Hle; assumption.
  - destruct (Hle b' b Hb' Hlen) as (ds & tail & tail' & exponent & Hrun' & Hrun).
    exists ds, tail', tail, exponent. split; assumption.
Qed.

Lemma Grisu2_buffer_independent_witness :
  exists ds tail tail' exponent,
    Grisu2_Fp 17 binary64 (blank 17) 0x3FB999999999999A
    = Ok (ds ++ tail, buf_len ds, exponent)
    /\ Grisu2_Fp 17 binary64 (list_ascii_of_string "the quick brown fox jumps")
         0x3FB999999999999A
       = Ok (ds ++ tail', buf_len ds, exponent).
Proof.
  assert (Hfp : finite_positive binary64 0x3FB999999999999A).
  { unfold finite_positive, is_bits. simpl. repeat split; lia. }
  exact (Grisu2_buffer_independent binary64 0x3FB999999999999A 17 (blank 17)
           (list_ascii_of_string "the quick brown fox jumps")
           ltac:(right; reflexivity) Hfp (le_n 17)
           ltac:(unfold buf_len; simpl; lia) ltac:(unfold buf_len; simpl; lia)).
Defined.

(** ** The drivers *)

Lemma positive_string_length fmt bits ds exponent ftdz :
  1 <= buf_len ds -> 1 <= buf_len (positive_string fmt bits ds exponent ftdz).
Proof.
  intros Hlen. unfold positive_string. cbv zeta.
  destruct (_ && _).
  - rewrite fixed_string_length by exact Hlen.
    destruct (Z.leb_spec (buf_len ds) (buf_len ds + exponent)); [destruct ftdz; lia |].
    destruct (Z.ltb_spec 0 (buf_len ds + exponent)); lia.
  - pose proof (exponential_string_has_e ds (buf_len ds + exponent) Hlen) as He.
    destruct (exponential_string ds (buf_len ds + exponent)); [destruct He |].
    unfold buf_len. cbn [length]. lia.
Qed.

(** X14: [DtoaPositive], with fuel for 17 iterations, returns exactly when
    the buffer has at least [kDtoaPositiveMaxLength = 24] bytes and the value
    is finite and above zero; it then writes at least one byte and at most
    24, so that its last assertion never fails.  Otherwise the first
    precondition that is violated fails its assertion.  The bound of 24 bytes
    is attained. *)
Theorem DtoaPositive_outcome (fmt : FpFormat) (fuel : nat) (buffer : list ascii)
    (value : Z) (ftdz : bool) :
  is_iec559_single_or_double fmt ->
  is_bits fmt value ->
  (17 <= fuel)%nat ->
  match DtoaPositive fmt fuel buffer value ftdz with
  | Ok (_, endp) =>
      kDtoaPositiveMaxLength <= buf_len buffer
      /\ isfinite fmt value = true /\ Fp_is_positive fmt value = true
      /\ 1 <= endp <= kDtoaPositiveMaxLength
  | Fail why =>
      (buf_len buffer < kDtoaPositiveMaxLength
       /\ why = AssertionFailed "last - next >= kDtoaPositiveMaxLength")
      \/ (kDtoaPositiveMaxLength <= buf_len buffer
          /\ isfinite fmt value = false
          /\ why = AssertionFailed "std::isfinite(value)")
      \/ (kDtoaPositiveMaxLength <= buf_len buffer
          /\ isfinite fmt value = true /\ Fp_is_positive fmt value = false
          /\ why = AssertionFailed "value > 0")
  end
  /\ output (DtoaPositive binary64 17 (blank 24) 0x3EB4B66DC01EC6FB false)
     = Ok "0.0000012345678901234567"%string.
Proof.
  intros Hfmt Hbits Hfuel. split; [| vm_compute; reflexivity].
  unfold kDtoaPositiveMaxLength.
  destruct (Z_lt_le_dec (buf_len buffer) 24) as [Hshort | Hroom].
  { unfold DtoaPositive, kDtoaPositiveMaxLength.
    destruct (Z.geb_spec (buf_len buffer) 24) as [Hbad | _]; [lia |].
    cbn [assert bind]. left. split; [exact Hshort | reflexivity]. }
  destruct (isfinite fmt value) eqn:Hfin.
  2:{ unfold DtoaPositive, kDtoaPositiveMaxLength.
      destruct (Z.geb_spec (buf_len buffer) 24) as [_ | Hbad]; [| lia].
      rewrite Hfin. cbn [assert bind]. right. left. repeat split. exact Hroom. }
  destruct (Fp_is_positive fmt value) eqn:Hpos.
  2:{ unfold DtoaPositive, kDtoaPositiveMaxLength.
      destruct (Z.geb_spec (buf_len buffer) 24) as [_ | Hbad]; [| lia].
      rewrite Hfin, Hpos. cbn [assert bind]. right. right. repeat split. exact Hroom. }
  destruct (DtoaPositive_spec fmt value fuel buffer ftdz Hfmt
              (conj Hbits (conj Hfin Hpos)) Hfuel Hroom)
    as (ds & tail0 & exponent & tail & _ & Hrun & Hend & Hlen & _).
  rewrite Hrun. split; [exact Hroom |]. split; [reflexivity |]. split; [reflexivity |].
  split; [apply positive_string_length; lia | exact Hend].
Qed.

Lemma DtoaPositive_outcome_witness :
  output (DtoaPositive binary64 17 (blank 24) 0x3EB4B66DC01EC6FB false)
  = Ok "0.0000012345678901234567"%string.
Proof.
  assert (Hbits : is_bits binary64 0x3EB4B66DC01EC6FB) by (unfold is_bits; simpl; lia).
  pose proof (DtoaPositive_outcome binary64 17 (blank 24) 0x3EB4B66DC01EC6FB false
                ltac:(right; reflexivity) Hbits (le_n 17)) as H.
  destruct H as [_ H]. exact H.
Defined.

Lemma nonnegative_zero fmt bits :
  is_iec559_single_or_double fmt ->
  is_bits fmt bits -> signbit fmt bits = false -> Fp_is_zero fmt bits = true ->
  bits = 0.
Proof.
  intros Hfmt Hbits Hs Hz. unfold is_bits, signbit, Fp_is_zero in *.
  apply Z.eqb_eq in Hz.
  assert (Hw : 0 <= bits_width fmt - 1) by (destruct Hfmt as [-> | ->]; simpl; lia).
  apply testbit_false_lt in Hs; [| exact Hw |].
  - rewrite Z.mod_small in Hz by lia. exact Hz.
  - replace (bits_width fmt - 1 + 1) with (bits_width fmt) by lia. exact Hbits.
Qed.

(** What [Dtoa] writes for a value that is neither negative nor a NaN. *)
Lemma Dtoa_nonnegative_writes fmt fuel b bits ftdz nan_string inf_string :
  is_iec559_single_or_double fmt ->
  (17 <= fuel)%nat ->
  is_bits fmt bits -> signbit fmt bits = false -> isnan fmt bits = false ->
  24 <= buf_len b -> Z.of_nat (String.length inf_string) <= buf_len b ->
  exists s,
    writes (Dtoa fmt fuel b bits ftdz nan_string inf_string) s
    /\ buf_len s <= Z.max 24 (Z.of_nat (String.length inf_string)).
Proof.
  intros Hfmt Hfuel Hbits Hs Hn Hroom Hinf.
  destruct (isinf fmt bits) eqn:Hi.
  - exists (list_ascii_of_string inf_string). split.
    + unfold Dtoa. rewrite Hn, Hs. cbn [bind]. rewrite Hi.
      apply StrCopy_spec. exact Hinf.
    + unfold buf_len. rewrite length_list_ascii_of_string. lia.
  - destruct (Fp_is_zero fmt bits) eqn:Hz.
    + rewrite (nonnegative_zero fmt bits Hfmt Hbits Hs Hz).
      exists (zero_string ftdz). split.
      * apply Dtoa_zero; [exact Hfmt | lia].
      * destruct ftdz; unfold buf_len; cbn; lia.
    + assert (Hfp : finite_positive fmt bits).
      { split; [exact Hbits |]. split.
        - unfold isnan, isinf, isfinite in *.
          destruct (exponent_field fmt bits =? exponent_all_ones fmt); [| reflexivity].
          destruct (fraction_field fmt bits =? 0); discriminate.
        - unfold Fp_is_positive. rewrite Hs, Hn, Hz. reflexivity. }
      destruct (DtoaPositive_spec fmt bits fuel b ftdz Hfmt Hfp Hfuel Hroom)
        as (ds & tail0 & exponent & tail & _ & Hrun & Hend & _).
      exists (positive_string fmt bits ds exponent ftdz). split; [| lia].
      unfold Dtoa. rewrite Hn, Hs. cbn [bind]. rewrite Hi, Hz.
      change (Z.to_nat 0) with 0%nat. cbn [skipn firstn app].
      rewrite Hrun. cbn [bind]. exists tail. reflexivity.
Qed.

(** X15: a buffer of [Max(1 + kDtoaPositiveMaxLength, len(nan_string),
    1 + len(inf_string))] bytes, the size the source documents, is
    sufficient: with it [Dtoa] returns for every bit pattern of the format,
    NaNs and infinities included, and the position it returns is within that
    size. *)
Theorem Dtoa_documented_buffer_suffices (fmt : FpFormat) (fuel : nat)
    (buffer : list ascii) (value : Z) (ftdz : bool)
    (nan_string inf_string : string) :
  let size := Z.max (1 + kDtoaPositiveMaxLength)
                (Z.max (Z.of_nat (String.length nan_string))
                       (1 + Z.of_nat (String.length inf_string))) in
  is_iec559_single_or_double fmt ->
  is_bits fmt value ->
  (17 <= fuel)%nat ->
  size <= buf_len buffer ->
  exists buffer' endp,
    Dtoa fmt fuel buffer value ftdz nan_string inf_string = Ok (buffer', endp)
    /\ 0 <= endp <= size.
Proof.
  intros size Hfmt Hbits Hfuel Hroom. subst size. unfold kDtoaPositiveMaxLength in *.
  destruct (isnan fmt value) eqn:Hn.
  - destruct (Dtoa_nan fmt fuel buffer value ftdz nan_string inf_string Hn ltac:(lia))
      as (tail & Hrun).
    rewrite Hrun. eexists. eexists. split; [reflexivity |].
    unfold buf_len. rewrite length_list_ascii_of_string. lia.
  - destruct (signbit fmt value) eqn:Hs.
    + destruct (Fp_neg_facts fmt value Hfmt Hbits) as (Hnb & Hns & _ & _ & _ & Hinv).
      destruct (Fp_neg_class fmt value Hfmt Hbits) as (Hnn & _ & _).
      rewrite Hs in Hns. cbn [negb] in Hns. rewrite Hn in Hnn.
      destruct (buffer_cons buffer 25 ltac:(lia) ltac:(lia)) as (c & b0 & -> & Hb0).
      assert (Hlen0 : buf_len (c :: b0) = 1 + buf_len b0)
        by (unfold buf_len; cbn [length]; lia).
      destruct (Dtoa_nonnegative_writes fmt fuel b0 (Fp_neg fmt value) ftdz nan_string
                  inf_string Hfmt Hfuel Hnb Hns Hnn ltac:(lia) ltac:(lia))
        as (s & Hw & Hslen).
      pose proof (writes_negative fmt fuel c b0 (Fp_neg fmt value) ftdz nan_string
                    inf_string s Hfmt Hnb Hns Hnn Hw) as [tail Hrun].
      rewrite Hinv in Hrun. rewrite Hrun. eexists. eexists. split; [reflexivity |].
      unfold buf_len in *. cbn [length]. lia.
    + destruct (Dtoa_nonnegative_writes fmt fuel buffer value ftdz nan_string
                  inf_string Hfmt Hfuel Hbits Hs Hn ltac:(lia) ltac:(lia))
        as (s & [tail Hrun] & Hslen).
      rewrite Hrun. eexists. eexists. split; [reflexivity |].
      unfold buf_len in *. lia.
Qed.

Lemma Dtoa_documented_buffer_suffices_witness :
  exists buffer' endp,
    Dtoa binary64 17 (blank 25) 0xC0934A456D5CFAAD false "NaN" "Infinity"
    = Ok (buffer', endp)
    /\ 0 <= endp <= 25.
Proof.
  assert (Hbits : is_bits binary64 0xC0934A456D5CFAAD) by (unfold is_bits; simpl; lia).
  assert (Hroom : 25 <= buf_len (blank 25)) by (unfold buf_len; simpl; lia).
  destruct (Dtoa_documented_buffer_suffices binary64 17 (blank 25) 0xC0934A456D5CFAAD
              false "NaN" "Infinity" ltac:(right; reflexivity) Hbits (le_n 17) Hroom)
    as (buffer' & endp & Hrun & Hend).
  exists buffer', endp. split; [exact Hrun | exact Hend].
Defined.

Lemma strtod_decimal_minus cs : strtod_decimal ("-"%char :: cs) = None.
Proof. reflexivity. Qed.

(** What [DtoaPositive] writes reads back as the value, and as no other. *)
Lemma DtoaPositive_reads_back fmt bits fuel buffer ftdz :
  is_iec559_single_or_double fmt ->
  finite_positive fmt bits ->
  (17 <= fuel)%nat ->
  24 <= buf_len buffer ->
  exists s,
    writes (DtoaPositive fmt fuel buffer bits ftdz) s
    /\ strtod_correctly_rounded fmt s bits
    /\ forall y, strtod_correctly_rounded fmt s y -> y = bits.
Proof.
  intros Hfmt Hfp Hfuel Hroom.
  pose proof (finite_positive_range fmt bits Hfmt Hfp) as Hrange.
  destruct (DtoaPositive_spec fmt bits fuel buffer ftdz Hfmt Hfp Hfuel Hroom)
    as (ds & tail0 & exponent & tail & _ & Hdtoa & _ & Hlen & Hall & Hlead & Hexp & Hin).
  assert (HN : max_digits10 fmt <= 17) by (destruct Hfmt as [-> | ->]; simpl; lia).
  destruct (strtod_positive_string fmt bits ds exponent ftdz Hall ltac:(lia) Hexp)
    as (mx & Hparse & Hvalue).
  exists (positive_string fmt bits ds exponent ftdz).
  split; [exists tail; exact Hdtoa |].
  set (q := decimal_value mx) in *. rewrite <- Hvalue in Hin.
  assert (Hq0 : (0 < q)%R).
  { rewrite Hvalue. apply Rmult_lt_0_compat; [| apply powerRZ10_pos].
    apply IZR_lt. pose proof (pow10_pos (buf_len ds - 1)). lia. }
  assert (Hfinite : (Rabs q < overflow_threshold fmt)%R).
  { rewrite Rabs_pos_eq by lra.
    pose proof (upper_boundary_no_overflow fmt bits Hfmt Hrange). lra. }
  split.
  - exists mx. split; [exact Hparse |].
    split; [apply Hfp |]. split; [| intros Hover; fold q in Hover; lra].
    intros _. destruct Hfp as (Hbits & Hfin & Hpos).
    split; [exact Hbits |]. split; [exact Hfin |].
    intros z Hz Hzfin. fold q.
    destruct (Fp_unique_nearest fmt bits q z Hfmt (conj Hbits (conj Hfin Hpos)) Hin Hz Hzfin)
      as [-> | Hlt]; lra.
  - intros y (mx' & Hparse' & Hy & Hynear & _).
    rewrite Hparse in Hparse'. injection Hparse' as <-. fold q in Hynear.
    destruct (Hynear Hfinite) as (Hybits & Hyfin & Hymin).
    destruct (Fp_unique_nearest fmt bits q y Hfmt Hfp Hin Hybits Hyfin) as [-> | Hlt];
      [reflexivity |].
    specialize (Hymin bits ltac:(apply Hfp) ltac:(apply Hfp)). lra.
Qed.

(** X16: for every finite value of either sign that is not a zero, what
    [Dtoa] writes into a buffer of at least 25 bytes is a numeral, with a
    minus sign for a negative value, that a correctly rounding [strtod] (or
    [strtof]), whatever its rule for ties, reads back as the value and as
    no other. *)
Theorem Dtoa_round_trip (fmt : FpFormat) (fuel : nat) (buffer : list ascii)
    (value : Z) (ftdz : bool) (nan_string inf_string : string) :
  is_iec559_single_or_double fmt ->
  is_bits fmt value ->
  isfinite fmt value = true -> Fp_is_zero fmt value = false ->
  (17 <= fuel)%nat ->
  25 <= buf_len buffer ->
  exists s,
    writes (Dtoa fmt fuel buffer value ftdz nan_string inf_string) s
    /\ strtod_signed_correctly_rounded fmt s value
    /\ forall y, strtod_signed_correctly_rounded fmt s y -> y = value.
Proof.
  intros Hfmt Hbits Hfin Hz Hfuel Hroom.
  assert (Hclass : forall x, isfinite fmt x = true ->
            isnan fmt x = false /\ isinf fmt x = false).
  { intros x Hx. unfold isfinite, isnan, isinf in *.
    apply negb_true_iff in Hx. rewrite Hx. split; reflexivity. }
  assert (Hpositive : forall x b, is_bits fmt x -> isfinite fmt x = true ->
            Fp_is_zero fmt x = false -> signbit fmt x = false -> 24 <= buf_len b ->
            exists s,
              writes (Dtoa fmt fuel b x ftdz nan_string inf_string) s
              /\ strtod_correctly_rounded fmt s x
              /\ forall y, strtod_correctly_rounded fmt s y -> y = x).
  { intros x b Hx Hxfin Hxz Hxs Hb.
    destruct (Hclass x Hxfin) as [Hxn Hxi].
    assert (Hfp : finite_positive fmt x).
    { split; [exact Hx |]. split; [exact Hxfin |].
      unfold Fp_is_positive. rewrite Hxs, Hxn, Hxz. reflexivity. }
    destruct (DtoaPositive_reads_back fmt x fuel b ftdz Hfmt Hfp Hfuel Hb)
      as (s & [tail Hrun] & Hread & Huniq).
    exists s. split; [| split; assumption].
    unfold Dtoa. rewrite Hxn, Hxs. cbn [bind]. rewrite Hxi, Hxz.
    change (Z.to_nat 0) with 0%nat. cbn [skipn firstn app].
    rewrite Hrun. cbn [bind]. exists tail. reflexivity. }
  destruct (signbit fmt value) eqn:Hs.
  - destruct (Fp_neg_facts fmt value Hfmt Hbits) as (Hnb & Hns & _ & _ & Hnz & Hinv).
    destruct (Fp_neg_class fmt value Hfmt Hbits) as (_ & _ & Hnf).
    rewrite Hs in Hns. cbn [negb] in Hns. rewrite Hz in Hnz. rewrite Hfin in Hnf.
    destruct (buffer_cons buffer 25 ltac:(lia) Hroom) as (c & b0 & -> & Hb0).
    destruct (Hpositive (Fp_neg fmt value) b0 Hnb Hnf Hnz Hns ltac:(lia))
      as (s & Hw & Hread & Huniq).
    exists ("-"%char :: s). split; [| split].
    + rewrite <- Hinv at 1.
      apply writes_negative; try assumption.
      apply (Hclass (Fp_neg fmt value) Hnf).
    + cbn. exists (Fp_neg fmt value). split; [exact Hread | symmetry; exact Hinv].
    + cbn. intros y (y' & Hy' & ->). rewrite (Huniq y' Hy'). exact Hinv.
  - destruct (Hpositive value buffer Hbits Hfin Hz Hs ltac:(lia))
      as (s & Hw & Hread & Huniq).
    exists s. split; [exact Hw |].
    assert (Hsigned : forall y, strtod_signed_correctly_rounded fmt s y
                                <-> strtod_correctly_rounded fmt s y).
    { intros y. destruct s as [| c s']; [reflexivity |].
      unfold strtod_signed_correctly_rounded.
      destruct (Ascii.eqb_spec c "-"%char) as [-> | Hne]; [| reflexivity].
      destruct Hread as (mx & Hparse & _).
      rewrite strtod_decimal_minus in Hparse. discriminate. }
    split; [apply Hsigned; exact Hread |].
    intros y Hy. apply Huniq, Hsigned, Hy.
Qed.

Lemma Dtoa_round_trip_witness :
  exists s,
    writes (Dtoa_default binary64 17 (blank 25) 0xC0934A456D5CFAAD) s
    /\ strtod_signed_correctly_rounded binary64 s 0xC0934A456D5CFAAD.
Proof.
  assert (Hbits : is_bits binary64 0xC0934A456D5CFAAD) by (unfold is_bits; simpl; lia).
  assert (Hroom : 25 <= buf_len (blank 25)) by (unfold buf_len; simpl; lia).
  destruct (Dtoa_round_trip binary64 17 (blank 25) 0xC0934A456D5CFAAD false
              "NaN" "Infinity" ltac:(right; reflexivity) Hbits eq_refl eq_refl
              (le_n 17) Hroom) as (s & Hw & Hread & _).
  exists s. split; [exact Hw | exact Hread].
Defined.

(** ** Rounding towards [w] *)




Lemma cached_power_domain_ok_all :
  forall e, -1500 <= e <= 1500 -> cached_power_domain_ok e = true.
Proof.
  intros e He.
  apply (Z_range_forallb cached_power_domain_ok (-1500) 3001).
  - vm_compute. reflexivity.
  - lia.
Qed.

(** X18: [GetCachedPowerForBinaryExponent] returns a cached power exactly
    for the binary exponents from [-1137] to [964]; for every other [e] one
    of its assertions fails (on the range of [e], on the index, or on the
    window of the resulting exponent), and it never reads outside the
    table. *)
Theorem GetCachedPowerForBinaryExponent_domain (e : Z) :
  match GetCachedPowerForBinaryExponent e with
  | Ok c => -1137 <= e <= 964
  | Fail why => (e < -1137 \/ 964 < e) /\ exists expr, why = AssertionFailed expr
  end.
Proof.
  destruct (Z_lt_le_dec e (-1500)) as [Hlow | Hlow].
  { unfold GetCachedPowerForBinaryExponent.
    destruct (Z.geb_spec e (-1500)) as [Hbad | _]; [lia |]. cbn [assert bind].
    split; [lia | eexists; reflexivity]. }
  destruct (Z_lt_le_dec 1500 e) as [Hhigh | Hhigh].
  { unfold GetCachedPowerForBinaryExponent.
    destruct (Z.geb_spec e (-1500)) as [_ | Hbad]; [| lia].
    destruct (Z.leb_spec e 1500) as [Hbad | _]; [lia |]. cbn [assert bind].
    split; [lia | eexists; reflexivity]. }
  pose proof (cached_power_domain_ok_all e ltac:(lia)) as Hok.
  unfold cached_power_domain_ok in Hok.
  destruct (GetCachedPowerForBinaryExponent e) as [c | [expr | |]];
    try discriminate.
  - lia.
  - split; [lia | eexists; reflexivity].
Qed.

Lemma numeral_char_digits ds : all_digits ds -> Forall numeral_char ds.
Proof. apply Forall_impl. intros c Hc. left. exact Hc. Qed.

Lemma numeral_char_exponent_string x :
  -1000 < x < 1000 -> Forall numeral_char (exponent_string x).
Proof.
  intros Hx. unfold exponent_string. constructor.
  - right. destruct (x <? 0); cbn; tauto.
  - apply numeral_char_digits. unfold exponent_digits.
    assert (Hk : 0 <= Z.abs x < 1000) by lia.
    set (k := Z.abs x) in *.
    assert (Hq : forall a b, 0 <= a < 10 * b -> 0 < b -> 0 <= a / b <= 9).
    { intros a b Ha Hb. split; [apply Z.div_pos; lia |].
      assert (a / b < 10) by (apply Z.div_lt_upper_bound; lia). lia. }
    pose proof (Z.mod_pos_bound k 10 ltac:(lia)).
    pose proof (Z.mod_pos_bound k 100 ltac:(lia)).
    pose proof (Z.mod_pos_bound (k mod 100) 10 ltac:(lia)).
    destruct (Z.ltb_spec k 10); [| destruct (Z.ltb_spec k 100)];
      repeat constructor; apply is_digit_digit_char; try lia; apply Hq; lia.
Qed.

Lemma numeral_char_fixed_string ds dp ftdz :
  all_digits ds -> Forall numeral_char (fixed_string ds dp ftdz).
Proof.
  intros Hall.
  pose proof (numeral_char_digits ds Hall) as Hds.
  assert (Hz : forall n, Forall numeral_char (zeros n)).
  { intros n. apply numeral_char_digits, all_digits_zeros. }
  assert (Hpoint : numeral_char "."%char) by (right; cbn; tauto).
  assert (Hzero : numeral_char "0"%char) by (left; reflexivity).
  rewrite <- (firstn_skipn (Z.to_nat dp) ds) in Hds.
  apply Forall_app in Hds. destruct Hds as [Hhead Htail].
  unfold fixed_string.
  destruct (buf_len ds <=? dp).
  - apply Forall_app. split; [apply numeral_char_digits; exact Hall |].
    apply Forall_app. split; [apply Hz |].
    destruct ftdz; repeat constructor; assumption.
  - destruct (0 <? dp).
    + apply Forall_app. split; [exact Hhead |]. constructor; assumption.
    + constructor; [exact Hzero |]. constructor; [exact Hpoint |].
      apply Forall_app. split; [apply Hz | apply numeral_char_digits; exact Hall].
Qed.

Lemma numeral_char_exponential_string ds dp :
  all_digits ds -> -1000 < dp - 1 < 1000 ->
  Forall numeral_char (exponential_string ds dp).
Proof.
  intros Hall Hdp.
  pose proof (numeral_char_digits ds Hall) as Hds.
  pose proof (numeral_char_exponent_string (dp - 1) Hdp) as Hx.
  assert (Hpoint : numeral_char "."%char) by (right; cbn; tauto).
  assert (He : numeral_char "e"%char) by (right; cbn; tauto).
  unfold exponential_string.
  destruct ds as [| d [| d' ds'']]; [constructor | |].
  - inversion Hds; subst. constructor; [assumption |]. constructor; assumption.
  - inversion Hds as [| ? ? Hd Hrest]; subst.
    constructor; [exact Hd |]. constructor; [exact Hpoint |].
    change (d' :: ds'' ++ "e"%char :: exponent_string (dp - 1))
      with ((d' :: ds'') ++ "e"%char :: exponent_string (dp - 1)).
    apply Forall_app. split; [exact Hrest |]. constructor; assumption.
Qed.

(** X19: what [DtoaPositive] writes for a finite positive single or double
    begins with a digit and consists of digits and the bytes [.], [e], [+]
    and [-] only; with a forced trailing [.0] it always holds a point or an
    exponent mark, so that it never reads as an integer. *)
Theorem DtoaPositive_output_shape (fmt : FpFormat) (bits : Z) (fuel : nat)
    (buffer : list ascii) (ftdz : bool) :
  is_iec559_single_or_double fmt ->
  finite_positive fmt bits ->
  (17 <= fuel)%nat ->
  24 <= buf_len buffer ->
  exists c s tail,
    DtoaPositive fmt fuel buffer bits ftdz
    = Ok ((c :: s) ++ tail, buf_len (c :: s))
    /\ is_digit c = true
    /\ Forall numeral_char (c :: s)
    /\ (ftdz = true -> In "."%char (c :: s) \/ In "e"%char (c :: s)).
Proof.
  intros Hfmt Hfp Hfuel Hroom.
  destruct (DtoaPositive_spec fmt bits fuel buffer ftdz Hfmt Hfp Hfuel Hroom)
    as (ds & tail0 & exponent & tail & _ & Hrun & _ & Hlen & Hall & _ & Hexp & _).
  assert (HN : max_digits10 fmt <= 17) by (destruct Hfmt as [-> | ->]; simpl; lia).
  rewrite Hrun. clear Hrun.
  assert (Hshape :
    exists c s, positive_string fmt bits ds exponent ftdz = c :: s
                /\ is_digit c = true
                /\ (ftdz = true -> In "."%char (c :: s) \/ In "e"%char (c :: s))).
  { unfold positive_string. cbv zeta.
    set (dp := buf_len ds + exponent).
    destruct ds as [| d ds']; [change (buf_len []) with 0 in Hlen; lia |].
    inversion Hall as [| ? ? Hd Hrest]; subst.
    destruct (_ && _).
    - unfold fixed_string.
      destruct (Z.leb_spec (buf_len (d :: ds')) dp) as [Hcase | Hcase].
      + eexists. eexists. split; [reflexivity |]. split; [exact Hd |].
        intros ->. left. right. apply in_or_app. right. apply in_or_app. right.
        left. reflexivity.
      + destruct (Z.ltb_spec 0 dp) as [Hpos | Hneg].
        * replace (Z.to_nat dp) with (S (Z.to_nat (dp - 1))) by lia.
          cbn [firstn skipn app].
          eexists. eexists. split; [reflexivity |]. split; [exact Hd |].
          intros _. left. right. apply in_or_app. right. left. reflexivity.
        * eexists. eexists. split; [reflexivity |]. split; [reflexivity |].
          intros _. left. right. left. reflexivity.
    - pose proof (exponential_string_has_e (d :: ds') dp ltac:(lia)) as He.
      unfold exponential_string in *.
      destruct ds' as [| d' ds''];
        (eexists; eexists; split; [reflexivity |]; split; [exact Hd |];
         intros _; right; exact He). }
  destruct Hshape as (c & s & Heq & Hc & Hpoint).
  exists c, s, tail. rewrite <- Heq.
  split; [reflexivity |]. split; [exact Hc |]. split; [| rewrite Heq; exact Hpoint].
  unfold positive_string. cbv zeta.
  destruct (_ && _).
  - apply numeral_char_fixed_string. exact Hall.
  - apply numeral_char_exponential_string; [exact Hall | lia].
Qed.

Lemma DtoaPositive_output_shape_witness :
  exists c s tail,
    DtoaPositive binary64 17 (blank 24) 0x4059000000000000 true
    = Ok ((c :: s) ++ tail, buf_len (c :: s))
    /\ is_digit c = true
    /\ (In "."%char (c :: s) \/ In "e"%char (c :: s)).
Proof.
  assert (Hfp : finite_positive binary64 0x4059000000000000).
  { unfold finite_positive, is_bits. simpl. repeat split; lia. }
  assert (Hroom : 24 <= buf_len (blank 24)) by (unfold buf_len; simpl; lia).
  destruct (DtoaPositive_output_shape binary64 0x4059000000000000 17 (blank 24) true
              ltac:(right; reflexivity) Hfp (le_n 17) Hroom)
    as (c & s & tail & Hrun & Hc & _ & Hpoint).
  exists c, s, tail. split; [exact Hrun |]. split; [exact Hc | exact (Hpoint eq_refl)].
Defined.

(** ** Digit generation and normalization, composed *)





